(** * Ethereum address generator: key derivation, address derivation and
      transaction signing glue ([main.js])

    [main.js] is a handful of functions over imported packages: bip39,
    ethereumjs-wallet (with hdkey), js-sha3, and @ethereumjs/tx, /common and
    /util (with ethereum-cryptography underneath). The functions of
    [main.js] are embedded at the end of the first half of this file, line
    for line. The packages they call are not part of [main.js]; the modules
    before them model the calls after the algorithms the packages implement
    (Keccak-256, FIPS 180-4, RFC 2104, RFC 8018, RFC 6979, BIP-32, BIP-39,
    EIP-155, EIP-1559), and the second half starts by checking these models
    against published vectors. *)

From Stdlib Require Import ZArith List String Ascii Strings.Byte Lia Bool Uint63.
From Bignums Require Import BigZ.
From stdpp Require Import base gmap strings.
Import ListNotations.

Local Open Scope Z_scope.

(** ** Byte buffers and JavaScript string helpers *)

Module JS.

(** A Node [Buffer] is a sequence of octets. *)
Definition Buffer := list byte.

Definition byte_to_Z (b : byte) : Z := Z.of_N (Byte.to_N b).

(** The low eight bits of [z]. *)
Definition byte_of_Z (z : Z) : byte :=
  match Byte.of_N (Z.to_N (Z.land z 255)) with
  | Some b => b
  | None => x00
  end.

(** Lowercase hexadecimal digit of a nibble, as [Buffer.toString('hex')]
    and js-sha3's [HEX_CHARS] table produce it. *)
Definition hex_digit (n : Z) : ascii :=
  match String.get (Z.to_nat (n mod 16)) "0123456789abcdef" with
  | Some c => c
  | None => "0"%char
  end.

Definition hex_of_byte (b : byte) : string :=
  String (hex_digit (byte_to_Z b / 16))
    (String (hex_digit (byte_to_Z b)) EmptyString).

(** [buf.toString('hex')] *)
Fixpoint toString_hex (buf : Buffer) : string :=
  match buf with
  | [] => EmptyString
  | b :: rest => (hex_of_byte b ++ toString_hex rest)%string
  end.

Definition clamp (lo hi x : Z) : Z := Z.max lo (Z.min hi x).

(** [String.prototype.substring(start, end)]: both indices are clamped to
    [0 .. length], and swapped when [start > end]. *)
Definition substring (s : string) (start end_ : Z) : string :=
  let len := Z.of_nat (String.length s) in
  let a := clamp 0 len start in
  let b := clamp 0 len end_ in
  let from := Z.min a b in
  let to := Z.max a b in
  String.substring (Z.to_nat from) (Z.to_nat (to - from)) s.

Definition is_lower_hex (c : ascii) : bool :=
  let n := Z.of_nat (nat_of_ascii c) in
  ((48 <=? n) && (n <=? 57)) || ((97 <=? n) && (n <=? 102)).

Fixpoint all_chars (p : ascii -> bool) (s : string) : bool :=
  match s with
  | EmptyString => true
  | String c rest => p c && all_chars p rest
  end.

(** Big-endian integers: [n] octets of [x], and the integer a buffer
    spells. *)
Fixpoint be_bytes (n : nat) (x : Z) : list byte :=
  match n with
  | O => []
  | S n' => byte_of_Z (Z.shiftr x (8 * Z.of_nat n')) :: be_bytes n' x
  end.

Definition be_int (bs : list byte) : Z :=
  fold_left (fun acc b => 256 * acc + byte_to_Z b) bs 0.

(** [Buffer.from(s, 'utf8')] on a string held as its UTF-8 octets. *)
Definition Buffer_from_utf8 (s : string) : Buffer := list_byte_of_string s.

(** A call either returns a value or throws an [Error] with a message. *)
Inductive Result (A : Type) : Type :=
| Ok (a : A)
| Throw (msg : string).
Arguments Ok {A} a.
Arguments Throw {A} msg.

Definition rbind {A B} (r : Result A) (k : A -> Result B) : Result B :=
  match r with
  | Ok a => k a
  | Throw m => Throw m
  end.

(** The part of the environment the program can observe: the operating
    system's random octets, consumed front to back. *)
Record World := { entropy : list byte }.

(** A JavaScript function: runs in a world, returns or throws, and
    leaves a world behind. *)
Definition M (A : Type) : Type := World -> Result A * World.

Definition ret {A} (a : A) : M A := fun w => (Ok a, w).
Definition throw {A} (msg : string) : M A := fun w => (Throw msg, w).
Definition bind {A B} (c : M A) (k : A -> M B) : M B :=
  fun w => match c w with
           | (Ok a, w') => k a w'
           | (Throw m, w') => (Throw m, w')
           end.
(** A library call that touches nothing outside its arguments. *)
Definition pure_call {A} (r : Result A) : M A := fun w => (r, w).

(** [crypto.randomBytes(n)] *)
Definition randomBytes (n : nat) : M Buffer :=
  fun w =>
    if (n <=? List.length (entropy w))%nat
    then (Ok (firstn n (entropy w)), {| entropy := skipn n (entropy w) |})
    else (Throw "entropy source unavailable", w).

End JS.

Declare Scope js_scope.
Delimit Scope js_scope with js.
Notation "'let*' x := c 'in' k" := (JS.rbind c (fun x => k))
  (at level 10, x name, c at level 100, k at level 200) : js_scope.
Notation "'do' x <- c ; k" := (JS.bind c (fun x => k))
  (at level 10, x name, c at level 100, k at level 200) : js_scope.

(** ** Keccak-256, the hash behind js-sha3's [keccak256] *)

Module Keccak.
Import JS.

Definition mask64 : Z := Eval vm_compute in Z.ones 64.

Definition rotl64 (x n : Z) : Z :=
  Z.land (Z.lor (Z.shiftl x n) (Z.shiftr x (64 - n))) mask64.

Definition lane (st : list Z) (x y : Z) : Z :=
  nth (Z.to_nat ((x mod 5) + 5 * (y mod 5))) st 0.

Definition coords : list (Z * Z) :=
  flat_map (fun y => map (fun x => (x, y)) [0; 1; 2; 3; 4]) [0; 1; 2; 3; 4].

(** Rotation offsets: the lane reached after [t] steps of
    [(x, y) -> (y, 2x + 3y)] from [(1, 0)] is rotated by the [t+1]-th
    triangular number. *)
Fixpoint rho_walk (t : nat) (x y : Z) (k : Z) : list (Z * Z * Z) :=
  match t with
  | O => []
  | S t' =>
      (x, y, ((k + 1) * (k + 2) / 2) mod 64)
        :: rho_walk t' y ((2 * x + 3 * y) mod 5) (k + 1)
  end.

Definition rho_table : list (Z * Z * Z) :=
  Eval vm_compute in ((0, 0, 0) :: rho_walk 24 1 0 0).

Definition rho_offset (x y : Z) : Z :=
  match find (fun e => (fst (fst e) =? x) && (snd (fst e) =? y)) rho_table with
  | Some e => snd e
  | None => 0
  end.

(** Round constants from the degree-8 LFSR of the Keccak specification. *)
Fixpoint lfsr (n : nat) (r : Z) : Z :=
  match n with
  | O => r
  | S n' =>
      let r2 := Z.shiftl r 1 in
      lfsr n' (if Z.testbit r2 8 then Z.lxor r2 369 else r2)
  end.

Definition rc_bit (t : Z) : Z := Z.land (lfsr (Z.to_nat (t mod 255)) 1) 1.

Definition round_constant (ir : Z) : Z :=
  fold_left
    (fun acc j => Z.lor acc (Z.shiftl (rc_bit (j + 7 * ir)) (2 ^ j - 1)))
    [0; 1; 2; 3; 4; 5; 6] 0.

Definition round_constants : list Z :=
  Eval vm_compute in
    map (fun i => round_constant (Z.of_nat i)) (seq 0 24).

Definition theta (st : list Z) : list Z :=
  let c := fun x =>
    Z.lxor (lane st x 0) (Z.lxor (lane st x 1)
      (Z.lxor (lane st x 2) (Z.lxor (lane st x 3) (lane st x 4)))) in
  let cs := map c [0; 1; 2; 3; 4] in
  let cx := fun x => nth (Z.to_nat (x mod 5)) cs 0 in
  let d := fun x => Z.lxor (cx (x + 4)) (rotl64 (cx (x + 1)) 1) in
  let ds := map d [0; 1; 2; 3; 4] in
  map (fun xy => Z.lxor (lane st (fst xy) (snd xy))
                   (nth (Z.to_nat (fst xy)) ds 0)) coords.

(** [B[y, 2x+3y] = rot(A[x, y], r[x, y])], read backwards: the lane at
    [(X, Y)] comes from [x = (X + 3Y) mod 5], [y = X]. *)
Definition rho_pi (st : list Z) : list Z :=
  map (fun XY =>
         let x := (fst XY + 3 * snd XY) mod 5 in
         let y := fst XY in
         rotl64 (lane st x y) (rho_offset x y)) coords.

Definition chi (st : list Z) : list Z :=
  map (fun xy =>
         let x := fst xy in
         let y := snd xy in
         Z.lxor (lane st x y)
           (Z.land (Z.lxor (lane st (x + 1) y) mask64) (lane st (x + 2) y)))
      coords.

Definition iota (rc : Z) (st : list Z) : list Z :=
  match st with
  | [] => []
  | a :: rest => Z.lxor a rc :: rest
  end.

Definition round (st : list Z) (rc : Z) : list Z :=
  iota rc (chi (rho_pi (theta st))).

Definition keccak_f (st : list Z) : list Z :=
  fold_left round round_constants st.

(** Little-endian lanes. *)
Fixpoint lane_of_bytes (bs : list byte) : Z :=
  match bs with
  | [] => 0
  | b :: rest => byte_to_Z b + 256 * lane_of_bytes rest
  end.

Fixpoint bytes_of_lane (n : nat) (w : Z) : list byte :=
  match n with
  | O => []
  | S n' => byte_of_Z w :: bytes_of_lane n' (w / 256)
  end.

Fixpoint chunks (fuel : nat) (size : nat) (bs : list byte) : list (list byte) :=
  match fuel with
  | O => []
  | S fuel' =>
      match bs with
      | [] => []
      | _ => firstn size bs :: chunks fuel' size (skipn size bs)
      end
  end.

Definition rate : nat := 136.

(** Keccak padding (domain byte [0x01], final bit [0x80]). *)
Definition pad (msg : list byte) : list byte :=
  let r := (rate - (List.length msg) mod rate)%nat in
  match r with
  | 1%nat => msg ++ [x81]
  | _ => msg ++ [x01] ++ repeat x00 (r - 2) ++ [x80]
  end.

Fixpoint xor_lanes (st : list Z) (ls : list Z) : list Z :=
  match st, ls with
  | a :: st', l :: ls' => Z.lxor a l :: xor_lanes st' ls'
  | _, _ => st
  end.

Definition absorb (st : list Z) (block : list byte) : list Z :=
  keccak_f (xor_lanes st (map lane_of_bytes (chunks 17 8 block))).

Definition initial_state : list Z := repeat 0 25.

Definition digest (msg : list byte) : list byte :=
  let padded := pad msg in
  let st := fold_left absorb (chunks (List.length padded) rate padded) initial_state in
  firstn 32 (flat_map (bytes_of_lane 8) st).

(** js-sha3: [keccak256(message)] returns the digest as a lowercase hex
    string. *)
Definition keccak256 (msg : Buffer) : string := toString_hex (digest msg).

End Keccak.

(** ** SHA-2 (FIPS 180-4), used by bip39, hdkey and the ECDSA signer

    Words are machine integers: a 32-bit word is one [int], a 64-bit word
    a pair of 32-bit halves. *)

Module SHA2.
Import JS.

Fixpoint is_prime_by (ds : list Z) (n : Z) : bool :=
  match ds with
  | [] => true
  | d :: ds' => if n mod d =? 0 then false else is_prime_by ds' n
  end.

Fixpoint primes_upto (fuel : nat) (n : Z) (acc : list Z) : list Z :=
  match fuel with
  | O => rev acc
  | S fuel' =>
      primes_upto fuel' (n + 1)
        (if is_prime_by acc n then n :: acc else acc)
  end.

(** The first eighty primes, 2 .. 409. *)
Definition primes : list Z := Eval vm_compute in primes_upto 408 2 [].

(** Integer cube root by bisection on [lo, hi). *)
Fixpoint icbrt_go (fuel : nat) (lo hi n : Z) : Z :=
  match fuel with
  | O => lo
  | S fuel' =>
      if hi - lo <=? 1 then lo
      else
        let mid := (lo + hi) / 2 in
        if mid * mid * mid <=? n then icbrt_go fuel' mid hi n
        else icbrt_go fuel' lo mid n
  end.

Definition icbrt (n : Z) : Z := icbrt_go 400 0 (n + 1) n.

(** Operations on [wbits]-bit words. *)
Record word_ops (W : Type) := {
  wbits : Z;
  wadd : W -> W -> W;
  wxor : W -> W -> W;
  wand : W -> W -> W;
  wnot : W -> W;
  wrotr : int -> W -> W;
  wshr : int -> W -> W;
  w_of_Z : Z -> W;
  w_to_Z : W -> Z;
  wzero : W -> bool
}.
Arguments wbits {W}. Arguments wadd {W}. Arguments wxor {W}.
Arguments wand {W}. Arguments wnot {W}. Arguments wrotr {W}.
Arguments wshr {W}. Arguments w_of_Z {W}. Arguments w_to_Z {W}.
Arguments wzero {W}.

Definition m32 : int := 4294967295%uint63.

Definition rotr32 (n x : int) : int :=
  (((x >> n) lor (x << (32 - n))) land m32)%uint63.

Definition ops32 : word_ops int :=
  {| wbits := 32;
     wadd := fun x y => (x + y) land m32;
     wxor := Uint63.lxor;
     wand := Uint63.land;
     wnot := fun x => Uint63.lxor x m32;
     wrotr := rotr32;
     wshr := fun n x => x >> n;
     w_of_Z := fun z => Uint63.of_Z z land m32;
     w_to_Z := Uint63.to_Z;
     wzero := fun x => x =? 0 |}%uint63.

(** High half first. *)
Definition w64 : Type := int * int.

Definition shr64 (n : int) (x : w64) : w64 :=
  let '(hi, lo) := x in
  if (n <? 32)%uint63
  then (hi >> n, ((lo >> n) lor (hi << (32 - n))) land m32)%uint63
  else (0, hi >> (n - 32))%uint63.

Definition rotr64 (n : int) (x : w64) : w64 :=
  let '(hi, lo) := x in
  if (n <? 32)%uint63
  then (((hi >> n) lor (lo << (32 - n))) land m32,
        ((lo >> n) lor (hi << (32 - n))) land m32)%uint63
  else (((lo >> (n - 32)) lor (hi << (64 - n))) land m32,
        ((hi >> (n - 32)) lor (lo << (64 - n))) land m32)%uint63.

Definition add64 (x y : w64) : w64 :=
  let lo := (snd x + snd y)%uint63 in
  ((fst x + fst y + (lo >> 32)) land m32, lo land m32)%uint63.

Definition ops64 : word_ops w64 :=
  {| wbits := 64;
     wadd := add64;
     wxor := fun x y => (Uint63.lxor (fst x) (fst y), Uint63.lxor (snd x) (snd y));
     wand := fun x y => (Uint63.land (fst x) (fst y), Uint63.land (snd x) (snd y));
     wnot := fun x => (Uint63.lxor (fst x) m32, Uint63.lxor (snd x) m32);
     wrotr := rotr64;
     wshr := shr64;
     w_of_Z := fun z => (Uint63.of_Z (Z.shiftr z 32) land m32, Uint63.of_Z z land m32);
     w_to_Z := fun x => Z.lor (Z.shiftl (Uint63.to_Z (fst x)) 32) (Uint63.to_Z (snd x));
     wzero := fun x => (fst x lor snd x) =? 0 |}%uint63.

Record params := {
  rounds : nat;
  Sig0 : int * int * int;       (* rotations of the large sigma functions *)
  Sig1 : int * int * int;
  sig0 : int * int * int;       (* rotate, rotate, shift *)
  sig1 : int * int * int
}.

Definition p256 : params :=
  {| rounds := 64;
     Sig0 := (2, 13, 22); Sig1 := (6, 11, 25);
     sig0 := (7, 18, 3); sig1 := (17, 19, 10) |}%uint63.

Definition p512 : params :=
  {| rounds := 80;
     Sig0 := (28, 34, 39); Sig1 := (14, 18, 41);
     sig0 := (1, 8, 7); sig1 := (19, 61, 6) |}%uint63.

Fixpoint split_every (fuel size : nat) (bs : list byte) : list (list byte) :=
  match fuel with
  | O => []
  | S fuel' =>
      match bs with
      | [] => []
      | _ => firstn size bs :: split_every fuel' size (skipn size bs)
      end
  end.

Section Generic.
Context {W : Type}.
Variable ops : word_ops W.
Variable P : params.

Definition Ch (x y z : W) : W :=
  wxor ops (wand ops x y) (wand ops (wnot ops x) z).
Definition Maj (x y z : W) : W :=
  wxor ops (wand ops x y) (wxor ops (wand ops x z) (wand ops y z)).

Definition big_sigma (r : int * int * int) (x : W) : W :=
  let '(a, b, c) := r in
  wxor ops (wrotr ops a x) (wxor ops (wrotr ops b x) (wrotr ops c x)).
Definition small_sigma (r : int * int * int) (x : W) : W :=
  let '(a, b, c) := r in
  wxor ops (wrotr ops a x) (wxor ops (wrotr ops b x) (wshr ops c x)).

(** Fractional bits of the cube roots (round constants) and square
    roots (initial hash value) of the primes. *)
Definition K : list W :=
  map (fun p => w_of_Z ops (icbrt (p * 2 ^ (3 * wbits ops)))) (firstn (rounds P) primes).

Definition word_bytes : nat := Z.to_nat (wbits ops / 8).
Definition block_bytes : nat := (16 * word_bytes)%nat.

Definition pad (msg : list byte) : list byte :=
  let len := List.length msg in
  let lenfield := (2 * word_bytes)%nat in
  let used := ((len + 1 + lenfield) mod block_bytes)%nat in
  let zeros := ((block_bytes - used) mod block_bytes)%nat in
  msg ++ [x80] ++ repeat x00 zeros ++ be_bytes lenfield (8 * Z.of_nat len).

(** Message schedule, most recent word first:
    [W(t) = s1(W(t-2)) + W(t-7) + s0(W(t-15)) + W(t-16)]. *)
Fixpoint schedule (n : nat) (ws : list W) : list W :=
  match n with
  | O => ws
  | S n' =>
      match ws with
      | _ :: w2 :: _ :: _ :: _ :: _ :: w7 :: _ :: _ :: _ :: _ :: _ :: _ :: _ :: w15 :: w16 :: _ =>
          let wt := wadd ops (wadd ops (small_sigma (sig1 P) w2) w7)
                      (wadd ops (small_sigma (sig0 P) w15) w16) in
          schedule n' (wt :: ws)
      | _ => ws
      end
  end.

(** The eight working variables. *)
Record state := St { sa : W; sb : W; sc : W; sd : W; se : W; sf : W; sg : W; sh : W }.

Definition step (st : state) (kw : W * W) : state :=
  let '(St a b c d e f g h) := st in
  let t1 := wadd ops (wadd ops (wadd ops h (big_sigma (Sig1 P) e)) (Ch e f g))
              (wadd ops (fst kw) (snd kw)) in
  let t2 := wadd ops (big_sigma (Sig0 P) a) (Maj a b c) in
  St (wadd ops t1 t2) a b c (wadd ops d t1) e f g.

(** The implementations keep the state as numbers: a block has been
    absorbed when [compress] returns. [evaluated x k] is [k], with the
    word [x] computed first. *)
Definition evaluated {A : Type} (x : W) (k : A) : A :=
  if wzero ops x then k else k.

Definition compress (Kc : list W) (st : state) (block : list byte) : state :=
  let w16 := map (fun bs => w_of_Z ops (be_int bs)) (split_every 16 word_bytes block) in
  let ws := rev (schedule (rounds P - 16) (rev w16)) in
  let '(St a b c d e f g h) := fold_left step (combine Kc ws) st in
  let a' := wadd ops (sa st) a in
  let b' := wadd ops (sb st) b in
  let c' := wadd ops (sc st) c in
  let d' := wadd ops (sd st) d in
  let e' := wadd ops (se st) e in
  let f' := wadd ops (sf st) f in
  let g' := wadd ops (sg st) g in
  let h' := wadd ops (sh st) h in
  evaluated a' (evaluated b' (evaluated c' (evaluated d'
    (evaluated e' (evaluated f' (evaluated g' (evaluated h'
      (St a' b' c' d' e' f' g' h')))))))).

Definition serialize (st : state) : list byte :=
  let '(St a b c d e f g h) := st in
  flat_map (fun x => be_bytes word_bytes (w_to_Z ops x)) [a; b; c; d; e; f; g; h].

Definition hash_with (Kc : list W) (H : state) (msg : list byte) : list byte :=
  let padded := pad msg in
  serialize (fold_left (compress Kc)
               (split_every (List.length padded) block_bytes padded) H).

Definition H0 : state :=
  let h := fun i => w_of_Z ops (Z.sqrt (nth i primes 0 * 2 ^ (2 * wbits ops))) in
  St (h 0%nat) (h 1%nat) (h 2%nat) (h 3%nat) (h 4%nat) (h 5%nat) (h 6%nat) (h 7%nat).
End Generic.

Definition K256 : list int := Eval vm_compute in K ops32 p256.
Definition K512 : list w64 := Eval vm_compute in K ops64 p512.
Definition H256 : state := Eval vm_compute in H0 ops32.
Definition H512 : state := Eval vm_compute in H0 ops64.

Definition sha256 (msg : list byte) : list byte := hash_with ops32 p256 K256 H256 msg.
Definition sha512 (msg : list byte) : list byte := hash_with ops64 p512 K512 H512 msg.

End SHA2.

(** ** HMAC (RFC 2104) and PBKDF2 (RFC 8018) *)

Module HMAC.
Import JS.

Definition xor_byte (a b : byte) : byte :=
  byte_of_Z (Z.lxor (byte_to_Z a) (byte_to_Z b)).

Fixpoint xor_bytes (xs ys : list byte) : list byte :=
  match xs, ys with
  | x :: xs', y :: ys' => xor_byte x y :: xor_bytes xs' ys'
  | _, _ => []
  end.

Section WithHash.
Variable H : list byte -> list byte.
Variable block : nat.

Definition block_key (key : list byte) : list byte :=
  let k := if (block <? List.length key)%nat then H key else key in
  k ++ repeat x00 (block - List.length k).

Definition hmac (key msg : list byte) : list byte :=
  let k := block_key key in
  H (xor_bytes k (repeat x5c block) ++ H (xor_bytes k (repeat x36 block) ++ msg)).

(** [U_1 xor U_2 xor ... xor U_c], with [acc] the running xor and [u] the
    last [U]. *)
Fixpoint pbkdf2_iter (c : nat) (pw u acc : list byte) : list byte :=
  match c with
  | O => acc
  | S c' =>
      let u' := hmac pw u in
      pbkdf2_iter c' pw u' (xor_bytes acc u')
  end.

Definition pbkdf2_block (pw salt : list byte) (c : nat) (i : Z) : list byte :=
  let u1 := hmac pw (salt ++ be_bytes 4 i) in
  pbkdf2_iter (c - 1) pw u1 u1.

Definition pbkdf2 (pw salt : list byte) (c dkLen hLen : nat) : list byte :=
  let blocks := ((dkLen + hLen - 1) / hLen)%nat in
  firstn dkLen
    (flat_map (fun i => pbkdf2_block pw salt c (Z.of_nat i)) (seq 1 blocks)).
End WithHash.

Definition hmac_sha256 : list byte -> list byte -> list byte := hmac SHA2.sha256 64.
Definition hmac_sha512 : list byte -> list byte -> list byte := hmac SHA2.sha512 128.

End HMAC.

(** ** The secp256k1 curve [y^2 = x^3 + 7] over the prime field [p] *)

Module Secp256k1.
Import JS.

Definition p : Z := 2 ^ 256 - 2 ^ 32 - 977.
Definition n : Z :=
  0xFFFFFFFFFFFFFFFFFFFFFFFFFFFFFFFEBAAEDCE6AF48A03BBFD25E8CD0364141.
Definition Gx : Z :=
  0x79BE667EF9DCBBAC55A06295CE870B07029BFCDB2DCE28D959F2815B16F81798.
Definition Gy : Z :=
  0x483ADA7726A3C4655DA4FBFC0E1108A8FD17B448A68554199C47D08FFB10D4B8.

Definition bp : bigZ := Eval vm_compute in BigZ.of_Z p.
Definition bn : bigZ := Eval vm_compute in BigZ.of_Z n.

Section Field.
Variable m : bigZ.
Local Open Scope bigZ_scope.

Definition fadd (a b : bigZ) : bigZ := (a + b) mod m.
Definition fsub (a b : bigZ) : bigZ := (a - b) mod m.
Definition fmul (a b : bigZ) : bigZ := (a * b) mod m.

(** [a ^ e mod m], most significant bit of [e] first. *)
Fixpoint fpow_pos (a : bigZ) (e : positive) : bigZ :=
  match e with
  | xH => a mod m
  | xO e' => let h := fpow_pos a e' in fmul h h
  | xI e' => let h := fpow_pos a e' in fmul (fmul h h) a
  end.

Definition fpow (a : bigZ) (e : Z) : bigZ :=
  match e with
  | Zpos e' => fpow_pos a e'
  | _ => 1
  end.
End Field.

(** Inverse modulo a prime [m], by Fermat. *)
Definition finv (m : Z) (a : bigZ) : bigZ := fpow (BigZ.of_Z m) a (m - 2).

(** Jacobian coordinates; [Z = 0] is the point at infinity. *)
Record jac := Jac { jx : bigZ; jy : bigZ; jz : bigZ }.

Definition jinf : jac := Jac 1 1 0.

Definition is_inf (P : jac) : bool := BigZ.eqb (jz P) 0.

Definition jdouble (P : jac) : jac :=
  if is_inf P || BigZ.eqb (jy P) 0 then jinf
  else
    let A := fmul bp (jx P) (jx P) in
    let B := fmul bp (jy P) (jy P) in
    let C := fmul bp B B in
    let xb := fadd bp (jx P) B in
    let D := fmul bp 2 (fsub bp (fsub bp (fmul bp xb xb) A) C) in
    let E := fmul bp 3 A in
    let F := fmul bp E E in
    let X3 := fsub bp F (fmul bp 2 D) in
    let Y3 := fsub bp (fmul bp E (fsub bp D X3)) (fmul bp 8 C) in
    let Z3 := fmul bp 2 (fmul bp (jy P) (jz P)) in
    Jac X3 Y3 Z3.

Definition jadd (P Q : jac) : jac :=
  if is_inf P then Q
  else if is_inf Q then P
  else
    let Z1Z1 := fmul bp (jz P) (jz P) in
    let Z2Z2 := fmul bp (jz Q) (jz Q) in
    let U1 := fmul bp (jx P) Z2Z2 in
    let U2 := fmul bp (jx Q) Z1Z1 in
    let S1 := fmul bp (jy P) (fmul bp (jz Q) Z2Z2) in
    let S2 := fmul bp (jy Q) (fmul bp (jz P) Z1Z1) in
    if BigZ.eqb U1 U2 then
      if BigZ.eqb S1 S2 then jdouble P else jinf
    else
      let H := fsub bp U2 U1 in
      let R := fsub bp S2 S1 in
      let H2 := fmul bp H H in
      let H3 := fmul bp H H2 in
      let V := fmul bp U1 H2 in
      let X3 := fsub bp (fsub bp (fmul bp R R) H3) (fmul bp 2 V) in
      let Y3 := fsub bp (fmul bp R (fsub bp V X3)) (fmul bp S1 H3) in
      let Z3 := fmul bp H (fmul bp (jz P) (jz Q)) in
      Jac X3 Y3 Z3.

Fixpoint jmul_pos (k : positive) (P : jac) : jac :=
  match k with
  | xH => P
  | xO k' => jdouble (jmul_pos k' P)
  | xI k' => jadd (jdouble (jmul_pos k' P)) P
  end.

(** A curve point in affine coordinates; [None] is the point at
    infinity. *)
Definition point := option (Z * Z).

Definition to_jac (P : point) : jac :=
  match P with
  | None => jinf
  | Some (x, y) => Jac (BigZ.of_Z x) (BigZ.of_Z y) 1
  end.

Definition of_jac (P : jac) : point :=
  if is_inf P then None
  else
    let zi := finv p (jz P) in
    let zi2 := fmul bp zi zi in
    Some (BigZ.to_Z (fmul bp (jx P) zi2),
          BigZ.to_Z (fmul bp (jy P) (fmul bp zi zi2))).

Definition G : point := Some (Gx, Gy).

Definition point_add (P Q : point) : point := of_jac (jadd (to_jac P) (to_jac Q)).

Definition point_mul (k : Z) (P : point) : point :=
  match k with
  | Zpos k' => of_jac (jmul_pos k' (to_jac P))
  | _ => None
  end.

Definition on_curve (P : point) : bool :=
  match P with
  | None => true
  | Some (x, y) =>
      (0 <=? x) && (x <? p) && (0 <=? y) && (y <? p)
      && ((y * y) mod p =? (x * x * x + 7) mod p)
  end.

(** A square root modulo [p] (which is 3 mod 4), if [a] has one. *)
Definition fsqrt (a : Z) : option Z :=
  let r := BigZ.to_Z (fpow bp (BigZ.of_Z a) ((p + 1) / 4)) in
  if (r * r) mod p =? a mod p then Some r else None.

(** The point with abscissa [x] whose ordinate has the given parity. *)
Definition lift_x (x : Z) (odd : bool) : point :=
  if (0 <=? x) && (x <? p) then
    match fsqrt ((x * x * x + 7) mod p) with
    | Some y => Some (x, if Bool.eqb (Z.odd y) odd then y else p - y)
    | None => None
    end
  else None.

Definition inv_n (a : Z) : Z := BigZ.to_Z (finv n (BigZ.of_Z a)).

Definition valid_private (d : Z) : bool := (0 <? d) && (d <? n).

End Secp256k1.

(** ** bip39 *)

Module BIP39.
Import JS.

(** Unicode NFKD normalisation. It leaves ASCII text as it is, and only
    there is it modelled: a mnemonic or a password with other characters,
    which bip39 would decompose, is outside this model. *)
Definition nfkd (s : string) : string := s.

(** [function salt (password) { return 'mnemonic' + (password || '') }] *)
Definition salt (password : option string) : string :=
  ("mnemonic" ++ match password with Some p => p | None => EmptyString end)%string.

(** [mnemonicToSeed(mnemonic, password)]: PBKDF2-HMAC-SHA512, 2048
    iterations, 64 octets. *)
Definition mnemonicToSeed (mnemonic : string) (password : option string) : Buffer :=
  let mnemonicBuffer := Buffer_from_utf8 (nfkd mnemonic) in
  let saltBuffer := Buffer_from_utf8 (salt (option_map nfkd password)) in
  HMAC.pbkdf2 SHA2.sha512 128 mnemonicBuffer saltBuffer 2048 64 64.

(** [s.split(' ')] *)
Fixpoint split_space (s : string) (cur : string) : list string :=
  match s with
  | EmptyString => [cur]
  | String c rest =>
      if Ascii.eqb c " " then cur :: split_space rest EmptyString
      else split_space rest (cur ++ String c EmptyString)
  end.

(** Binary digits, most significant first. *)
Definition bits_of (width : nat) (n : Z) : list bool :=
  map (fun i => Z.testbit n (Z.of_nat i)) (rev (seq 0 width)).

(** [lpad(index.toString(2), '0', 11)]: at least eleven digits. *)
Definition index_bits (index : nat) : list bool :=
  bits_of (Nat.max 11 (Z.to_nat (Z.log2 (Z.of_nat index) + 1))) (Z.of_nat index).

Definition bytesToBinary (bs : Buffer) : list bool :=
  flat_map (fun b => bits_of 8 (byte_to_Z b)) bs.

Definition binaryToByte (bits : list bool) : byte :=
  byte_of_Z (fold_left (fun acc (b : bool) => 2 * acc + (if b then 1 else 0)) bits 0).

Fixpoint chunk8 (fuel : nat) (bits : list bool) : list (list bool) :=
  match fuel with
  | O => []
  | S fuel' =>
      match bits with
      | [] => []
      | _ => firstn 8 bits :: chunk8 fuel' (skipn 8 bits)
      end
  end.

(** [deriveChecksumBits]: the first [ENT / 32] bits of the SHA-256 of
    the entropy. *)
Definition deriveChecksumBits (entropy : Buffer) : list bool :=
  firstn (List.length entropy * 8 / 32) (bytesToBinary (SHA2.sha256 entropy)).

Definition bits_eqb (a b : list bool) : bool :=
  (List.length a =? List.length b)%nat
  && forallb (fun xy => Bool.eqb (fst xy) (snd xy)) (combine a b).

Section Wordlist.
Variable wordlist : list string.

(** [wordlist.indexOf(word)] *)
Fixpoint indexOf (word : string) (l : list string) (i : nat) : option nat :=
  match l with
  | [] => None
  | w :: l' => if String.eqb w word then Some i else indexOf word l' (S i)
  end.

Fixpoint words_bits (words : list string) : option (list bool) :=
  match words with
  | [] => Some []
  | w :: ws =>
      match indexOf w wordlist 0, words_bits ws with
      | Some i, Some rest => Some (index_bits i ++ rest)
      | _, _ => None
      end
  end.

(** [mnemonicToEntropy(mnemonic, wordlist)] *)
Definition mnemonicToEntropy (mnemonic : string) : Result Buffer :=
  let words := split_space (nfkd mnemonic) EmptyString in
  if negb (List.length words mod 3 =? 0)%nat then Throw "Invalid mnemonic"
  else
    match words_bits words with
    | None => Throw "Invalid mnemonic"
    | Some bits =>
        let dividerIndex := (List.length bits / 33 * 32)%nat in
        let entropyBits := firstn dividerIndex bits in
        let checksumBits := skipn dividerIndex bits in
        let entropy := map binaryToByte (chunk8 (List.length entropyBits) entropyBits) in
        if (List.length entropy <? 16)%nat then Throw "Invalid entropy"
        else if (32 <? List.length entropy)%nat then Throw "Invalid entropy"
        else if negb (List.length entropy mod 4 =? 0)%nat then Throw "Invalid entropy"
        else if bits_eqb (deriveChecksumBits entropy) checksumBits
             then Ok entropy
             else Throw "Invalid mnemonic checksum"
    end.

(** Modelled from the spec: [validateMnemonic(candidate) -> bool] is
    bip39's function, which [main.js] never calls (the README shows one
    call of it); it recomputes the checksum and answers [false], never
    throwing, for any sequence that is not in the word list, has the
    wrong length or carries a bad checksum. The word list itself is a
    parameter. *)
Definition validateMnemonic (mnemonic : string) : bool :=
  match mnemonicToEntropy mnemonic with
  | Ok _ => true
  | Throw _ => false
  end.

Fixpoint chunk11 (fuel : nat) (bits : list bool) : list (list bool) :=
  match fuel with
  | O => []
  | S fuel' =>
      match bits with
      | [] => []
      | _ => firstn 11 bits :: chunk11 fuel' (skipn 11 bits)
      end
  end.

Definition bits_value (bits : list bool) : nat :=
  fold_left (fun acc (b : bool) => (2 * acc + (if b then 1 else 0))%nat) bits 0%nat.

Fixpoint join_space (ws : list string) : string :=
  match ws with
  | [] => EmptyString
  | [w] => w
  | w :: ws' => (w ++ " " ++ join_space ws')%string
  end.

(** [entropyToMnemonic(entropy, wordlist)]: between 16 and 32 octets, a
    multiple of four. *)
Definition entropyToMnemonic (entropy : Buffer) : Result string :=
  if (List.length entropy <? 16)%nat then Throw "Invalid entropy"
  else if (32 <? List.length entropy)%nat then Throw "Invalid entropy"
  else if negb (List.length entropy mod 4 =? 0)%nat then Throw "Invalid entropy"
  else
    let bits := bytesToBinary entropy ++ deriveChecksumBits entropy in
    Ok (join_space
          (map (fun ch => nth (bits_value ch) wordlist EmptyString)
             (chunk11 (List.length bits) bits))).

(** [generateMnemonic()]: 128 bits from [randomBytes]. *)
Definition generateMnemonic : M string :=
  (do entropy <- randomBytes 16;
   pure_call (entropyToMnemonic entropy))%js.
End Wordlist.

End BIP39.

(** ** hdkey (BIP-32) and ethereumjs-wallet *)

Module HDKey.
Import JS.

Definition HARDENED_OFFSET : Z := 0x80000000.

(** [secp256k1.privateKeyVerify] *)
Definition privateKeyVerify (k : Buffer) : bool :=
  (List.length k =? 32)%nat && Secp256k1.valid_private (be_int k).

(** [secp256k1.publicKeyCreate(k, true)]: the compressed point. *)
Definition publicKeyCreate_compressed (k : Buffer) : Buffer :=
  match Secp256k1.point_mul (be_int k) Secp256k1.G with
  | Some (x, y) => (if Z.odd y then x03 else x02) :: be_bytes 32 x
  | None => []
  end.

(** [secp256k1.publicKeyCreate(k, false).slice(1)] *)
Definition publicKeyCreate_raw (k : Buffer) : Buffer :=
  match Secp256k1.point_mul (be_int k) Secp256k1.G with
  | Some (x, y) => be_bytes 32 x ++ be_bytes 32 y
  | None => []
  end.

(** [secp256k1.privateKeyTweakAdd]: fails when the tweak is not below
    the group order or the sum is zero. *)
Definition privateKeyTweakAdd (k tweak : Buffer) : Result Buffer :=
  let t := be_int tweak in
  let s := (be_int k + t) mod Secp256k1.n in
  if (Secp256k1.n <=? t) || (s =? 0) then Throw "tweak out of range"
  else Ok (be_bytes 32 s).

(** The fields of an [HDKey] object that key derivation reads and
    writes. *)
Record t := {
  privateKey : Buffer;
  publicKey : Buffer;
  chainCode : Buffer
}.

(** The [privateKey] setter followed by the [chainCode] assignment. *)
Definition with_private (k cc : Buffer) : Result t :=
  if negb (List.length k =? 32)%nat then Throw "Private key must be 32 bytes."
  else if negb (privateKeyVerify k) then Throw "Invalid private key"
  else Ok {| privateKey := k;
             publicKey := publicKeyCreate_compressed k;
             chainCode := cc |}.

Definition MASTER_SECRET : Buffer := Buffer_from_utf8 "Bitcoin seed".

(** [HDKey.fromMasterSeed(seedBuffer)] *)
Definition fromMasterSeed (seed : Buffer) : Result t :=
  let I := HMAC.hmac_sha512 MASTER_SECRET seed in
  with_private (firstn 32 I) (skipn 32 I).

(** [hdkey.deriveChild(index)]. When the tweak is rejected the library
    proceeds with [index + 1]; [fuel] bounds that retry. *)
Fixpoint deriveChild (fuel : nat) (hd : t) (index : Z) : Result t :=
  if (index <? 0) || (0xFFFFFFFF <? index) then Throw "index out of range"
  else
    let indexBuffer := be_bytes 4 index in
    let data :=
      if HARDENED_OFFSET <=? index
      then [x00] ++ privateKey hd ++ indexBuffer
      else publicKey hd ++ indexBuffer in
    let I := HMAC.hmac_sha512 (chainCode hd) data in
    let IL := firstn 32 I in
    let IR := skipn 32 I in
    match (let* k := privateKeyTweakAdd (privateKey hd) IL in with_private k IR)%js with
    | Ok child => Ok child
    | Throw m =>
        match fuel with
        | O => Throw m
        | S fuel' => deriveChild fuel' hd (index + 1)
        end
    end.

Definition retries : nat := 16.

Definition is_digit (c : ascii) : bool :=
  let k := nat_of_ascii c in ((48 <=? k) && (k <=? 57))%nat.

Definition is_space (c : ascii) : bool :=
  let k := nat_of_ascii c in
  ((k =? 32) || ((9 <=? k) && (k <=? 13)))%nat.

Fixpoint skip_spaces (s : string) : string :=
  match s with
  | String c rest => if is_space c then skip_spaces rest else s
  | EmptyString => s
  end.

(** The value of the leading decimal digits, [None] when there are
    none. *)
Fixpoint digits (s : string) (acc : option Z) : option Z :=
  match s with
  | String c rest =>
      if is_digit c
      then digits rest
             (Some (10 * match acc with Some a => a | None => 0 end
                    + (Z.of_nat (nat_of_ascii c) - 48)))
      else acc
  | EmptyString => acc
  end.

(** [parseInt(s, 10)]; [None] is [NaN]. *)
Definition parseInt (s : string) : option Z :=
  match skip_spaces s with
  | String "-" rest => option_map Z.opp (digits rest None)
  | String "+" rest => digits rest None
  | s' => digits s' None
  end.

(** [s.split('/')] *)
Fixpoint split_slash (s : string) (cur : string) : list string :=
  match s with
  | EmptyString => [cur]
  | String c rest =>
      if Ascii.eqb c "/" then cur :: split_slash rest EmptyString
      else split_slash rest (cur ++ String c EmptyString)
  end.

Definition last_char (s : string) : option ascii :=
  match String.length s with
  | O => None
  | S k => String.get k s
  end.

(** One path entry after the first. *)
Definition derive_entry (hd : t) (c : string) : Result t :=
  let hardened := (1 <? String.length c)%nat
                  && match last_char c with
                     | Some ch => Ascii.eqb ch "'"
                     | None => false
                     end in
  match parseInt c with
  | Some childIndex =>
      if childIndex <? HARDENED_OFFSET
      then deriveChild retries hd
             (if hardened then childIndex + HARDENED_OFFSET else childIndex)
      else Throw "Invalid index"
  | None => Throw "Invalid index"
  end.

Fixpoint derive_entries (hd : t) (cs : list string) : Result t :=
  match cs with
  | [] => Ok hd
  | c :: cs' => (let* hd' := derive_entry hd c in derive_entries hd' cs')%js
  end.

(** [hdkey.derive(path)] *)
Definition derive (hd : t) (path : string) : Result t :=
  if String.eqb path "m" || String.eqb path "M"
     || String.eqb path "m'" || String.eqb path "M'"
  then Ok hd
  else
    match split_slash path EmptyString with
    | [] => Ok hd
    | first :: rest =>
        match first with
        | String c _ =>
            if Ascii.eqb c "m" || Ascii.eqb c "M"
            then derive_entries hd rest
            else Throw "Path must start with m or M"
        | EmptyString => Throw "Path must start with m or M"
        end
    end.

End HDKey.

(** ethereumjs-wallet: [Wallet] and its [hdkey] wrapper. *)
Module Wallet.
Import JS.

(** A wallet made from a private key. *)
Record t := { privKey : Buffer }.

(** [Wallet.fromPrivateKey(priv)] *)
Definition fromPrivateKey (priv : Buffer) : Result t :=
  if HDKey.privateKeyVerify priv then Ok {| privKey := priv |}
  else Throw "Private key does not satisfy the curve requirements (ie. it is invalid)".

Definition getPrivateKey (w : t) : Buffer := privKey w.

(** [wallet.getPublicKey()]: [ethUtil.privateToPublic], 64 octets. *)
Definition getPublicKey (w : t) : Buffer := HDKey.publicKeyCreate_raw (privKey w).

(** [hdkey.fromMasterSeed(seed)] *)
Definition hd_fromMasterSeed (seed : Buffer) : Result HDKey.t :=
  HDKey.fromMasterSeed seed.

(** [.derivePath(path)] *)
Definition hd_derivePath (hd : HDKey.t) (path : string) : Result HDKey.t :=
  HDKey.derive hd path.

(** [.getWallet()] of a key that holds a private key. *)
Definition hd_getWallet (hd : HDKey.t) : Result t :=
  fromPrivateKey (HDKey.privateKey hd).

End Wallet.

(** ** RFC 6979: the nonce of a deterministic signature *)

Module RFC6979.
Import JS.

(** Section 3.2 in its own words. Steps b to g make the key [K] and the
    value [V] from [seed], the private key followed by the hash, each as 32
    octets. Step h sets [V] to [HMAC_K(V)] and takes it as the candidate;
    after a refused candidate, [K] becomes [HMAC_K(V || 0x00)] and [V]
    becomes [HMAC_K(V)]. [KV seed i] is the pair before candidate number
    [i] is taken. *)
Definition start (seed : Buffer) : Buffer * Buffer :=
  let K0 := repeat x00 32 in
  let V0 := repeat x01 32 in
  let K1 := HMAC.hmac_sha256 K0 (V0 ++ [x00] ++ seed) in
  let V1 := HMAC.hmac_sha256 K1 V0 in
  let K2 := HMAC.hmac_sha256 K1 (V1 ++ [x01] ++ seed) in
  let V2 := HMAC.hmac_sha256 K2 V1 in
  (K2, V2).

Fixpoint KV (seed : Buffer) (i : nat) : Buffer * Buffer :=
  match i with
  | O => start seed
  | S j =>
      let '(K, V) := KV seed j in
      let T := HMAC.hmac_sha256 K V in
      let K' := HMAC.hmac_sha256 K (T ++ [x00]) in
      (K', HMAC.hmac_sha256 K' T)
  end.

Definition candidate (seed : Buffer) (i : nat) : Buffer :=
  let '(K, V) := KV seed i in HMAC.hmac_sha256 K V.

End RFC6979.

(** ** ECDSA over secp256k1 with RFC 6979 nonces (noble-secp256k1, as
      re-exported by ethereum-cryptography) *)

Module Noble.
Import JS.

(** HMAC-DRBG state. *)
Record drbg := { dk : Buffer; dv : Buffer }.

Definition drbg_init : drbg := {| dk := repeat x00 32; dv := repeat x01 32 |}.

Definition reseed (d : drbg) (seed : Buffer) : drbg :=
  let k1 := HMAC.hmac_sha256 (dk d) (dv d ++ [x00] ++ seed) in
  let v1 := HMAC.hmac_sha256 k1 (dv d) in
  match seed with
  | [] => {| dk := k1; dv := v1 |}
  | _ =>
      let k2 := HMAC.hmac_sha256 k1 (v1 ++ [x01] ++ seed) in
      {| dk := k2; dv := HMAC.hmac_sha256 k2 v1 |}
  end.

Definition generate (d : drbg) : Buffer * drbg :=
  let v' := HMAC.hmac_sha256 (dk d) (dv d) in
  (v', {| dk := dk d; dv := v' |}).

(** A signature with its recovery identifier. *)
Record recsig := { sig_r : Z; sig_s : Z; recovery : Z }.

(** One attempt with the candidate nonce [kBytes]. *)
Definition kmd2sig (kBytes : Buffer) (m d : Z) : option recsig :=
  let k := be_int kBytes in
  if negb (Secp256k1.valid_private k) then None
  else
    match Secp256k1.point_mul k Secp256k1.G with
    | None => None
    | Some (qx, qy) =>
        let r := qx mod Secp256k1.n in
        if r =? 0 then None
        else
          let s := (Secp256k1.inv_n k * ((m + d * r) mod Secp256k1.n)) mod Secp256k1.n in
          if s =? 0 then None
          else Some {| sig_r := r; sig_s := s;
                       recovery := Z.lor (if qx =? r then 0 else 2)
                                         (if Z.odd qy then 1 else 0) |}
    end.

Fixpoint sign_loop (fuel : nat) (d : drbg) (m x : Z) : Result recsig :=
  match fuel with
  | O => Throw "Tried 1,000 k values for sign(), all were invalid"
  | S fuel' =>
      let '(kBytes, d') := generate d in
      match kmd2sig kBytes m x with
      | Some sg => Ok sg
      | None => sign_loop fuel' (reseed d' []) m x
      end
  end.

Definition half_n : Z := Z.shiftr Secp256k1.n 1.

(** Low-[s] form: [s] is replaced by [n - s] and the recovery bit
    flipped. *)
Definition finalizeSig (sg : recsig) : recsig :=
  if half_n <? sig_s sg
  then {| sig_r := sig_r sg; sig_s := Secp256k1.n - sig_s sg;
          recovery := Z.lxor (recovery sg) 1 |}
  else sg.

(** Modelled from the spec: [signSync(msgHash, privateKey, { recovered:
    true, der: false })] is ethereum-cryptography's function, reached
    through [tx.sign]; [main.js] holds only the call of [tx.sign]. The
    signature over the hash is made with deterministic nonce generation
    (RFC 6979): the nonce candidates come from an HMAC generator seeded with
    the key and the hash. *)
Definition signSync (msgHash privateKey : Buffer) : Result (Buffer * Z) :=
  if negb (List.length privateKey =? 32)%nat
  then Throw "Expected 32 bytes of private key"
  else
    let d := be_int privateKey in
    if negb (Secp256k1.valid_private d)
    then Throw "Expected private key: 0 < key < n"
    else
      let h := be_int (firstn 32 msgHash) in
      let seed := be_bytes 32 d ++ be_bytes 32 (h mod Secp256k1.n) in
      (let* sg := sign_loop 1000 (reseed drbg_init seed) (h mod Secp256k1.n) d in
       let sg' := finalizeSig sg in
       Ok (be_bytes 32 (sig_r sg') ++ be_bytes 32 (sig_s sg'), recovery sg'))%js.

(** [recoverPublicKey(signature, msgHash, recovery)]: the uncompressed
    point, format octet first. *)
Definition recoverPublicKey (signature msgHash : Buffer) (rec : Z) : Result Buffer :=
  let r := be_int (firstn 32 signature) in
  let s := be_int (skipn 32 signature) in
  if negb (Secp256k1.valid_private r && Secp256k1.valid_private s)
  then Throw "Invalid Signature"
  else if negb ((rec =? 0) || (rec =? 1))
  then Throw "Cannot recover signature: invalid recovery bit"
  else
    let h := be_int (firstn 32 msgHash) mod Secp256k1.n in
    let rinv := Secp256k1.inv_n r in
    let u1 := ((- h) * rinv) mod Secp256k1.n in
    let u2 := (s * rinv) mod Secp256k1.n in
    match Secp256k1.lift_x r (rec =? 1) with
    | None => Throw "Point is not on curve"
    | Some R =>
        match Secp256k1.point_add (Secp256k1.point_mul u1 Secp256k1.G)
                (Secp256k1.point_mul u2 (Some R)) with
        | None => Throw "Cannot recover signature: point at infinify"
        | Some (x, y) => Ok ([x04] ++ be_bytes 32 x ++ be_bytes 32 y)
        end
    end.

End Noble.

(** ** @ethereumjs/util and the RLP encoding *)

Module Util.
Import JS.

(** The values a transaction field can hold. *)
Inductive Value : Type :=
| VString (s : string)
| VNumber (n : Z)
| VBigInt (n : Z)
| VBuffer (b : Buffer)
| VAccessList (items : list (Buffer * list Buffer)).

Definition is_hex_char (c : ascii) : bool :=
  let k := nat_of_ascii c in
  (((48 <=? k) && (k <=? 57)) || ((65 <=? k) && (k <=? 70))
   || ((97 <=? k) && (k <=? 102)))%nat.

Definition hex_value (c : ascii) : Z :=
  let k := Z.of_nat (nat_of_ascii c) in
  if k <=? 57 then k - 48 else if k <=? 70 then k - 55 else k - 87.

(** [isHexString]: [0x] followed by hexadecimal digits only. *)
Definition isHexString (s : string) : bool :=
  match s with
  | String "0" (String "x" rest) => all_chars is_hex_char rest
  | _ => false
  end.

Definition stripHexPrefix (s : string) : string :=
  match s with
  | String "0" (String "x" rest) => rest
  | _ => s
  end.

Definition padToEven (s : string) : string :=
  if Nat.even (String.length s) then s else String "0" s.

(** [Buffer.from(s, 'hex')] on an even number of hexadecimal digits. *)
Fixpoint Buffer_from_hex (s : string) : Buffer :=
  match s with
  | String a (String b rest) =>
      byte_of_Z (16 * hex_value a + hex_value b) :: Buffer_from_hex rest
  | _ => []
  end.

Fixpoint unpadBuffer (b : Buffer) : Buffer :=
  match b with
  | x00 :: rest => unpadBuffer rest
  | _ => b
  end.

(** The shortest big-endian form of [n], one zero octet for zero. *)
Fixpoint minimal_bytes (fuel : nat) (n : Z) (acc : Buffer) : Buffer :=
  match fuel with
  | O => acc
  | S fuel' =>
      if n <? 256 then byte_of_Z n :: acc
      else minimal_bytes fuel' (Z.shiftr n 8) (byte_of_Z n :: acc)
  end.

Definition int_bytes (n : Z) : Buffer :=
  minimal_bytes (S (Z.to_nat (Z.log2 n))) n [].

Definition MAX_SAFE_INTEGER : Z := 2 ^ 53 - 1.

(** [toBuffer(v)]; an absent field is [undefined]. *)
Definition toBuffer (v : option Value) : Result Buffer :=
  match v with
  | None => Ok []
  | Some (VBuffer b) => Ok b
  | Some (VString s) =>
      if isHexString s then Ok (Buffer_from_hex (padToEven (stripHexPrefix s)))
      else Throw "Cannot convert string to buffer. toBuffer only supports 0x-prefixed hex strings"
  | Some (VNumber n) =>
      if (n <? 0) || (MAX_SAFE_INTEGER <? n)
      then Throw "Received an invalid integer type"
      else Ok (int_bytes n)
  | Some (VBigInt n) =>
      if n <? 0 then Throw "Cannot convert negative bigint to buffer"
      else Ok (int_bytes n)
  | Some (VAccessList _) => Throw "invalid type"
  end.

Definition bufferToBigInt (b : Buffer) : Z := be_int b.

(** [bigIntToUnpaddedBuffer]: no octets at all for zero. *)
Definition bigIntToUnpaddedBuffer (n : Z) : Buffer := unpadBuffer (int_bytes n).

(** [setLengthLeft(b, n)] *)
Definition setLengthLeft (b : Buffer) (n : nat) : Buffer :=
  if (List.length b <? n)%nat then repeat x00 (n - List.length b) ++ b
  else skipn (List.length b - n) b.

(** [x === '' ? '0x' : x], then [toBuffer]. *)
Definition field_buffer (v : option Value) : Result Buffer :=
  match v with
  | Some (VString EmptyString) => toBuffer (Some (VString "0x"))
  | _ => toBuffer v
  end.

Definition field_bigint (v : option Value) : Result Z :=
  (let* b := field_buffer v in Ok (bufferToBigInt b))%js.

(** An [Address] wraps twenty octets. *)
Record Address := { buf : Buffer }.

Definition Address_new (b : Buffer) : Result Address :=
  if (List.length b =? 20)%nat then Ok {| buf := b |}
  else Throw "Invalid address length".

(** [Address.prototype.toString()] takes no argument, so one that is
    passed is not looked at: the result is [0x] and the hexadecimal text. *)
Definition Address_toString (a : Address) : string :=
  ("0x" ++ toString_hex (buf a))%string.

(** [keccak256(buf)] as octets. *)
Definition keccak256 (b : Buffer) : Buffer := Keccak.digest b.

(** [publicToAddress(pubKey)] *)
Definition publicToAddress (pubKey : Buffer) : Result Buffer :=
  if (List.length pubKey =? 64)%nat
  then Ok (skipn 12 (keccak256 pubKey))
  else Throw "Expected pubKey to be of length 64".

(** [ecsign(msgHash, privateKey)] without a chain id. *)
Definition ecsign (msgHash privateKey : Buffer) : Result (Z * Buffer * Buffer) :=
  (let* sr := Noble.signSync msgHash privateKey in
   let '(signature, recovery) := sr in
   Ok (recovery + 27, firstn 32 signature, firstn 32 (skipn 32 signature)))%js.

Definition calculateSigRecovery (v : Z) (chainId : option Z) : Z :=
  if (v =? 0) || (v =? 1) then v
  else match chainId with
       | None => v - 27
       | Some c => v - (c * 2 + 35)
       end.

(** [ecrecover(msgHash, v, r, s, chainId)] *)
Definition ecrecover (msgHash : Buffer) (v : Z) (r s : Buffer) (chainId : option Z)
  : Result Buffer :=
  let signature := setLengthLeft r 32 ++ setLengthLeft s 32 in
  let rec := calculateSigRecovery v chainId in
  if negb ((rec =? 0) || (rec =? 1)) then Throw "Invalid signature v value"
  else
    (let* senderPubKey := Noble.recoverPublicKey signature msgHash rec in
     Ok (skipn 1 senderPubKey))%js.

End Util.

Module RLP.
Import JS.

Inductive item : Type :=
| Bytes (b : Buffer)
| List (items : list item).

Definition encodeLength (len : nat) (offset : Z) : Buffer :=
  if (len <? 56)%nat then [byte_of_Z (Z.of_nat len + offset)]
  else
    let lb := Util.int_bytes (Z.of_nat len) in
    byte_of_Z (offset + 55 + Z.of_nat (List.length lb)) :: lb.

Fixpoint encode (i : item) : Buffer :=
  match i with
  | Bytes b =>
      match b with
      | [x] => if byte_to_Z x <? 128 then [x] else encodeLength 1 128 ++ b
      | _ => encodeLength (List.length b) 128 ++ b
      end
  | List items =>
      let payload := flat_map encode items in
      encodeLength (List.length payload) 192 ++ payload
  end.

End RLP.

(** ** @ethereumjs/common *)

Module Common.

Inductive Hardfork : Type :=
| Chainstart | Homestead | Dao | TangerineWhistle | SpuriousDragon
| Byzantium | Constantinople | Petersburg | Istanbul | MuirGlacier
| Berlin | London | ArrowGlacier | GrayGlacier | MergeForkIdTransition
| Merge | Shanghai.

Definition rank (h : Hardfork) : nat :=
  match h with
  | Chainstart => 0 | Homestead => 1 | Dao => 2 | TangerineWhistle => 3
  | SpuriousDragon => 4 | Byzantium => 5 | Constantinople => 6
  | Petersburg => 7 | Istanbul => 8 | MuirGlacier => 9 | Berlin => 10
  | London => 11 | ArrowGlacier => 12 | GrayGlacier => 13
  | MergeForkIdTransition => 14 | Merge => 15 | Shanghai => 16
  end%nat.

(** [Chain.Mainnet] *)
Definition Mainnet : Z := 1.

Record t := { chainId : Z; hardfork : Hardfork }.

(** [new Common({ chain, hardfork })] *)
Definition new (chain : Z) (hf : Hardfork) : t :=
  {| chainId := chain; hardfork := hf |}.

Definition gteHardfork (c : t) (h : Hardfork) : bool :=
  (rank h <=? rank (hardfork c))%nat.

(** EIP-1559 is part of London. *)
Definition isActivatedEIP1559 (c : t) : bool := gteHardfork c London.

End Common.

(** ** @ethereumjs/tx *)

Module Tx.
Import JS Util.

(** A transaction payload: a plain object from field names to values. *)
Abbreviation TxData := (gmap string Value).

(** What an entry of the options object can hold. *)
Inductive OptValue : Type :=
| OCommon (c : Common.t)
| OBool (b : bool).

Abbreviation TxOptions := (gmap string OptValue).

(** [opts.common] *)
Definition opts_common (opts : TxOptions) : option Common.t :=
  match opts !! "common" with
  | Some (OCommon c) => Some c
  | _ => None
  end.

Definition DEFAULT_CHAIN : Z := Common.Mainnet.

(** [BaseTransaction.DEFAULT_HARDFORK]; the fee-market class has its
    own. *)
Definition DEFAULT_HARDFORK : Common.Hardfork := Common.Merge.

(** A JavaScript number that holds an integer, or Infinity. *)
Inductive number : Type :=
| Finite (x : Z)
| Infinity.

(** The double nearest to the integer [x]: exact below [2^53] in size,
    beyond that rounded to 53 significant bits, a tie going to the even
    one, and Infinity from [2^1024] on. *)
Definition to_double (x : Z) : number :=
  if Z.abs x <? 2 ^ 53 then Finite x
  else
    let e := Z.log2 (Z.abs x) - 52 in
    let q := Z.shiftr (Z.abs x) e in
    let rest := Z.abs x - Z.shiftl q e in
    let half := Z.shiftl 1 (e - 1) in
    let q' := if (half <? rest) || ((rest =? half) && Z.odd q) then q + 1 else q in
    let y := Z.shiftl q' e in
    if 2 ^ 1024 <=? y then Infinity else Finite (Z.sgn x * y).

(** [Number(x)] of a BigInt. *)
Definition Number (x : Z) : number := to_double x.

(** [a + k] and [a * 2] on numbers. *)
Definition num_add (a : number) (k : Z) : number :=
  match a with
  | Finite x => to_double (x + k)
  | Infinity => Infinity
  end.

Definition num_double (a : number) : number :=
  match a with
  | Finite x => to_double (2 * x)
  | Infinity => Infinity
  end.

(** [a === b] and [a < k] *)
Definition num_eqb (a b : number) : bool :=
  match a, b with
  | Finite x, Finite y => x =? y
  | Infinity, Infinity => true
  | _, _ => false
  end.

Definition num_ltb (a : number) (k : Z) : bool :=
  match a with
  | Finite x => x <? k
  | Infinity => false
  end.

Definition num_is (a : number) (k : Z) : bool := num_eqb a (Finite k).

Definition MAX_INTEGER : Z := 2 ^ 256 - 1.
Definition MAX_UINT64 : Z := 2 ^ 64 - 1.
Definition SECP256K1_ORDER_DIV_2 : Z := Secp256k1.n / 2.

(** The fields every transaction type shares, as the base constructor
    reads them out of the payload. *)
Record base := {
  nonce : Z;
  gasLimit : Z;
  to : option Address;
  value : Z;
  data : Buffer;
  v : option Z;
  r : option Z;
  s : option Z
}.

Definition opt_bigint (b : Buffer) : option Z :=
  match b with
  | [] => None
  | _ => Some (bufferToBigInt b)
  end.

Definition exceeds (x : option Z) (bound : Z) : bool :=
  match x with
  | Some n => bound <? n
  | None => false
  end.

(** [BaseTransaction]'s constructor. *)
Definition base_new (txData : TxData) : Result base :=
  (let* toB := field_buffer (txData !! "to") in
   let* vB := field_buffer (txData !! "v") in
   let* rB := field_buffer (txData !! "r") in
   let* sB := field_buffer (txData !! "s") in
   let* nonce_ := field_bigint (txData !! "nonce") in
   let* gasLimit_ := field_bigint (txData !! "gasLimit") in
   let* to_ := match toB with
               | [] => Ok None
               | _ => let* a := Address_new toB in Ok (Some a)
               end in
   let* value_ := field_bigint (txData !! "value") in
   let* data_ := field_buffer (txData !! "data") in
   if (MAX_INTEGER <? value_) || exceeds (opt_bigint rB) MAX_INTEGER
      || exceeds (opt_bigint sB) MAX_INTEGER
   then Throw "value cannot exceed MAX_INTEGER (2^256-1)"
   else if MAX_UINT64 <? gasLimit_
   then Throw "gasLimit cannot exceed MAX_UINT64 (2^64-1)"
   else if MAX_UINT64 <=? nonce_
   then Throw "nonce cannot equal or exceed MAX_UINT64 (2^64-1)"
   else Ok {| nonce := nonce_; gasLimit := gasLimit_; to := to_;
              value := value_; data := data_;
              v := opt_bigint vB; r := opt_bigint rB; s := opt_bigint sB |})%js.

Definition isSigned (b : base) : bool :=
  match v b, r b, s b with
  | Some _, Some _, Some _ => true
  | _, _, _ => false
  end.

(** [_getCommon(common, chainId)], with the [DEFAULT_HARDFORK] of the
    class. *)
Definition getCommon (default : Common.Hardfork)
  (common : option Common.t) (chainId : option Z) : Result Common.t :=
  match chainId, common with
  | Some c, Some cm =>
      if Common.chainId cm =? c then Ok cm
      else Throw "The chain ID does not match the chain ID of Common"
  | Some c, None => Ok (Common.new c default)
  | None, Some cm => Ok cm
  | None, None => Ok (Common.new DEFAULT_CHAIN default)
  end.

Definition to_bytes (a : option Address) : Buffer :=
  match a with
  | Some x => buf x
  | None => []
  end.

Definition opt_field (key : string) (x : option Z) (m : TxData) : TxData :=
  match x with
  | Some n => <[key := VBigInt n]> m
  | None => m
  end.

Definition to_field (a : option Address) (m : TxData) : TxData :=
  match a with
  | Some x => <["to" := VBuffer (buf x)]> m
  | None => m
  end.

(** [_validateHighS] *)
Definition validateHighS (common : Common.t) (s_ : option Z) : Result unit :=
  if Common.gteHardfork common Common.Homestead && exceeds s_ SECP256K1_ORDER_DIV_2
  then Throw "Invalid Signature: s-values greater than secp256k1n/2 are considered invalid"
  else Ok tt.

(** *** Legacy transactions: [class Transaction] *)
Module Legacy.

Record t := {
  fields : base;
  gasPrice : Z;
  common : Common.t;
  (** [activeCapabilities] holds [EIP155ReplayProtection] *)
  eip155 : bool
}.

(** [meetsEIP155(_v, chainId)]: both are converted to numbers. *)
Definition meetsEIP155 (v_ chainId : Z) : bool :=
  let v := Number v_ in
  let chainIdDoubled := num_double (Number chainId) in
  num_eqb v (num_add chainIdDoubled 35) || num_eqb v (num_add chainIdDoubled 36).

(** [_validateTxV(_v, common)]. The checks are made on [Number(_v)]; an
    infinite number cannot be turned back into a BigInt. *)
Definition validateTxV (v_ : option Z) (common : option Common.t) : Result Common.t :=
  match v_ with
  | Some bv =>
      let v := Number bv in
      if num_ltb v 37 && negb (num_is v 27) && negb (num_is v 28)
      then Throw "Legacy txs need either v = 27/28 or v >= 37 (EIP-155 replay protection)"
      else
        let eip155_era :=
          match common with
          | Some cm => Common.gteHardfork cm Common.SpuriousDragon
          | None => true
          end in
        if negb (num_is v 0) && eip155_era && negb (num_is v 27) && negb (num_is v 28)
        then
          match common with
          | Some cm =>
              match v with
              | Finite x =>
                  if meetsEIP155 x (Common.chainId cm)
                  then getCommon DEFAULT_HARDFORK common None
                  else Throw "Incompatible EIP155-based V and chain id"
              | Infinity =>
                  Throw "The number Infinity cannot be converted to a BigInt because it is not an integer"
              end
          | None =>
              let numSub :=
                match num_add v (- 35) with
                | Finite d => if d mod 2 =? 0 then 35 else 36
                | Infinity => 36
                end in
              match num_add v (- numSub) with
              | Finite d => getCommon DEFAULT_HARDFORK common (Some (Z.quot d 2))
              | Infinity =>
                  Throw "The number Infinity cannot be converted to a BigInt because it is not an integer"
              end
          end
        else getCommon DEFAULT_HARDFORK common None
  | None => getCommon DEFAULT_HARDFORK common None
  end.

(** [Transaction.fromTxData(txData, opts)] *)
Definition fromTxData (txData : TxData) (opts : TxOptions) : Result t :=
  (let* b := base_new (<["type" := VNumber 0]> txData) in
   let* cm := validateTxV (v b) (opts_common opts) in
   let* gasPrice_ := field_bigint (txData !! "gasPrice") in
   if MAX_INTEGER <? gasPrice_ * gasLimit b
   then Throw "gas limit * gasPrice cannot exceed MAX_INTEGER (2^256-1)"
   else if MAX_INTEGER <? gasPrice_
   then Throw "gasPrice cannot exceed MAX_INTEGER (2^256-1)"
   else
     Ok {| fields := b; gasPrice := gasPrice_; common := cm;
           eip155 :=
             if Common.gteHardfork cm Common.SpuriousDragon
             then if isSigned b
                  then match v b with
                       | Some x => meetsEIP155 x (Common.chainId cm)
                       | None => false
                       end
                  else true
             else false |})%js.

(** [getMessageToSign(true)], with [replay] telling whether the chain
    id is part of the message. *)
Definition getMessageToSign (tx : t) (replay : bool) : Buffer :=
  let b := fields tx in
  let values :=
    [bigIntToUnpaddedBuffer (nonce b); bigIntToUnpaddedBuffer (gasPrice tx);
     bigIntToUnpaddedBuffer (gasLimit b); to_bytes (to b);
     bigIntToUnpaddedBuffer (value b); data b]
    ++ (if replay
        then [int_bytes (Common.chainId (common tx)); unpadBuffer (int_bytes 0);
              unpadBuffer (int_bytes 0)]
        else []) in
  keccak256 (RLP.encode (RLP.List (map RLP.Bytes values))).

(** Modelled from the spec: [_processSignature(v, r, s)] belongs to
    @ethereumjs/tx and is reached through [tx.sign]; [main.js] holds only the
    call. The recovery identifier is computed from the signature's recovery
    bit, chain-id adjusted for the legacy kind ([recoveryBit + chainId * 2 +
    35]). The signer hands over [recoveryBit + 27], to which [chainId * 2 +
    8] is added here. *)
Definition processSignature (tx : t) (replay : bool) (v_ : Z) (r_ s_ : Buffer) : Result t :=
  let b := fields tx in
  let v' := if replay then v_ + (Common.chainId (common tx) * 2 + 8) else v_ in
  let txData : TxData :=
    to_field (to b)
      (<["nonce" := VBigInt (nonce b)]>
       (<["gasPrice" := VBigInt (gasPrice tx)]>
        (<["gasLimit" := VBigInt (gasLimit b)]>
         (<["value" := VBigInt (value b)]>
          (<["data" := VBuffer (data b)]>
           (<["v" := VBigInt v']>
            (<["r" := VBigInt (bufferToBigInt r_)]>
             (<["s" := VBigInt (bufferToBigInt s_)]> ∅)))))))) in
  fromTxData txData (<["common" := OCommon (common tx)]> ∅).

(** [tx.sign(privateKey)]. After Spurious Dragon the chain id is always
    signed over, whatever the capabilities say. *)
Definition sign (tx : t) (privateKey : Buffer) : Result t :=
  if negb (List.length privateKey =? 32)%nat
  then Throw "Private key must be 32 bytes in length."
  else
    let replay := eip155 tx || Common.gteHardfork (common tx) Common.SpuriousDragon in
    let msgHash := getMessageToSign tx replay in
    (let* sg := ecsign msgHash privateKey in
     let '(v_, r_, s_) := sg in
     processSignature tx replay v_ r_ s_)%js.

(** [tx.getSenderPublicKey()] *)
Definition getSenderPublicKey (tx : t) : Result Buffer :=
  let b := fields tx in
  match v b, r b, s b with
  | Some v_, Some r_, Some s_ =>
      let msgHash := getMessageToSign tx (eip155 tx) in
      (let* _ := validateHighS (common tx) (s b) in
       match ecrecover msgHash v_ (bigIntToUnpaddedBuffer r_)
               (bigIntToUnpaddedBuffer s_)
               (if eip155 tx then Some (Common.chainId (common tx)) else None) with
       | Ok pk => Ok pk
       | Throw _ => Throw "Invalid Signature"
       end)%js
  | _, _, _ => Throw "This transaction is not signed"
  end.

End Legacy.

(** *** Fee-market transactions: [class FeeMarketEIP1559Transaction] *)
Module FeeMarket.

Record t := {
  fields : base;
  chainId : Z;
  maxPriorityFeePerGas : Z;
  maxFeePerGas : Z;
  accessList : list (Buffer * list Buffer);
  common : Common.t
}.

Definition TRANSACTION_TYPE : byte := x02.

(** The class overrides [DEFAULT_HARDFORK]. *)
Definition DEFAULT_HARDFORK : Common.Hardfork := Common.London.

(** [AccessLists.getAccessListData(accessList ?? [])] *)
Definition getAccessListData (x : option Value) : Result (list (Buffer * list Buffer)) :=
  match x with
  | None => Ok []
  | Some (VAccessList items) => Ok items
  | Some _ => Throw "Invalid access list"
  end.

(** [AccessLists.verifyAccessList] *)
Definition verifyAccessList (items : list (Buffer * list Buffer)) : Result unit :=
  if forallb (fun it => (List.length (fst it) =? 20)%nat) items
  then if forallb (fun it => forallb (fun k => (List.length k =? 32)%nat) (snd it)) items
       then Ok tt
       else Throw "Invalid EIP-2930 transaction: storage slot length should be 32 bytes"
  else Throw "Invalid EIP-2930 transaction: address length should be 20 bytes".

(** [FeeMarketEIP1559Transaction.fromTxData(txData, opts)] *)
Definition fromTxData (txData : TxData) (opts : TxOptions) : Result t :=
  (let* b := base_new (<["type" := VNumber 2]> txData) in
   let* chainIdOpt := match txData !! "chainId" with
                      | None => Ok None
                      | Some c => let* cb := toBuffer (Some c) in
                                  Ok (Some (bufferToBigInt cb))
                      end in
   let* cm := getCommon DEFAULT_HARDFORK (opts_common opts) chainIdOpt in
   if negb (Common.isActivatedEIP1559 cm)
   then Throw "EIP-1559 not enabled on Common"
   else
     let* al := getAccessListData (txData !! "accessList") in
     let* _ := verifyAccessList al in
     let* maxFee := field_bigint (txData !! "maxFeePerGas") in
     let* maxPrio := field_bigint (txData !! "maxPriorityFeePerGas") in
     if (MAX_INTEGER <? maxFee) || (MAX_INTEGER <? maxPrio)
     then Throw "maxFeePerGas cannot exceed MAX_INTEGER (2^256-1)"
     else if MAX_INTEGER <? gasLimit b * maxFee
     then Throw "gasLimit * maxFeePerGas cannot exceed MAX_INTEGER (2^256-1)"
     else if maxFee <? maxPrio
     then Throw "maxFeePerGas cannot be less than maxPriorityFeePerGas"
     else
       match v b with
       | Some x =>
           if negb (x =? 0) && negb (x =? 1)
           then Throw "The y-parity of the transaction should either be 0 or 1"
           else let* _ := validateHighS cm (s b) in
                Ok {| fields := b; chainId := Common.chainId cm;
                      maxPriorityFeePerGas := maxPrio; maxFeePerGas := maxFee;
                      accessList := al; common := cm |}
       | None =>
           let* _ := validateHighS cm (s b) in
           Ok {| fields := b; chainId := Common.chainId cm;
                 maxPriorityFeePerGas := maxPrio; maxFeePerGas := maxFee;
                 accessList := al; common := cm |}
       end)%js.

Definition accessList_item (it : Buffer * list Buffer) : RLP.item :=
  RLP.List [RLP.Bytes (fst it); RLP.List (map RLP.Bytes (snd it))].

(** [getMessageToSign(true)]: the type octet followed by the encoding
    of the first nine raw fields, hashed. *)
Definition getMessageToSign (tx : t) : Buffer :=
  let b := fields tx in
  let base :=
    map RLP.Bytes
      [bigIntToUnpaddedBuffer (chainId tx); bigIntToUnpaddedBuffer (nonce b);
       bigIntToUnpaddedBuffer (maxPriorityFeePerGas tx);
       bigIntToUnpaddedBuffer (maxFeePerGas tx);
       bigIntToUnpaddedBuffer (gasLimit b); to_bytes (to b);
       bigIntToUnpaddedBuffer (value b); data b]
    ++ [RLP.List (map accessList_item (accessList tx))] in
  keccak256 (TRANSACTION_TYPE :: RLP.encode (RLP.List base)).

(** Modelled from the spec: [_processSignature(v, r, s)] of the fee-market
    class, reached through [tx.sign]. The recovery identifier is the
    recovery bit itself, 0 or 1: the 27 the signer added is taken off. *)
Definition processSignature (tx : t) (v_ : Z) (r_ s_ : Buffer) : Result t :=
  let b := fields tx in
  let txData : TxData :=
    to_field (to b)
      (<["chainId" := VBigInt (chainId tx)]>
       (<["nonce" := VBigInt (nonce b)]>
        (<["maxPriorityFeePerGas" := VBigInt (maxPriorityFeePerGas tx)]>
         (<["maxFeePerGas" := VBigInt (maxFeePerGas tx)]>
          (<["gasLimit" := VBigInt (gasLimit b)]>
           (<["value" := VBigInt (value b)]>
            (<["data" := VBuffer (data b)]>
             (<["accessList" := VAccessList (accessList tx)]>
              (<["v" := VBigInt (v_ - 27)]>
               (<["r" := VBigInt (bufferToBigInt r_)]>
                (<["s" := VBigInt (bufferToBigInt s_)]> ∅))))))))))) in
  fromTxData txData (<["common" := OCommon (common tx)]> ∅).

(** [tx.sign(privateKey)] *)
Definition sign (tx : t) (privateKey : Buffer) : Result t :=
  if negb (List.length privateKey =? 32)%nat
  then Throw "Private key must be 32 bytes in length."
  else
    (let* sg := ecsign (getMessageToSign tx) privateKey in
     let '(v_, r_, s_) := sg in
     processSignature tx v_ r_ s_)%js.

(** [tx.getSenderPublicKey()] *)
Definition getSenderPublicKey (tx : t) : Result Buffer :=
  let b := fields tx in
  match v b, r b, s b with
  | Some v_, Some r_, Some s_ =>
      (let* _ := validateHighS (common tx) (s b) in
       match ecrecover (getMessageToSign tx) (v_ + 27)
               (bigIntToUnpaddedBuffer r_) (bigIntToUnpaddedBuffer s_) None with
       | Ok pk => Ok pk
       | Throw _ => Throw "Invalid Signature"
       end)%js
  | _, _, _ => Throw "This transaction is not signed"
  end.

End FeeMarket.

(** A transaction object of either class. *)
Inductive Object : Type :=
| LegacyTx (tx : Legacy.t)
| FeeMarketTx (tx : FeeMarket.t).

Definition getSenderPublicKey (o : Object) : Result Buffer :=
  match o with
  | LegacyTx tx => Legacy.getSenderPublicKey tx
  | FeeMarketTx tx => FeeMarket.getSenderPublicKey tx
  end.

(** [tx.getSenderAddress()], the method both classes inherit. *)
Definition getSenderAddress (o : Object) : Result Address :=
  (let* pk := getSenderPublicKey o in
   let* a := publicToAddress pk in
   Address_new a)%js.

Definition fields_of (o : Object) : base :=
  match o with
  | LegacyTx tx => Legacy.fields tx
  | FeeMarketTx tx => FeeMarket.fields tx
  end.

End Tx.

Import JS.

(** ** The functions of [main.js] *)

(** [function generateMnemonic()]; the English word list that bip39 ships
    is a parameter here. *)
Definition generateMnemonic (wordlist : list string) : M string :=
  BIP39.generateMnemonic wordlist.

(** [function generateSeed(mnemonic)] *)
Definition generateSeed (mnemonic : string) : M Buffer :=
  ret (BIP39.mnemonicToSeed mnemonic None).

(** [function generatePrivKey(mnemonic)] *)
Definition generatePrivKey (mnemonic : string) : M Buffer :=
  (do seed <- generateSeed mnemonic;
   pure_call
     (let* master := Wallet.hd_fromMasterSeed seed in
      let* child := Wallet.hd_derivePath master "m/44'/60'/0'/0/0" in
      let* wallet := Wallet.hd_getWallet child in
      Ok (Wallet.getPrivateKey wallet)))%js.

(** [function derivePubKey(privKey)] *)
Definition derivePubKey (privKey : Buffer) : M Buffer :=
  pure_call
    (let* wallet := Wallet.fromPrivateKey privKey in
     Ok (Wallet.getPublicKey wallet))%js.

(** [function deriveEthAddress(pubKey)] *)
Definition deriveEthAddress (pubKey : Buffer) : M string :=
  let address := Keccak.keccak256 pubKey in
  ret ("0x" ++ JS.substring address
                 (Z.of_nat (String.length address) - 40)
                 (Z.of_nat (String.length address)))%string.

(** [function signLegacyTx(privKey, txData)] *)
Definition signLegacyTx (privKey : Buffer) (txData : Tx.TxData) : M Tx.Object :=
  let txParams := Common.new Common.Mainnet Common.Istanbul in
  pure_call
    (let* tx := Tx.Legacy.fromTxData txData (<["txParams" := Tx.OCommon txParams]> ∅) in
     let* signed := Tx.Legacy.sign tx privKey in
     Ok (Tx.LegacyTx signed))%js.

(** [function signEIP1559Tx(privKey, txData)] *)
Definition signEIP1559Tx (privKey : Buffer) (txData : Tx.TxData) : M Tx.Object :=
  let txOptions := Common.new Common.Mainnet Common.London in
  pure_call
    (let* tx := Tx.FeeMarket.fromTxData txData (<["txOptions" := Tx.OCommon txOptions]> ∅) in
     let* signed := Tx.FeeMarket.sign tx privKey in
     Ok (Tx.FeeMarketTx signed))%js.

(** [function getSignerAddress(signedTx)] *)
Definition getSignerAddress (signedTx : Tx.Object) : M string :=
  pure_call
    (let* sender := Tx.getSenderAddress signedTx in
     Ok ("0x" ++ Util.Address_toString sender)%string)%js.

(** ** The sample payloads of [main.js] and reference inputs *)

(** [sampleLegacyTransaction] of the page's data. *)
Definition sampleLegacyTransaction : Tx.TxData :=
  <["nonce" := Util.VString "0x00"]>
  (<["gasPrice" := Util.VString "0x09184e72a000"]>
  (<["gasLimit" := Util.VString "0x2710"]>
  (<["to" := Util.VString "0x31c1c0fec59ceb9cbe6ec474c31c1dc5b66555b6"]>
  (<["value" := Util.VString "0x10"]>
  (<["data" := Util.VString
       "0x7f7465737432000000000000000000000000000000000000000000000000000000600057"]>
  (<["chainId" := Util.VNumber 3]> ∅)))))).

(** [sampleEIP1559Transaction] of the page's data. *)
Definition sampleEIP1559Transaction : Tx.TxData :=
  <["nonce" := Util.VString "0x00"]>
  (<["type" := Util.VNumber 2]>
  (<["maxPriorityFeePerGas" := Util.VString "0x09184e72a000"]>
  (<["maxFeePerGas" := Util.VString "0x09184e72a000"]>
  (<["gasLimit" := Util.VString "0x2710"]>
  (<["to" := Util.VString "0x31c1c0fec59ceb9cbe6ec474c31c1dc5b66555b6"]>
  (<["value" := Util.VString "0x10"]>
  (<["data" := Util.VString
       "0x7f7465737432000000000000000000000000000000000000000000000000000000600057"]>
  (<["chainId" := Util.VNumber 3]> ∅)))))))).

(** The legacy sample with its [gasPrice] removed: it names none of
    [gasPrice], [maxFeePerGas] and [maxPriorityFeePerGas]. *)
Definition payload_without_fees : Tx.TxData := delete "gasPrice" sampleLegacyTransaction.

(** The signing example of EIP-155: nonce 9, 20 gwei, 21000 gas, one ether
    to [0x3535...35], signed by the key [0x4646...46]. *)
Definition eip155_example : Tx.TxData :=
  <["nonce" := Util.VString "0x09"]>
  (<["gasPrice" := Util.VString "0x04a817c800"]>
  (<["gasLimit" := Util.VString "0x5208"]>
  (<["to" := Util.VString "0x3535353535353535353535353535353535353535"]>
  (<["value" := Util.VString "0x0de0b6b3a7640000"]>
  (<["data" := Util.VString "0x"]> ∅))))).

Definition example_key : Buffer := repeat x46 32.

Definition example_pubKey : Buffer :=
  Util.Buffer_from_hex
    "4bc2a31265153f07e70e0bab08724e6b85e217f8cd628ceb62974247bb493382ce28cab79ad7119ee1ad3ebcdb98a16805211530ecc6cfefa1b88e6dff99232a".

(** A well-known development mnemonic. *)
Definition example_mnemonic : string :=
  "test test test test test test test test test test test junk".

Definition example_seed : Buffer :=
  Util.Buffer_from_hex
    "9dfc3c64c2f8bede1533b6a79f8570e5943e0b8fd1cf77107adf7b72cef42185d564a3aee24cab43f80e3c4538087d70fc824eabbad596a23c97b6ee8322ccc0".

(** A world with no random octets left. *)
Definition quiet : World := {| entropy := [] |}.

(** What a call returned, if it returned. *)
Definition returned {A} (r : Result A * World) : option A :=
  match fst r with
  | Ok a => Some a
  | Throw _ => None
  end.

(** The signature triple [(v, r, s)] of a transaction object. *)
Definition signature_of (o : Tx.Object) : option Z * option Z * option Z :=
  let b := Tx.fields_of o in (Tx.v b, Tx.r b, Tx.s b).

(** The hash that is signed for a payload: the one of the transaction
    that the constructor of its kind builds. *)
Definition signed_hash (txData : Tx.TxData) (msgHash : Buffer) : Prop :=
  (exists tx,
     Tx.Legacy.fromTxData txData
       (<["txParams" := Tx.OCommon (Common.new Common.Mainnet Common.Istanbul)]> ∅) = Ok tx
     /\ msgHash = Tx.Legacy.getMessageToSign tx true)
  \/ (exists tx,
        Tx.FeeMarket.fromTxData txData
          (<["txOptions" := Tx.OCommon (Common.new Common.Mainnet Common.London)]> ∅) = Ok tx
        /\ msgHash = Tx.FeeMarket.getMessageToSign tx).

(** The library calls of [generatePrivKey], with the path left open. *)
Definition derive_private_key (seed : Buffer) (path : string) : Result Buffer :=
  (let* master := Wallet.hd_fromMasterSeed seed in
   let* child := Wallet.hd_derivePath master path in
   let* wallet := Wallet.hd_getWallet child in
   Ok (Wallet.getPrivateKey wallet))%js.

(** What makes a candidate mnemonic malformed: a word outside the list, a
    number of words other than 12, 15, 18, 21 or 24, or trailing checksum
    bits that differ from the recomputed ones. *)
Definition malformed (wordlist : list string) (candidate : string) : Prop :=
  let words := BIP39.split_space (BIP39.nfkd candidate) EmptyString in
  (exists w, In w words /\ ~ In w wordlist)
  \/ ~ In (List.length words) [12; 15; 18; 21; 24]%nat
  \/ (exists bits,
        BIP39.words_bits wordlist words = Some bits
        /\ let divider := (List.length bits / 33 * 32)%nat in
           let entropy := map BIP39.binaryToByte
                            (BIP39.chunk8 (List.length (firstn divider bits))
                               (firstn divider bits)) in
           BIP39.deriveChecksumBits entropy <> skipn divider bits).

(** ** Word lists *)

Definition no_space (word : string) : bool :=
  all_chars (fun c => negb (Ascii.eqb c " ")) word.

(** What bip39 relies on in a word list: 2048 different words, none with
    a space inside. *)
Definition proper_wordlist (wordlist : list string) : Prop :=
  List.length wordlist = 2048%nat
  /\ NoDup wordlist
  /\ Forall (fun word => no_space word = true) wordlist.

(** A stand-in for the English list: the word of index [i] is the
    letter a, [i] times. *)
Definition letters (i : nat) : string := string_of_list_ascii (repeat "a"%char i).

Definition stand_in_wordlist : list string := map letters (seq 0 2048).

(** ** [bigIntToHex] of @ethereumjs/util, behind the page's [getHex] *)

Module Hex.

(** The hexadecimal digits of a non-negative [n], most significant first,
    in front of [acc]; at least one digit. *)
Fixpoint digits (fuel : nat) (n : Z) (acc : string) : string :=
  match fuel with
  | O => acc
  | S fuel' =>
      let acc' := String (hex_digit n) acc in
      if n <? 16 then acc' else digits fuel' (n / 16) acc'
  end.

(** [n.toString(16)] of a BigInt: a minus sign in front of the digits of
    a negative number. *)
Definition toString16 (n : Z) : string :=
  if n <? 0
  then String "-" (digits (S (Z.to_nat (Z.log2 (- n)))) (- n) EmptyString)
  else digits (S (Z.to_nat (Z.log2 n))) n EmptyString.

(** [bigIntToHex(num)]: ['0x' + num.toString(16)] *)
Definition bigIntToHex (num : Z) : string := ("0x" ++ toString16 num)%string.

(** The number a string of hexadecimal digits spells, continuing from
    [acc]. *)
Fixpoint value (s : string) (acc : Z) : Z :=
  match s with
  | EmptyString => acc
  | String c rest => value rest (16 * acc + Util.hex_value c)
  end.

End Hex.

(** ** The page: the Vue instance of [main.js] *)

Module Page.

(** The two payloads the page starts with. *)
Definition legacy_sample : Tx.TxData := sampleLegacyTransaction.
Definition eip1559_sample : Tx.TxData := sampleEIP1559Transaction.

(** [privKey] and [pubKey] hold the empty string until a watcher stores
    a Buffer. *)
Inductive Key : Type :=
| Blank
| Octets (b : Buffer).

(** What a callee that reads [.length] and the octets finds: the empty
    string has length 0, like a Buffer without octets. *)
Definition octets (k : Key) : Buffer :=
  match k with
  | Blank => []
  | Octets b => b
  end.

(** The [data] of the instance. [signedLegacySample] and
    [signedEIP1559Sample] start as the empty object, [None] here.
    [recoveredAddress] is not declared in [data]: the [pubKey] watcher
    creates it on the instance. *)
Record Data := {
  mnemonic : string;
  privKey : Key;
  pubKey : Key;
  ETHaddress : string;
  sampleLegacyTransaction : Tx.TxData;
  sampleEIP1559Transaction : Tx.TxData;
  signedLegacySample : option Tx.Object;
  signedEIP1559Sample : option Tx.Object;
  recoveredLegacyAddress : string;
  recoveredEIP1559Address : string;
  recoveredAddress : option string
}.

Definition data : Data :=
  {| mnemonic := EmptyString;
     privKey := Blank;
     pubKey := Blank;
     ETHaddress := EmptyString;
     sampleLegacyTransaction := legacy_sample;
     sampleEIP1559Transaction := eip1559_sample;
     signedLegacySample := None;
     signedEIP1559Sample := None;
     recoveredLegacyAddress := EmptyString;
     recoveredEIP1559Address := EmptyString;
     recoveredAddress := None |}.

(** Assignments [this.field = x]. *)
Definition set_mnemonic (x : string) (d : Data) : Data :=
  {| mnemonic := x; privKey := privKey d; pubKey := pubKey d;
     ETHaddress := ETHaddress d;
     sampleLegacyTransaction := sampleLegacyTransaction d;
     sampleEIP1559Transaction := sampleEIP1559Transaction d;
     signedLegacySample := signedLegacySample d;
     signedEIP1559Sample := signedEIP1559Sample d;
     recoveredLegacyAddress := recoveredLegacyAddress d;
     recoveredEIP1559Address := recoveredEIP1559Address d;
     recoveredAddress := recoveredAddress d |}.

Definition set_privKey (x : Key) (d : Data) : Data :=
  {| mnemonic := mnemonic d; privKey := x; pubKey := pubKey d;
     ETHaddress := ETHaddress d;
     sampleLegacyTransaction := sampleLegacyTransaction d;
     sampleEIP1559Transaction := sampleEIP1559Transaction d;
     signedLegacySample := signedLegacySample d;
     signedEIP1559Sample := signedEIP1559Sample d;
     recoveredLegacyAddress := recoveredLegacyAddress d;
     recoveredEIP1559Address := recoveredEIP1559Address d;
     recoveredAddress := recoveredAddress d |}.

Definition set_pubKey (x : Key) (d : Data) : Data :=
  {| mnemonic := mnemonic d; privKey := privKey d; pubKey := x;
     ETHaddress := ETHaddress d;
     sampleLegacyTransaction := sampleLegacyTransaction d;
     sampleEIP1559Transaction := sampleEIP1559Transaction d;
     signedLegacySample := signedLegacySample d;
     signedEIP1559Sample := signedEIP1559Sample d;
     recoveredLegacyAddress := recoveredLegacyAddress d;
     recoveredEIP1559Address := recoveredEIP1559Address d;
     recoveredAddress := recoveredAddress d |}.

Definition set_ETHaddress (x : string) (d : Data) : Data :=
  {| mnemonic := mnemonic d; privKey := privKey d; pubKey := pubKey d;
     ETHaddress := x;
     sampleLegacyTransaction := sampleLegacyTransaction d;
     sampleEIP1559Transaction := sampleEIP1559Transaction d;
     signedLegacySample := signedLegacySample d;
     signedEIP1559Sample := signedEIP1559Sample d;
     recoveredLegacyAddress := recoveredLegacyAddress d;
     recoveredEIP1559Address := recoveredEIP1559Address d;
     recoveredAddress := recoveredAddress d |}.

Definition set_signedLegacySample (x : Tx.Object) (d : Data) : Data :=
  {| mnemonic := mnemonic d; privKey := privKey d; pubKey := pubKey d;
     ETHaddress := ETHaddress d;
     sampleLegacyTransaction := sampleLegacyTransaction d;
     sampleEIP1559Transaction := sampleEIP1559Transaction d;
     signedLegacySample := Some x;
     signedEIP1559Sample := signedEIP1559Sample d;
     recoveredLegacyAddress := recoveredLegacyAddress d;
     recoveredEIP1559Address := recoveredEIP1559Address d;
     recoveredAddress := recoveredAddress d |}.

Definition set_signedEIP1559Sample (x : Tx.Object) (d : Data) : Data :=
  {| mnemonic := mnemonic d; privKey := privKey d; pubKey := pubKey d;
     ETHaddress := ETHaddress d;
     sampleLegacyTransaction := sampleLegacyTransaction d;
     sampleEIP1559Transaction := sampleEIP1559Transaction d;
     signedLegacySample := signedLegacySample d;
     signedEIP1559Sample := Some x;
     recoveredLegacyAddress := recoveredLegacyAddress d;
     recoveredEIP1559Address := recoveredEIP1559Address d;
     recoveredAddress := recoveredAddress d |}.

Definition set_recoveredLegacyAddress (x : string) (d : Data) : Data :=
  {| mnemonic := mnemonic d; privKey := privKey d; pubKey := pubKey d;
     ETHaddress := ETHaddress d;
     sampleLegacyTransaction := sampleLegacyTransaction d;
     sampleEIP1559Transaction := sampleEIP1559Transaction d;
     signedLegacySample := signedLegacySample d;
     signedEIP1559Sample := signedEIP1559Sample d;
     recoveredLegacyAddress := x;
     recoveredEIP1559Address := recoveredEIP1559Address d;
     recoveredAddress := recoveredAddress d |}.

Definition set_recoveredEIP1559Address (x : string) (d : Data) : Data :=
  {| mnemonic := mnemonic d; privKey := privKey d; pubKey := pubKey d;
     ETHaddress := ETHaddress d;
     sampleLegacyTransaction := sampleLegacyTransaction d;
     sampleEIP1559Transaction := sampleEIP1559Transaction d;
     signedLegacySample := signedLegacySample d;
     signedEIP1559Sample := signedEIP1559Sample d;
     recoveredLegacyAddress := recoveredLegacyAddress d;
     recoveredEIP1559Address := x;
     recoveredAddress := recoveredAddress d |}.

Definition set_recoveredAddress (x : string) (d : Data) : Data :=
  {| mnemonic := mnemonic d; privKey := privKey d; pubKey := pubKey d;
     ETHaddress := ETHaddress d;
     sampleLegacyTransaction := sampleLegacyTransaction d;
     sampleEIP1559Transaction := sampleEIP1559Transaction d;
     signedLegacySample := signedLegacySample d;
     signedEIP1559Sample := signedEIP1559Sample d;
     recoveredLegacyAddress := recoveredLegacyAddress d;
     recoveredEIP1559Address := recoveredEIP1559Address d;
     recoveredAddress := Some x |}.

(** Vue runs the handlers it dispatches itself, a watcher or the
    handler of an event of the page, under its error handler: an error is
    reported on the console and the instance goes on with the data it had,
    [d]. Every handler below throws, if at all, in the call on the right of
    its first assignment. *)
Definition reported (d : Data) (handler : M Data) : M Data :=
  fun w =>
    match handler w with
    | (Ok d', w') => (Ok d', w')
    | (Throw _, w') => (Ok d, w')
    end.

(** A watcher runs once its field has been assigned a value that is not
    identical to the old one. The Buffers and transaction objects assigned
    below are fresh objects, identical to no older value; only [mnemonic]
    holds a string. Each watcher ends with the assignment that triggers
    the next, so running the next watcher at that assignment reaches the
    same data as Vue's queue. *)

(** [pubKey: function (val) { this.ETHaddress = deriveEthAddress(val);
    this.recoveredAddress = (the empty string) }] *)
Definition watch_pubKey (val : Buffer) (d : Data) : M Data :=
  (do address <- deriveEthAddress val;
   ret (set_recoveredAddress EmptyString (set_ETHaddress address d)))%js.

Definition assign_pubKey (val : Buffer) (d : Data) : M Data :=
  let d1 := set_pubKey (Octets val) d in
  reported d1 (watch_pubKey val d1).

(** [privKey: function (val) { this.pubKey = derivePubKey(val) }] *)
Definition watch_privKey (val : Buffer) (d : Data) : M Data :=
  (do pub <- derivePubKey val;
   assign_pubKey pub d)%js.

Definition assign_privKey (val : Buffer) (d : Data) : M Data :=
  let d1 := set_privKey (Octets val) d in
  reported d1 (watch_privKey val d1).

(** [mnemonic: function (val) { this.privKey = generatePrivKey(val) }] *)
Definition watch_mnemonic (val : string) (d : Data) : M Data :=
  (do key <- generatePrivKey val;
   assign_privKey key d)%js.

Definition assign_mnemonic (val : string) (d : Data) : M Data :=
  if String.eqb val (mnemonic d) then ret d
  else
    let d1 := set_mnemonic val d in
    reported d1 (watch_mnemonic val d1).

(** [signedLegacySample: function (val) { this.recoveredLegacyAddress =
    getSignerAddress(val) }] *)
Definition watch_signedLegacySample (val : Tx.Object) (d : Data) : M Data :=
  (do address <- getSignerAddress val;
   ret (set_recoveredLegacyAddress address d))%js.

Definition assign_signedLegacySample (val : Tx.Object) (d : Data) : M Data :=
  let d1 := set_signedLegacySample val d in
  reported d1 (watch_signedLegacySample val d1).

(** [signedEIP1559Sample: function (val) { this.recoveredEIP1559Address
    = getSignerAddress(val) }] *)
Definition watch_signedEIP1559Sample (val : Tx.Object) (d : Data) : M Data :=
  (do address <- getSignerAddress val;
   ret (set_recoveredEIP1559Address address d))%js.

Definition assign_signedEIP1559Sample (val : Tx.Object) (d : Data) : M Data :=
  let d1 := set_signedEIP1559Sample val d in
  reported d1 (watch_signedEIP1559Sample val d1).

(** The [methods] of the instance, as a direct caller finds them: an
    error of the call on the right is thrown to the caller before anything
    is assigned. The watchers of an assigned field are run by Vue
    afterwards, under its error handler. *)

(** [getHex: function (val) { return bigIntToHex(val) }] *)
Definition getHex (val : Z) : string := Hex.bigIntToHex val.

(** [generateNew: function () { this.mnemonic = generateMnemonic() }] *)
Definition generateNew (wordlist : list string) (d : Data) : M Data :=
  (do m <- generateMnemonic wordlist;
   assign_mnemonic m d)%js.

(** [signSampleLegacyTx: function () { this.signedLegacySample =
    signLegacyTx(this.privKey, this.sampleLegacyTransaction) }] *)
Definition signSampleLegacyTx (d : Data) : M Data :=
  (do signed <- signLegacyTx (octets (privKey d)) (sampleLegacyTransaction d);
   assign_signedLegacySample signed d)%js.

(** [signSampleEIP1559Tx: function () { this.signedEIP1559Sample =
    signEIP1559Tx(this.privKey, this.sampleEIP1559Transaction) }] *)
Definition signSampleEIP1559Tx (d : Data) : M Data :=
  (do signed <- signEIP1559Tx (octets (privKey d)) (sampleEIP1559Transaction d);
   assign_signedEIP1559Sample signed d)%js.

(** What happens to the page: Vue dispatches a method as the handler of
    an event, or [mnemonic] is assigned. *)
Inductive Event : Type :=
| GenerateNew (wordlist : list string)
| AssignMnemonic (val : string)
| SignSampleLegacyTx
| SignSampleEIP1559Tx.

Definition handle (e : Event) (d : Data) : M Data :=
  match e with
  | GenerateNew wordlist => reported d (generateNew wordlist d)
  | AssignMnemonic val => assign_mnemonic val d
  | SignSampleLegacyTx => reported d (signSampleLegacyTx d)
  | SignSampleEIP1559Tx => reported d (signSampleEIP1559Tx d)
  end.

Fixpoint run (events : list Event) (d : Data) : M Data :=
  match events with
  | [] => ret d
  | e :: rest => (do d' <- handle e d; run rest d')%js
  end.

(** The key material on the page belongs together: nothing is shown yet,
    or [pubKey] is what [derivePubKey] returns for [privKey] and
    [ETHaddress] what [deriveEthAddress] returns for [pubKey]. *)
Definition coherent (d : Data) : Prop :=
  match privKey d with
  | Blank => pubKey d = Blank /\ ETHaddress d = EmptyString
  | Octets key =>
      exists pub,
        pubKey d = Octets pub
        /\ fst (derivePubKey key quiet) = Ok pub
        /\ fst (deriveEthAddress pub quiet) = Ok (ETHaddress d)
  end.

(** The fields that only the signing methods and their watchers
    assign. *)
Definition signing_fields (d : Data)
  : option Tx.Object * option Tx.Object * string * string :=
  (signedLegacySample d, signedEIP1559Sample d,
   recoveredLegacyAddress d, recoveredEIP1559Address d).

End Page.

(** ** Proof tools *)

(** From [H : let* x := r in k x = Ok b], the value [x] with [E : r = Ok x]
    and [H : k x = Ok b]. *)
Ltac rinv H :=
  match type of H with
  | rbind ?r _ = Ok _ =>
      let x := fresh "x" in
      let E := fresh "E" in
      destruct r as [x|] eqn:E; [cbn [rbind] in H | discriminate H]
  end.

Ltac lookup_chain_with lem :=
  repeat first
    [ rewrite lookup_insert_eq
    | rewrite lookup_insert_ne by discriminate
    | rewrite lem by discriminate ].

Ltac same_lookups :=
  repeat (constructor; [
    repeat first [ rewrite lookup_insert_ne by discriminate
                 | rewrite lookup_delete_ne by discriminate ]; reflexivity |]);
  constructor.

(** * Properties *)

(** ** The library models reproduce published vectors *)

(** Keccak-256 of the empty message. *)
Example keccak256_empty :
  Keccak.keccak256 []
  = "c5d2460186f7233c927e7db2dcc703c0e500b653ca82273b7bfad8045d85a470"%string.
Proof. vm_compute. reflexivity. Qed.

(** FIPS 180-4, the one-block message [abc]. *)
Example sha2_abc :
  toString_hex (SHA2.sha256 (Buffer_from_utf8 "abc"))
  = "ba7816bf8f01cfea414140de5dae2223b00361a396177a9cb410ff61f20015ad"%string
  /\ toString_hex (SHA2.sha512 (Buffer_from_utf8 "abc"))
     = "ddaf35a193617abacc417349ae20413112e6fa4e89a97ea20a9eeee64b55d39a2192992a274fc1a836ba3c23a3feebbd454d4423643ce80e2a9ac94fa54ca49f"%string.
Proof. vm_compute. split; reflexivity. Qed.

(** RFC 4231, test case 2. *)
Example hmac_rfc4231 :
  toString_hex (HMAC.hmac_sha256 (Buffer_from_utf8 "Jefe")
                  (Buffer_from_utf8 "what do ya want for nothing?"))
  = "5bdcc146bf60754e6a042426089575c75a003f089d2739839dec58b964ec3843"%string.
Proof. vm_compute. reflexivity. Qed.

(** The generator has the order [n], and [example_pubKey] is the public
    key of [example_key]. *)
Example secp256k1_checks :
  Secp256k1.on_curve Secp256k1.G = true
  /\ Secp256k1.point_mul Secp256k1.n Secp256k1.G = None
  /\ HDKey.publicKeyCreate_raw example_key = example_pubKey.
Proof. vm_compute. repeat split; reflexivity. Qed.

(** The seed of the development mnemonic (2048 rounds of HMAC-SHA512). *)
Example seed_of_example_mnemonic :
  BIP39.mnemonicToSeed example_mnemonic None = example_seed.
Proof. vm_compute. reflexivity. Qed.

(** The first two accounts of the development mnemonic. *)
Example keys_of_example_seed :
  derive_private_key example_seed "m/44'/60'/0'/0/0"
  = Ok (Util.Buffer_from_hex
          "ac0974bec39a17e36ba4a6b4d238ff944bacb478cbed5efcae784d7bf4f2ff80")
  /\ derive_private_key example_seed "m/44'/60'/0'/0/1"
     = Ok (Util.Buffer_from_hex
             "59c6995e998f97a5a0044966f0945389dc9e86dae88c7a8412f4603b6b78690d").
Proof. vm_compute. split; reflexivity. Qed.

(** The signature of the EIP-155 example, and the hash it signs. *)
Example eip155_signature :
  option_map signature_of (returned (signLegacyTx example_key eip155_example quiet))
  = Some (Some 37,
          Some 18515461264373351373200002665853028612451056578545711640558177340181847433846,
          Some 46948507304638947509940763649030358759909902576025900602547168820602576006531)
  /\ match Tx.Legacy.fromTxData eip155_example ∅ with
     | Ok tx => toString_hex (Tx.Legacy.getMessageToSign tx true)
     | Throw m => m
     end
     = "daf5a779ae972f972197303d7b574746c7ef83eadac0f2791ad23db92e4c8e53"%string.
Proof. vm_compute. split; reflexivity. Qed.

(** ** Strings and hexadecimal text *)

Lemma sapp_nil (b : string) : (EmptyString ++ b)%string = b.
Proof. reflexivity. Qed.

Lemma sapp_cons c (a b : string) : (String c a ++ b)%string = String c (a ++ b).
Proof. reflexivity. Qed.

Lemma length_string_app (a b : string) :
  String.length (a ++ b)%string = (String.length a + String.length b)%nat.
Proof.
  induction a as [|c a IH]; rewrite ?sapp_nil, ?sapp_cons; cbn [String.length];
    [reflexivity | now rewrite IH].
Qed.

Lemma string_app_assoc (a b c : string) : ((a ++ b) ++ c = a ++ (b ++ c))%string.
Proof.
  induction a as [|x a IH]; rewrite ?sapp_nil, ?sapp_cons; [reflexivity | now rewrite IH].
Qed.

Lemma length_toString_hex (b : Buffer) :
  String.length (toString_hex b) = (2 * List.length b)%nat.
Proof.
  induction b as [|x b IH]; [reflexivity|].
  cbn [toString_hex List.length]. rewrite length_string_app, IH.
  change (String.length (hex_of_byte x)) with 2%nat. lia.
Qed.

Lemma toString_hex_app (a b : Buffer) :
  toString_hex (a ++ b) = (toString_hex a ++ toString_hex b)%string.
Proof.
  induction a as [|x a IH]; [reflexivity|].
  rewrite <- app_comm_cons. cbn [toString_hex]. now rewrite IH, string_app_assoc.
Qed.

Lemma hex_digit_lower n : is_lower_hex (hex_digit n) = true.
Proof.
  unfold hex_digit.
  assert (H : (Z.to_nat (n mod 16) < 16)%nat) by (pose proof (Z.mod_pos_bound n 16); lia).
  generalize dependent (Z.to_nat (n mod 16)). intros k Hk.
  do 16 (destruct k as [|k]; [reflexivity|]); lia.
Qed.

Lemma all_chars_app p (a b : string) :
  all_chars p (a ++ b)%string = all_chars p a && all_chars p b.
Proof.
  induction a as [|c a IH]; rewrite ?sapp_nil, ?sapp_cons; cbn [all_chars];
    [reflexivity | now rewrite IH, andb_assoc].
Qed.

Lemma toString_hex_lower (b : Buffer) : all_chars is_lower_hex (toString_hex b) = true.
Proof.
  induction b as [|x b IH]; [reflexivity|].
  cbn [toString_hex]. rewrite all_chars_app, IH. unfold hex_of_byte. cbn [all_chars].
  now rewrite !hex_digit_lower.
Qed.

Lemma substring_app_r (a b : string) :
  String.substring (String.length a) (String.length b) (a ++ b) = b.
Proof.
  induction a as [|c a IH]; rewrite ?sapp_nil, ?sapp_cons;
    cbn [String.length String.substring].
  - induction b as [|c b IH]; cbn [String.length String.substring]; [reflexivity|].
    now rewrite IH.
  - exact IH.
Qed.

Lemma substring_last40 (s : string) :
  String.length s = 64%nat ->
  JS.substring s (Z.of_nat (String.length s) - 40) (Z.of_nat (String.length s))
  = String.substring 24 40 s.
Proof. intros H. unfold JS.substring, clamp. rewrite H. reflexivity. Qed.

Lemma flat_map_length_const {A B} (f : A -> list B) k (l : list A) :
  (forall x, List.length (f x) = k) -> List.length (flat_map f l) = (k * List.length l)%nat.
Proof.
  intros H. induction l as [|x l IH]; simpl; [lia|].
  rewrite length_app, H, IH. lia.
Qed.

(** ** The Keccak state keeps its 25 lanes; a digest has 32 octets *)

Lemma round_length st rc : List.length (Keccak.round st rc) = 25%nat.
Proof.
  unfold Keccak.round, Keccak.iota.
  assert (H : List.length (Keccak.chi (Keccak.rho_pi (Keccak.theta st))) = 25%nat).
  { unfold Keccak.chi. now rewrite length_map. }
  destruct (Keccak.chi _); [discriminate H | exact H].
Qed.

Lemma fold_round_length rcs st :
  List.length st = 25%nat -> List.length (fold_left Keccak.round rcs st) = 25%nat.
Proof.
  revert st. induction rcs as [|rc rcs IH]; intros st H; simpl; [exact H|].
  apply IH, round_length.
Qed.

Lemma xor_lanes_length st ls : List.length (Keccak.xor_lanes st ls) = List.length st.
Proof.
  revert ls. induction st as [|a st IH]; intros [|l ls]; simpl; try reflexivity.
  now rewrite IH.
Qed.

Lemma fold_absorb_length blocks st :
  List.length st = 25%nat -> List.length (fold_left Keccak.absorb blocks st) = 25%nat.
Proof.
  revert st. induction blocks as [|b bs IH]; intros st H; simpl; [exact H|].
  apply IH. unfold Keccak.absorb, Keccak.keccak_f.
  apply fold_round_length. now rewrite xor_lanes_length.
Qed.

Lemma bytes_of_lane_length n w : List.length (Keccak.bytes_of_lane n w) = n.
Proof. revert w. induction n as [|n IH]; intros w; simpl; [reflexivity | now rewrite IH]. Qed.

Lemma digest_length msg : List.length (Keccak.digest msg) = 32%nat.
Proof.
  unfold Keccak.digest.
  rewrite length_firstn, (flat_map_length_const _ 8%nat).
  - rewrite fold_absorb_length; reflexivity.
  - intros x. apply bytes_of_lane_length.
Qed.

Lemma keccak256_length msg : String.length (Keccak.keccak256 msg) = 64%nat.
Proof. unfold Keccak.keccak256. now rewrite length_toString_hex, digest_length. Qed.

Lemma keccak256_split msg :
  Keccak.keccak256 msg
  = (toString_hex (firstn 12 (Keccak.digest msg))
     ++ toString_hex (skipn 12 (Keccak.digest msg)))%string.
Proof. unfold Keccak.keccak256. now rewrite <- toString_hex_app, firstn_skipn. Qed.

Lemma address_hex_length msg :
  String.length (toString_hex (skipn 12 (Keccak.digest msg))) = 40%nat.
Proof. now rewrite length_toString_hex, length_skipn, digest_length. Qed.

(** ** [deriveEthAddress] *)

Lemma deriveEthAddress_eq pubKey w :
  deriveEthAddress pubKey w
  = (Ok ("0x" ++ toString_hex (skipn 12 (Keccak.digest pubKey)))%string, w).
Proof.
  unfold deriveEthAddress, ret.
  rewrite substring_last40 by apply keccak256_length.
  do 3 f_equal. rewrite keccak256_split.
  assert (H1 : String.length (toString_hex (firstn 12 (Keccak.digest pubKey))) = 24%nat).
  { now rewrite length_toString_hex, length_firstn, digest_length. }
  rewrite <- H1, <- (address_hex_length pubKey) at 1. apply substring_app_r.
Qed.

(** C2: for a 64-octet public key (no format octet in front),
    [deriveEthAddress] returns [0x] followed by the lowercase hexadecimal
    text of the last 20 of the 32 octets of the Keccak-256 digest, 42
    characters in all; the call cannot throw and neither reads nor changes
    the world it runs in. *)
Theorem deriveEthAddress_public_key (pubKey : Buffer) (w : World) :
  List.length pubKey = 64%nat ->
  let digest := Keccak.digest pubKey in
  let address := ("0x" ++ toString_hex (skipn 12 digest))%string in
  List.length digest = 32%nat
  /\ List.length (skipn 12 digest) = 20%nat
  /\ deriveEthAddress pubKey w = (Ok address, w)
  /\ String.length address = 42%nat
  /\ all_chars is_lower_hex (toString_hex (skipn 12 digest)) = true.
Proof.
  intros _. cbv zeta. repeat split.
  - apply digest_length.
  - now rewrite length_skipn, digest_length.
  - apply deriveEthAddress_eq.
  - rewrite length_string_app, address_hex_length. reflexivity.
  - apply toString_hex_lower.
Qed.

Lemma deriveEthAddress_public_key_witness :
  List.length example_pubKey = 64%nat
  /\ deriveEthAddress example_pubKey quiet
     = (Ok "0x9d8a62f656a8d1615c1294fd71e9cfb3e4855a4f"%string, quiet).
Proof.
  split; [reflexivity|].
  destruct (deriveEthAddress_public_key example_pubKey quiet eq_refl)
    as (_ & _ & H & _).
  rewrite H. vm_compute. reflexivity.
Defined.

(** C9: [deriveEthAddress] checks nothing about its argument. For every
    octet string, of any length, it returns [0x] followed by the last 40
    characters of the hexadecimal Keccak-256 digest of that input, and it
    never throws. *)
Theorem deriveEthAddress_total (input : Buffer) (w : World) :
  exists head tail : string,
    Keccak.keccak256 input = (head ++ tail)%string
    /\ String.length tail = 40%nat
    /\ deriveEthAddress input w = (Ok ("0x" ++ tail)%string, w).
Proof.
  exists (toString_hex (firstn 12 (Keccak.digest input))),
         (toString_hex (skipn 12 (Keccak.digest input))).
  split; [apply keccak256_split|]. split; [apply address_hex_length|].
  apply deriveEthAddress_eq.
Qed.

(** The empty input and a compressed (33-octet) key are hashed like any
    other input. *)
Example deriveEthAddress_odd_inputs :
  deriveEthAddress [] quiet
  = (Ok "0xdcc703c0e500b653ca82273b7bfad8045d85a470"%string, quiet)
  /\ exists address,
       deriveEthAddress (HDKey.publicKeyCreate_compressed example_key) quiet
       = (Ok address, quiet).
Proof. vm_compute. split; [reflexivity | eexists; reflexivity]. Qed.

(** ** Digest and seed sizes *)

Lemma be_bytes_length n x : List.length (be_bytes n x) = n.
Proof. induction n as [|n IH]; simpl; [reflexivity | now rewrite IH]. Qed.

Lemma sha512_length msg : List.length (SHA2.sha512 msg) = 64%nat.
Proof.
  unfold SHA2.sha512, SHA2.hash_with, SHA2.serialize.
  destruct (fold_left _ _ _) as [a b c d e f g h].
  rewrite (flat_map_length_const _ 8%nat); [reflexivity|].
  intros x. apply be_bytes_length.
Qed.

Lemma sha256_length msg : List.length (SHA2.sha256 msg) = 32%nat.
Proof.
  unfold SHA2.sha256, SHA2.hash_with, SHA2.serialize.
  destruct (fold_left _ _ _) as [a b c d e f g h].
  rewrite (flat_map_length_const _ 4%nat); [reflexivity|].
  intros x. apply be_bytes_length.
Qed.

Lemma xor_bytes_length xs ys :
  List.length (HMAC.xor_bytes xs ys) = Nat.min (List.length xs) (List.length ys).
Proof.
  revert ys. induction xs as [|x xs IH]; intros [|y ys]; simpl; try reflexivity.
  now rewrite IH.
Qed.

Lemma pbkdf2_iter_length c pw u acc :
  List.length acc = 64%nat ->
  List.length (HMAC.pbkdf2_iter SHA2.sha512 128 c pw u acc) = 64%nat.
Proof.
  revert u acc. induction c as [|c IH]; intros u acc H; simpl; [exact H|].
  apply IH. rewrite xor_bytes_length, H. unfold HMAC.hmac.
  now rewrite sha512_length.
Qed.

Lemma mnemonicToSeed_length mnemonic password :
  List.length (BIP39.mnemonicToSeed mnemonic password) = 64%nat.
Proof.
  unfold BIP39.mnemonicToSeed, HMAC.pbkdf2.
  change ((64 + 64 - 1) / 64)%nat with 1%nat.
  cbn [seq flat_map]. rewrite app_nil_r.
  assert (H : forall pw salt,
             List.length (HMAC.pbkdf2_block SHA2.sha512 128 pw salt 2048 (Z.of_nat 1))
             = 64%nat).
  { intros pw salt. unfold HMAC.pbkdf2_block. apply pbkdf2_iter_length.
    unfold HMAC.hmac. apply sha512_length. }
  rewrite firstn_all2; rewrite H; lia.
Qed.

(** ** Seed and private key *)

Lemma generatePrivKey_eq mnemonic w :
  generatePrivKey mnemonic w
  = (derive_private_key (BIP39.mnemonicToSeed mnemonic None) "m/44'/60'/0'/0/0", w).
Proof.
  unfold generatePrivKey, generateSeed, bind, ret, pure_call, derive_private_key.
  reflexivity.
Qed.

Lemma fromPrivateKey_length priv wallet :
  Wallet.fromPrivateKey priv = Ok wallet ->
  List.length (Wallet.getPrivateKey wallet) = 32%nat.
Proof.
  unfold Wallet.fromPrivateKey, HDKey.privateKeyVerify.
  destruct (List.length priv =? 32)%nat eqn:E; [|discriminate].
  destruct (Secp256k1.valid_private _); [|discriminate].
  intros [= <-]. now apply Nat.eqb_eq in E.
Qed.

Lemma derive_private_key_length seed path key :
  derive_private_key seed path = Ok key -> List.length key = 32%nat.
Proof.
  unfold derive_private_key, Wallet.hd_getWallet. intros H.
  rinv H. rinv H. rinv H. injection H as <-.
  eapply fromPrivateKey_length, E1.
Qed.

(** C4: seed and private-key derivation are deterministic. Whatever the
    world they run in, two calls of [generateSeed] on the same mnemonic
    return the same 64 octets, and two calls of [generatePrivKey] on the same
    mnemonic return the same outcome (the same 32-octet key, or the same
    error); neither call changes the world. In the code the passphrase is
    always absent and the path is fixed, so the mnemonic is the whole
    input; the seed function of the library gives 64 octets for every
    passphrase. *)
Theorem seed_and_key_derivation_deterministic (mnemonic : string) (w1 w2 : World) :
  (exists seed,
     List.length seed = 64%nat
     /\ generateSeed mnemonic w1 = (Ok seed, w1)
     /\ generateSeed mnemonic w2 = (Ok seed, w2))
  /\ (forall passphrase,
        List.length (BIP39.mnemonicToSeed mnemonic passphrase) = 64%nat)
  /\ (exists outcome,
        generatePrivKey mnemonic w1 = (outcome, w1)
        /\ generatePrivKey mnemonic w2 = (outcome, w2)
        /\ forall key, outcome = Ok key -> List.length key = 32%nat).
Proof.
  split.
  - exists (BIP39.mnemonicToSeed mnemonic None).
    split; [apply mnemonicToSeed_length|]. split; reflexivity.
  - split; [intros passphrase; apply mnemonicToSeed_length|].
    exists (derive_private_key (BIP39.mnemonicToSeed mnemonic None) "m/44'/60'/0'/0/0").
    rewrite !generatePrivKey_eq. repeat split.
    intros key H. eapply derive_private_key_length, H.
Qed.

(** [generateMnemonic], by contrast, depends on the random octets it
    draws. *)
Example generateMnemonic_reads_entropy :
  generateMnemonic ["zero"; "one"]%string {| entropy := repeat x00 16 |}
  <> generateMnemonic ["zero"; "one"]%string {| entropy := repeat xff 16 |}
  /\ exists msg, generateMnemonic ["zero"; "one"]%string quiet = (Throw msg, quiet).
Proof.
  split.
  - vm_compute. discriminate.
  - vm_compute. eexists. reflexivity.
Qed.

(** ** Integers as octets *)
Lemma byte_to_of_Z z : byte_to_Z (byte_of_Z z) = Z.land z 255.
Proof.
  unfold byte_to_Z, byte_of_Z.
  assert (Hb : 0 <= Z.land z 255 < 256).
  { change 255 with (Z.ones 8). rewrite Z.land_ones by lia. apply Z.mod_pos_bound. lia. }
  destruct (Byte.of_N (Z.to_N (Z.land z 255))) as [b|] eqn:E.
  - apply Byte.to_of_N in E. rewrite E. lia.
  - apply Byte.of_N_None_iff in E. lia.
Qed.

Lemma byte_to_of_Z_small z : 0 <= z < 256 -> byte_to_Z (byte_of_Z z) = z.
Proof.
  intros H. rewrite byte_to_of_Z. change 255 with (Z.ones 8).
  rewrite Z.land_ones by lia. apply Z.mod_small. lia.
Qed.

Lemma be_int_fold acc bs :
  fold_left (fun a b => 256 * a + byte_to_Z b) bs acc
  = acc * 256 ^ Z.of_nat (List.length bs) + be_int bs.
Proof.
  unfold be_int. revert acc. induction bs as [|b bs IH]; intros acc.
  - simpl. lia.
  - cbn [fold_left List.length]. rewrite IH, (IH (256 * 0 + byte_to_Z b)).
    rewrite Nat2Z.inj_succ, Z.pow_succ_r by lia. lia.
Qed.

Lemma be_int_cons b bs :
  be_int (b :: bs) = byte_to_Z b * 256 ^ Z.of_nat (List.length bs) + be_int bs.
Proof. unfold be_int at 1. cbn [fold_left]. rewrite be_int_fold. lia. Qed.

Lemma minimal_bytes_spec fuel n acc :
  0 <= n < 2 ^ Z.of_nat fuel -> (0 < fuel)%nat ->
  be_int (Util.minimal_bytes fuel n acc) = n * 256 ^ Z.of_nat (List.length acc) + be_int acc
  /\ Util.minimal_bytes fuel n acc <> [].
Proof.
  revert n acc. induction fuel as [|fuel IH]; intros n acc Hn Hf; [lia|].
  cbn [Util.minimal_bytes]. destruct (n <? 256) eqn:E.
  - apply Z.ltb_lt in E. split; [|discriminate].
    rewrite be_int_cons, byte_to_of_Z_small by lia. reflexivity.
  - apply Z.ltb_ge in E.
    assert (Hfuel : (8 <= fuel)%nat).
    { destruct (le_lt_dec 8 fuel) as [|Hlt]; [assumption|].
      assert (2 ^ Z.of_nat (S fuel) <= 2 ^ 8) by (apply Z.pow_le_mono_r; lia).
      change (2 ^ 8) with 256 in *. lia. }
    rewrite Z.shiftr_div_pow2 by lia. change (2 ^ 8) with 256.
    destruct (IH (n / 256) (byte_of_Z n :: acc)) as [H1 H2].
    + split; [apply Z.div_pos; lia|].
      apply Z.div_lt_upper_bound; [lia|].
      rewrite Nat2Z.inj_succ, Z.pow_succ_r in Hn by lia. lia.
    + lia.
    + split; [|exact H2]. rewrite H1, be_int_cons, byte_to_of_Z.
      change 255 with (Z.ones 8). rewrite Z.land_ones by lia. change (2 ^ 8) with 256.
      cbn [List.length]. rewrite Nat2Z.inj_succ, Z.pow_succ_r by lia.
      pose proof (Z.div_mod n 256 ltac:(lia)). nia.
Qed.

Lemma int_bytes_spec n :
  0 <= n -> be_int (Util.int_bytes n) = n /\ Util.int_bytes n <> [].
Proof.
  intros Hn. unfold Util.int_bytes.
  destruct (minimal_bytes_spec (S (Z.to_nat (Z.log2 n))) n []) as [H1 H2].
  - split; [lia|]. rewrite Nat2Z.inj_succ, Z2Nat.id by apply Z.log2_nonneg.
    destruct (Z.eq_dec n 0) as [->|Hz]; [simpl; lia|].
    apply Z.log2_spec. lia.
  - lia.
  - split; [|exact H2]. rewrite H1. simpl. unfold be_int. simpl. lia.
Qed.

Lemma field_bigint_value n x :
  Util.field_buffer (Some (Util.VBigInt n)) = Ok x ->
  0 <= n /\ Tx.opt_bigint x = Some n.
Proof.
  unfold Util.field_buffer, Util.toBuffer. destruct (n <? 0) eqn:E; [discriminate|].
  intros [= <-]. apply Z.ltb_ge in E. split; [exact E|].
  destruct (int_bytes_spec n E) as [H1 H2]. unfold Tx.opt_bigint.
  destruct (Util.int_bytes n) eqn:Eb; [contradiction|].
  unfold Util.bufferToBigInt. now rewrite H1.
Qed.

(** The base constructor reads [v], [r] and [s] out of the payload. *)
Lemma base_new_signature (td : Tx.TxData) b :
  Tx.base_new td = Ok b ->
  exists vB rB sB,
    Util.field_buffer (td !! "v") = Ok vB /\ Tx.v b = Tx.opt_bigint vB /\
    Util.field_buffer (td !! "r") = Ok rB /\ Tx.r b = Tx.opt_bigint rB /\
    Util.field_buffer (td !! "s") = Ok sB /\ Tx.s b = Tx.opt_bigint sB.
Proof.
  unfold Tx.base_new. intros H.
  rinv H. rinv H. rinv H. rinv H. rinv H. rinv H. rinv H. rinv H. rinv H.
  destruct (_ || _); [discriminate|].
  destruct (_ <? _); [discriminate|].
  destruct (_ <=? _); [discriminate|].
  injection H as <-. cbn [Tx.v Tx.r Tx.s]. eauto 10.
Qed.

(** ** The recovery identifier of a signature *)
Lemma kmd2sig_recovery kBytes m d sg :
  Noble.kmd2sig kBytes m d = Some sg -> 0 <= Noble.recovery sg <= 3.
Proof.
  unfold Noble.kmd2sig.
  destruct (negb _); [discriminate|].
  destruct (Secp256k1.point_mul _ _) as [[qx qy]|]; [|discriminate].
  destruct (_ =? 0); [discriminate|].
  destruct (_ =? 0); [discriminate|].
  intros [= <-]. cbn [Noble.recovery].
  destruct (qx =? _), (Z.odd qy); vm_compute; split; discriminate.
Qed.

Lemma sign_loop_recovery fuel d m x sg :
  Noble.sign_loop fuel d m x = Ok sg -> 0 <= Noble.recovery sg <= 3.
Proof.
  revert d. induction fuel as [|fuel IH]; intros d; cbn [Noble.sign_loop]; [discriminate|].
  destruct (Noble.generate d) as [kBytes d'].
  destruct (Noble.kmd2sig kBytes m x) as [sg'|] eqn:E.
  - intros [= <-]. eapply kmd2sig_recovery, E.
  - apply IH.
Qed.

Lemma finalizeSig_recovery sg :
  0 <= Noble.recovery sg <= 3 -> 0 <= Noble.recovery (Noble.finalizeSig sg) <= 3.
Proof.
  intros H. unfold Noble.finalizeSig. destruct (_ <? _); [|exact H].
  cbn [Noble.recovery].
  assert (Hc : Noble.recovery sg = 0 \/ Noble.recovery sg = 1
               \/ Noble.recovery sg = 2 \/ Noble.recovery sg = 3) by lia.
  destruct Hc as [-> | [-> | [-> | ->]]]; vm_compute; split; discriminate.
Qed.

Lemma signSync_recovery msgHash privateKey signature rec :
  Noble.signSync msgHash privateKey = Ok (signature, rec) -> 0 <= rec <= 3.
Proof.
  unfold Noble.signSync.
  destruct (negb (_ =? 32)%nat); [discriminate|].
  destruct (negb (Secp256k1.valid_private _)); [discriminate|].
  intros H. rinv H. injection H as _ <-.
  apply finalizeSig_recovery. eapply sign_loop_recovery, E.
Qed.

Lemma ecsign_inv msgHash privateKey v_ r_ s_ :
  Util.ecsign msgHash privateKey = Ok (v_, r_, s_) ->
  exists signature rec,
    Noble.signSync msgHash privateKey = Ok (signature, rec) /\
    v_ = rec + 27 /\ r_ = firstn 32 signature /\ s_ = firstn 32 (skipn 32 signature).
Proof.
  unfold Util.ecsign. intros H. rinv H. destruct x as [signature rec].
  injection H as <- <- <-. eauto 10.
Qed.

(** ** What the constructors establish *)

(** Numbers below [2^53] in size are held exactly. *)
Lemma to_double_exact x : Z.abs x < 2 ^ 53 -> Tx.to_double x = Tx.Finite x.
Proof.
  intros H. unfold Tx.to_double.
  destruct (Z.abs x <? 2 ^ 53) eqn:E; [reflexivity|].
  apply Z.ltb_ge in E. lia.
Qed.

Lemma to_double_nonneg x d : 0 <= x -> Tx.to_double x = Tx.Finite d -> 0 <= d.
Proof.
  intros Hx. unfold Tx.to_double.
  destruct (Z.abs x <? 2 ^ 53); [intros [= <-]; exact Hx|].
  cbv zeta.
  match goal with
  | |- (if _ then _ else Tx.Finite (_ * Z.shiftl ?q ?e)) = _ -> _ =>
      assert (Hq : 0 <= q);
      [| destruct (_ <=? _); [discriminate|]; intros [= <-];
         apply Z.mul_nonneg_nonneg; [lia | now apply Z.shiftl_nonneg] ]
  end.
  assert (H0 : 0 <= Z.shiftr (Z.abs x) (Z.log2 (Z.abs x) - 52))
    by (apply Z.shiftr_nonneg; lia).
  destruct (_ || _); lia.
Qed.

(** Beyond [2^53] a number keeps 53 significant bits. Of a [v] of
    [2^53 + 1] the constructor sees [2^53], and derives the chain id from
    that. *)
Example to_double_samples :
  Tx.to_double (2 ^ 53 - 1) = Tx.Finite (2 ^ 53 - 1)
  /\ Tx.to_double (2 ^ 53 + 1) = Tx.Finite (2 ^ 53)
  /\ Tx.to_double (2 ^ 53 + 3) = Tx.Finite (2 ^ 53 + 4)
  /\ Tx.to_double (2 ^ 54 + 2) = Tx.Finite (2 ^ 54)
  /\ Tx.to_double (2 ^ 54 + 6) = Tx.Finite (2 ^ 54 + 8)
  /\ Tx.to_double (2 ^ 1024 - 1) = Tx.Infinity
  /\ Tx.Legacy.validateTxV (Some (2 ^ 53 + 1)) None
     = Ok (Common.new (2 ^ 52 - 18) Common.Merge)
  /\ Tx.Legacy.validateTxV (Some 37) None = Ok (Common.new 1 Common.Merge)
  /\ Tx.Legacy.validateTxV (Some 42) None = Ok (Common.new 3 Common.Merge).
Proof. vm_compute. repeat split; reflexivity. Qed.

Lemma getCommon_None default chainId cm :
  Tx.getCommon default None chainId = Ok cm ->
  Common.hardfork cm = default
  /\ Common.chainId cm = match chainId with Some c => c | None => Tx.DEFAULT_CHAIN end.
Proof. destruct chainId; intros [= <-]; split; reflexivity. Qed.

(** Without a [Common] in the options, the constructor makes its own: of
    the default hardfork, for the Mainnet when the payload has no [v], and
    else for the chain that [v] names. *)
Lemma validateTxV_default v_ cm :
  Tx.Legacy.validateTxV v_ None = Ok cm ->
  Common.hardfork cm = Tx.DEFAULT_HARDFORK
  /\ 0 <= Common.chainId cm
  /\ (v_ = None -> Common.chainId cm = Common.Mainnet).
Proof.
  unfold Tx.Legacy.validateTxV. destruct v_ as [bv|].
  - unfold Tx.Number. destruct (Tx.to_double bv) as [x|]; cbn [Tx.num_ltb Tx.num_is Tx.num_eqb Tx.num_add].
    + destruct ((x <? 37) && negb (x =? 27) && negb (x =? 28)) eqn:E1; [discriminate|].
      destruct (negb (x =? 0) && true && negb (x =? 27) && negb (x =? 28)) eqn:E2.
      * assert (Hx : 37 <= x) by lia.
        destruct (Tx.to_double (x + - 35)) as [d0|];
          [destruct (d0 mod 2 =? 0)|];
          (match goal with
           | |- match Tx.to_double ?y with _ => _ end = _ -> _ =>
               destruct (Tx.to_double y) as [d|] eqn:Ed; [|discriminate];
               apply to_double_nonneg in Ed; [|lia]
           end;
           intros H; apply getCommon_None in H as [H1 H2];
           split; [exact H1|]; split; [|discriminate];
           rewrite H2; apply Z.quot_pos; lia).
      * intros H. apply getCommon_None in H as [H1 H2]. split; [exact H1|].
        rewrite H2. unfold Tx.DEFAULT_CHAIN, Common.Mainnet. split; [lia|discriminate].
    + cbn. discriminate.
  - intros H. apply getCommon_None in H as [H1 H2]. split; [exact H1|]. rewrite H2.
    unfold Tx.DEFAULT_CHAIN, Common.Mainnet. split; [lia|reflexivity].
Qed.

Lemma legacy_fromTxData_inv td opts tx :
  Tx.Legacy.fromTxData td opts = Ok tx ->
  Tx.base_new (<["type" := Util.VNumber 0]> td) = Ok (Tx.Legacy.fields tx)
  /\ Tx.Legacy.validateTxV (Tx.v (Tx.Legacy.fields tx)) (Tx.opts_common opts)
     = Ok (Tx.Legacy.common tx).
Proof.
  unfold Tx.Legacy.fromTxData. intros H. rinv H. rinv H. rinv H.
  destruct (_ <? _); [discriminate|]. destruct (_ <? _); [discriminate|].
  injection H as <-. cbn [Tx.Legacy.fields Tx.Legacy.common Tx.v]. split; auto.
Qed.

(** With a [Common] in the options, the transaction keeps it. *)
Lemma validateTxV_with_common x cm cm' :
  Tx.Legacy.validateTxV (Some x) (Some cm) = Ok cm' -> cm' = cm.
Proof.
  unfold Tx.Legacy.validateTxV. cbv zeta.
  destruct (_ && _ && _); [discriminate|].
  destruct (_ && _ && _ && _).
  - destruct (Tx.Number x); [|discriminate].
    destruct (Tx.Legacy.meetsEIP155 _ _); [|discriminate]. now intros [= <-].
  - now intros [= <-].
Qed.

(** While [v] and the doubled chain id are below [2^53], the check of [v]
    against the chain id is the exact one of EIP-155. *)
Lemma validateTxV_eip155 x cm cm' :
  Tx.Legacy.validateTxV (Some x) (Some cm) = Ok cm' ->
  Common.gteHardfork cm Common.SpuriousDragon = true ->
  0 <= x < 2 ^ 53 -> 0 <= Common.chainId cm -> Common.chainId cm * 2 + 36 < 2 ^ 53 ->
  x = 27 \/ x = 28 \/ x = Common.chainId cm * 2 + 35 \/ x = Common.chainId cm * 2 + 36.
Proof.
  unfold Tx.Legacy.validateTxV. intros H Hg Hx Hc0 Hc. rewrite Hg in H.
  unfold Tx.Number in H. rewrite to_double_exact in H by lia.
  cbn [Tx.num_ltb Tx.num_is Tx.num_eqb] in H.
  destruct ((x <? 37) && negb (x =? 27) && negb (x =? 28)) eqn:E1; [discriminate|].
  destruct (negb (x =? 0) && true && negb (x =? 27) && negb (x =? 28)) eqn:E2; [|lia].
  destruct (Tx.Legacy.meetsEIP155 x (Common.chainId cm)) eqn:E3; [|discriminate].
  unfold Tx.Legacy.meetsEIP155, Tx.Number in E3.
  rewrite (to_double_exact x), (to_double_exact (Common.chainId cm)) in E3 by lia.
  cbn [Tx.num_double] in E3. rewrite to_double_exact in E3 by lia.
  cbn [Tx.num_add] in E3. rewrite !to_double_exact in E3 by lia.
  cbn [Tx.num_eqb] in E3. lia.
Qed.

Lemma to_field_lookup a (m : Tx.TxData) key :
  key <> "to" -> Tx.to_field a m !! key = m !! key.
Proof. intros H. destruct a; cbn; [|reflexivity]. now rewrite lookup_insert_ne. Qed.

Lemma legacy_sign_v tx privKey signed :
  Tx.Legacy.sign tx privKey = Ok signed ->
  Common.hardfork (Tx.Legacy.common tx) = Tx.DEFAULT_HARDFORK ->
  0 <= Common.chainId (Tx.Legacy.common tx) ->
  exists signature recoveryBit,
    Noble.signSync (Tx.Legacy.getMessageToSign tx true) privKey = Ok (signature, recoveryBit)
    /\ 0 <= recoveryBit <= 3
    /\ (Common.chainId (Tx.Legacy.common tx) * 2 + 38 < 2 ^ 53 ->
        recoveryBit = 0 \/ recoveryBit = 1)
    /\ Tx.Legacy.common signed = Tx.Legacy.common tx
    /\ Tx.v (Tx.Legacy.fields signed)
       = Some (recoveryBit + Common.chainId (Tx.Legacy.common tx) * 2 + 35)
    /\ Tx.r (Tx.Legacy.fields signed) = Some (be_int (firstn 32 signature))
    /\ Tx.s (Tx.Legacy.fields signed) = Some (be_int (firstn 32 (skipn 32 signature))).
Proof.
  intros H Hhf Hc. unfold Tx.Legacy.sign in H.
  destruct (negb (_ =? 32)%nat); [discriminate|].
  assert (Hg : Common.gteHardfork (Tx.Legacy.common tx) Common.SpuriousDragon = true).
  { unfold Common.gteHardfork. rewrite Hhf. reflexivity. }
  rewrite Hg, orb_true_r in H.
  rinv H. destruct x as [[v_ r_] s_].
  apply ecsign_inv in E as (signature & rec & Hs & -> & -> & ->).
  unfold Tx.Legacy.processSignature in H.
  apply legacy_fromTxData_inv in H as [Hb Hv].
  apply base_new_signature in Hb as (vB & rB & sB & HvB & Hv' & HrB & Hr' & HsB & Hs').
  revert HvB HrB HsB. lookup_chain_with to_field_lookup. intros HvB HrB HsB.
  apply field_bigint_value in HvB as [Hv0 HvB], HrB as [Hr0 HrB], HsB as [Hs0 HsB].
  rewrite HvB in Hv'. rewrite HrB in Hr'. rewrite HsB in Hs'.
  rewrite Hv' in Hv.
  assert (Hoc : Tx.opts_common (<["common" := Tx.OCommon (Tx.Legacy.common tx)]> ∅)
                = Some (Tx.Legacy.common tx)).
  { unfold Tx.opts_common. now rewrite lookup_insert_eq. }
  rewrite Hoc in Hv.
  pose proof (signSync_recovery _ _ _ _ Hs) as Hrec.
  exists signature, rec. split; [exact Hs|]. split; [exact Hrec|].
  split.
  { intros Hsmall.
    pose proof (validateTxV_eip155 _ _ _ Hv Hg) as Hx.
    destruct Hx as [Hx | [Hx | [Hx | Hx]]]; lia. }
  split; [apply (validateTxV_with_common _ _ _ Hv)|].
  split; [|split; assumption].
  rewrite Hv'. f_equal. lia.
Qed.

Lemma feemarket_fromTxData_inv td opts tx :
  Tx.FeeMarket.fromTxData td opts = Ok tx ->
  Tx.base_new (<["type" := Util.VNumber 2]> td) = Ok (Tx.FeeMarket.fields tx)
  /\ match Tx.v (Tx.FeeMarket.fields tx) with
     | Some x => x = 0 \/ x = 1
     | None => True
     end.
Proof.
  unfold Tx.FeeMarket.fromTxData. intros H. rinv H. rinv H. rinv H.
  destruct (negb _); [discriminate|].
  rinv H. rinv H. rinv H. rinv H.
  destruct (_ || _); [discriminate|].
  destruct (_ <? _); [discriminate|]. destruct (_ <? _); [discriminate|].
  destruct (Tx.v x) as [y|] eqn:Ey.
  - destruct (negb (y =? 0) && negb (y =? 1)) eqn:E7; [discriminate|].
    rinv H. injection H as <-. cbn [Tx.FeeMarket.fields]. rewrite Ey. split; [auto | lia].
  - rinv H. injection H as <-. cbn [Tx.FeeMarket.fields]. rewrite Ey. split; [auto | exact I].
Qed.

Lemma feemarket_sign_v tx privKey signed :
  Tx.FeeMarket.sign tx privKey = Ok signed ->
  exists signature recoveryBit,
    Noble.signSync (Tx.FeeMarket.getMessageToSign tx) privKey = Ok (signature, recoveryBit)
    /\ (recoveryBit = 0 \/ recoveryBit = 1)
    /\ Tx.v (Tx.FeeMarket.fields signed) = Some recoveryBit
    /\ Tx.r (Tx.FeeMarket.fields signed) = Some (be_int (firstn 32 signature))
    /\ Tx.s (Tx.FeeMarket.fields signed) = Some (be_int (firstn 32 (skipn 32 signature))).
Proof.
  intros H. unfold Tx.FeeMarket.sign in H.
  destruct (negb (_ =? 32)%nat); [discriminate|].
  rinv H. destruct x as [[v_ r_] s_].
  apply ecsign_inv in E as (signature & rec & Hs & -> & -> & ->).
  unfold Tx.FeeMarket.processSignature in H.
  apply feemarket_fromTxData_inv in H as [Hb Hv].
  apply base_new_signature in Hb as (vB & rB & sB & HvB & Hv' & HrB & Hr' & HsB & Hs').
  revert HvB HrB HsB. lookup_chain_with to_field_lookup. intros HvB HrB HsB.
  apply field_bigint_value in HvB as [Hv0 HvB], HrB as [Hr0 HrB], HsB as [Hs0 HsB].
  rewrite HvB in Hv'. rewrite HrB in Hr'. rewrite HsB in Hs'.
  rewrite Hv' in Hv.
  exists signature, rec. split; [exact Hs|].
  replace (rec + 27 - 27) with rec in * by lia.
  repeat split; assumption.
Qed.

Lemma pure_call_inv {A} (r : Result A) w x w' :
  pure_call r w = (x, w') -> x = r /\ w' = w.
Proof. unfold pure_call. now intros [= <- <-]. Qed.

(** The payload's [v] is the [v] of the transaction built from it. *)
Lemma legacy_v_absent (txData : Tx.TxData) opts tx :
  Tx.Legacy.fromTxData txData opts = Ok tx ->
  txData !! "v" = None -> Tx.v (Tx.Legacy.fields tx) = None.
Proof.
  intros H Hv. apply legacy_fromTxData_inv in H as [Hb _].
  apply base_new_signature in Hb as (vB & rB & sB & HvB & Hv' & _).
  rewrite lookup_insert_ne, Hv in HvB by discriminate.
  injection HvB as <-. exact Hv'.
Qed.

(** C5: the recovery identifier [v] of a signed transaction comes from the
    recovery bit of its signature by the convention of its kind, with the
    chain id of the transaction object, not the one the payload names.
    Whenever [signLegacyTx] returns, [v = recoveryBit + chainId * 2 + 35]
    for the chain id of the returned transaction; for a payload without [v]
    that chain is the Mainnet, whatever [chainId] the payload holds, and the
    bit is 0 or 1. Whenever [signEIP1559Tx] returns, [v = recoveryBit], 0 or
    1. In both cases the bit is the one the signer produced along with [r]
    and [s]. *)
Theorem recovery_identifier_convention privKey (txData : Tx.TxData) w signedTx w' :
  signLegacyTx privKey txData w = (Ok signedTx, w')
  \/ signEIP1559Tx privKey txData w = (Ok signedTx, w') ->
  exists msgHash signature recoveryBit,
    Noble.signSync msgHash privKey = Ok (signature, recoveryBit)
    /\ Tx.r (Tx.fields_of signedTx) = Some (be_int (firstn 32 signature))
    /\ Tx.s (Tx.fields_of signedTx) = Some (be_int (firstn 32 (skipn 32 signature)))
    /\ match signedTx with
       | Tx.LegacyTx tx =>
           Tx.v (Tx.Legacy.fields tx)
           = Some (recoveryBit + Common.chainId (Tx.Legacy.common tx) * 2 + 35)
           /\ (txData !! "v" = None ->
               Common.chainId (Tx.Legacy.common tx) = Common.Mainnet
               /\ (recoveryBit = 0 \/ recoveryBit = 1))
       | Tx.FeeMarketTx tx =>
           Tx.v (Tx.FeeMarket.fields tx) = Some recoveryBit
           /\ (recoveryBit = 0 \/ recoveryBit = 1)
       end.
Proof.
  intros [H | H].
  - unfold signLegacyTx in H. apply pure_call_inv in H as [H _]. symmetry in H.
    rinv H. rinv H. injection H as <-.
    pose proof (legacy_fromTxData_inv _ _ _ E) as [_ Hv].
    assert (Hoc : Tx.opts_common
                    (<["txParams" := Tx.OCommon (Common.new Common.Mainnet Common.Istanbul)]> ∅)
                  = None) by reflexivity.
    rewrite Hoc in Hv.
    pose proof (validateTxV_default _ _ Hv) as (Hhf & Hc & Hm).
    destruct (legacy_sign_v _ _ _ E0 Hhf Hc)
      as (signature & rec & Hs & _ & Hrec & Hcm & Hv' & Hr & Hs').
    exists (Tx.Legacy.getMessageToSign x true), signature, rec.
    cbn [Tx.fields_of]. rewrite Hcm.
    split; [exact Hs|]. split; [exact Hr|]. split; [exact Hs'|]. split; [exact Hv'|].
    intros Habsent. pose proof (legacy_v_absent _ _ _ E Habsent) as Hnone.
    specialize (Hm Hnone). split; [exact Hm|].
    apply Hrec. rewrite Hm. vm_compute. reflexivity.
  - unfold signEIP1559Tx in H. apply pure_call_inv in H as [H _]. symmetry in H.
    rinv H. rinv H. injection H as <-.
    destruct (feemarket_sign_v _ _ _ E0) as (signature & rec & Hs & Hrec & Hv & Hr & Hs').
    exists (Tx.FeeMarket.getMessageToSign x), signature, rec.
    cbn [Tx.fields_of]. auto 10.
Qed.

Lemma recovery_identifier_convention_witness :
  exists signedTx,
    signLegacyTx example_key sampleLegacyTransaction quiet = (Ok signedTx, quiet)
    /\ exists msgHash signature recoveryBit,
         Noble.signSync msgHash example_key = Ok (signature, recoveryBit)
         /\ Tx.r (Tx.fields_of signedTx) = Some (be_int (firstn 32 signature))
         /\ Tx.s (Tx.fields_of signedTx) = Some (be_int (firstn 32 (skipn 32 signature)))
         /\ match signedTx with
            | Tx.LegacyTx tx =>
                Tx.v (Tx.Legacy.fields tx)
                = Some (recoveryBit + Common.chainId (Tx.Legacy.common tx) * 2 + 35)
                /\ (sampleLegacyTransaction !! "v" = None ->
                    Common.chainId (Tx.Legacy.common tx) = Common.Mainnet
                    /\ (recoveryBit = 0 \/ recoveryBit = 1))
            | Tx.FeeMarketTx tx =>
                Tx.v (Tx.FeeMarket.fields tx) = Some recoveryBit
                /\ (recoveryBit = 0 \/ recoveryBit = 1)
            end.
Proof.
  assert (H : exists signedTx,
             signLegacyTx example_key sampleLegacyTransaction quiet = (Ok signedTx, quiet)).
  { vm_compute. eexists. reflexivity. }
  destruct H as [signedTx H]. exists signedTx. split; [exact H|].
  apply (recovery_identifier_convention example_key sampleLegacyTransaction
           quiet signedTx quiet).
  left. exact H.
Defined.

(** The legacy sample of the page names chain 3, and [signLegacyTx] signs
    it for chain 1: [v] is 37, where the chain the payload names would give
    41 or 42. *)
Lemma legacy_sample_signed_for_mainnet :
  sampleLegacyTransaction !! "chainId" = Some (Util.VNumber 3)
  /\ option_map (fun o => fst (fst (signature_of o)))
       (returned (signLegacyTx example_key sampleLegacyTransaction quiet)) = Some (Some 37)
  /\ Some 37 <> Some (0 + 3 * 2 + 35)
  /\ Some 37 <> Some (1 + 3 * 2 + 35).
Proof.
  split; [reflexivity|]. split; [vm_compute; reflexivity|]. split; discriminate.
Qed.

(** The fee-market sample is signed for the chain it names, and [v] is the
    bare bit. *)
Example sample_recovery_identifiers :
  match returned (signEIP1559Tx example_key sampleEIP1559Transaction quiet) with
  | Some (Tx.FeeMarketTx tx) =>
      (Tx.v (Tx.FeeMarket.fields tx), Common.chainId (Tx.FeeMarket.common tx))
      = (Some 1, 3)
  | _ => False
  end.
Proof. vm_compute. reflexivity. Qed.

(** ** The options object *)

Lemma legacy_fromTxData_opts td (o1 o2 : Tx.TxOptions) :
  Tx.opts_common o1 = Tx.opts_common o2 ->
  Tx.Legacy.fromTxData td o1 = Tx.Legacy.fromTxData td o2.
Proof. intros H. unfold Tx.Legacy.fromTxData. now rewrite H. Qed.

Lemma feemarket_fromTxData_opts td (o1 o2 : Tx.TxOptions) :
  Tx.opts_common o1 = Tx.opts_common o2 ->
  Tx.FeeMarket.fromTxData td o1 = Tx.FeeMarket.fromTxData td o2.
Proof. intros H. unfold Tx.FeeMarket.fromTxData. now rewrite H. Qed.

(** C10: the chain and hardfork configuration built in the signing
    functions has no effect. [signLegacyTx] stores its [Common] under the
    key [txParams] and [signEIP1559Tx] under [txOptions]; the constructors
    read the key [common], so each function returns exactly what
    constructing the transaction with an empty options object and signing
    it returns. *)
Theorem chain_configuration_ignored privKey txData w :
  signLegacyTx privKey txData w
  = pure_call
      (let* tx := Tx.Legacy.fromTxData txData ∅ in
       let* signed := Tx.Legacy.sign tx privKey in
       Ok (Tx.LegacyTx signed))%js w
  /\ signEIP1559Tx privKey txData w
     = pure_call
         (let* tx := Tx.FeeMarket.fromTxData txData ∅ in
          let* signed := Tx.FeeMarket.sign tx privKey in
          Ok (Tx.FeeMarketTx signed))%js w.
Proof.
  unfold signLegacyTx, signEIP1559Tx. split.
  - now rewrite (legacy_fromTxData_opts txData _ ∅).
  - now rewrite (feemarket_fromTxData_opts txData _ ∅).
Qed.

(** Under the key [common] the same configuration would have been read:
    the fee-market sample names chain 3 and is then refused for Mainnet. *)
Example common_key_would_be_read :
  match Tx.FeeMarket.fromTxData sampleEIP1559Transaction
          (<["common" := Tx.OCommon (Common.new Common.Mainnet Common.London)]> ∅) with
  | Ok _ => EmptyString
  | Throw msg => msg
  end = "The chain ID does not match the chain ID of Common"%string
  /\ exists tx,
       Tx.FeeMarket.fromTxData sampleEIP1559Transaction
         (<["txOptions" := Tx.OCommon (Common.new Common.Mainnet Common.London)]> ∅)
       = Ok tx
       /\ Tx.FeeMarket.chainId tx = 3.
Proof. vm_compute. split; [reflexivity | eexists; split; reflexivity]. Qed.

(** ** Payloads without fee fields *)

Lemma base_new_ext (td1 td2 : Tx.TxData) :
  Forall (fun key => td1 !! key = td2 !! key)
    ["to"; "v"; "r"; "s"; "nonce"; "gasLimit"; "value"; "data"]%string ->
  Tx.base_new td1 = Tx.base_new td2.
Proof.
  intros H. unfold Tx.base_new.
  repeat (apply Forall_cons_iff in H as [-> H]). reflexivity.
Qed.

(** C3, as the code has it: neither signing function checks the shape of
    the payload. A payload without [gasPrice] is signed by [signLegacyTx]
    exactly as the same payload with a zero [gasPrice], and a payload
    without [maxFeePerGas] and [maxPriorityFeePerGas] is signed by
    [signEIP1559Tx] exactly as with both set to zero. *)
Theorem absent_fee_fields_read_as_zero privKey (txData : Tx.TxData) w :
  signLegacyTx privKey (delete "gasPrice" txData) w
  = signLegacyTx privKey (<["gasPrice" := Util.VString "0x"]> txData) w
  /\ signEIP1559Tx privKey (delete "maxFeePerGas" (delete "maxPriorityFeePerGas" txData)) w
     = signEIP1559Tx privKey
         (<["maxFeePerGas" := Util.VString "0x"]>
            (<["maxPriorityFeePerGas" := Util.VString "0x"]> txData)) w.
Proof.
  split.
  - unfold signLegacyTx, Tx.Legacy.fromTxData.
    rewrite lookup_delete_eq, lookup_insert_eq.
    rewrite (base_new_ext (<["type":=_]> (delete "gasPrice" txData))
               (<["type":=Util.VNumber 0]> (<["gasPrice":=Util.VString "0x"]> txData)))
      by same_lookups.
    reflexivity.
  - unfold signEIP1559Tx, Tx.FeeMarket.fromTxData.
    rewrite (base_new_ext
               (<["type":=_]> (delete "maxFeePerGas" (delete "maxPriorityFeePerGas" txData)))
               (<["type":=Util.VNumber 2]>
                  (<["maxFeePerGas":=Util.VString "0x"]>
                     (<["maxPriorityFeePerGas":=Util.VString "0x"]> txData))))
      by same_lookups.
    repeat first [ rewrite lookup_delete_eq | rewrite lookup_insert_eq
                 | rewrite lookup_insert_ne by discriminate
                 | rewrite lookup_delete_ne by discriminate ].
    reflexivity.
Qed.

(** The payload without any fee field is signed by both functions: each
    call returns a signed transaction, not an error. *)
Lemma signing_without_fee_fields_succeeds :
  payload_without_fees !! "gasPrice" = None
  /\ payload_without_fees !! "maxFeePerGas" = None
  /\ payload_without_fees !! "maxPriorityFeePerGas" = None
  /\ (exists signed,
        signLegacyTx example_key payload_without_fees quiet = (Ok signed, quiet))
  /\ (exists signed,
        signEIP1559Tx example_key payload_without_fees quiet = (Ok signed, quiet))
  /\ option_map signature_of
       (returned (signLegacyTx example_key payload_without_fees quiet))
     = Some (Some 37,
             Some 11850801816960591978088137928288704049766939580583642712888149399165157680322,
             Some 38004368041919396729218191470192775594433713901613108713282844767704899288344)
  /\ option_map signature_of
       (returned (signEIP1559Tx example_key payload_without_fees quiet))
     = Some (Some 0,
             Some 67597946898629611769309164634503248745264035695571065085433365761476557443908,
             Some 41432228644441412929376829792654087218404159191935216694746711638910198695287).
Proof.
  split; [reflexivity|]. split; [reflexivity|]. split; [reflexivity|].
  split; [vm_compute; eexists; reflexivity|].
  split; [vm_compute; eexists; reflexivity|].
  split; vm_compute; reflexivity.
Qed.

(** ** The derivation path *)

Lemma derive_entry_hardened_44 hd :
  HDKey.derive_entry hd "44'"
  = HDKey.deriveChild HDKey.retries hd (44 + HDKey.HARDENED_OFFSET).
Proof. reflexivity. Qed.

Lemma derive_entry_hardened_60 hd :
  HDKey.derive_entry hd "60'"
  = HDKey.deriveChild HDKey.retries hd (60 + HDKey.HARDENED_OFFSET).
Proof. reflexivity. Qed.

Lemma derive_entry_hardened_0 hd :
  HDKey.derive_entry hd "0'"
  = HDKey.deriveChild HDKey.retries hd (0 + HDKey.HARDENED_OFFSET).
Proof. reflexivity. Qed.

Lemma derive_entry_normal_0 hd :
  HDKey.derive_entry hd "0" = HDKey.deriveChild HDKey.retries hd 0.
Proof. reflexivity. Qed.

Lemma rbind_ext {A B} (r : Result A) (k1 k2 : A -> Result B) :
  (forall a, k1 a = k2 a) -> rbind r k1 = rbind r k2.
Proof. intros H. destruct r; simpl; [apply H | reflexivity]. Qed.

Lemma derive_default_path hd :
  HDKey.derive hd "m/44'/60'/0'/0/0"
  = (let* a := HDKey.deriveChild HDKey.retries hd (44 + HDKey.HARDENED_OFFSET) in
     let* b := HDKey.deriveChild HDKey.retries a (60 + HDKey.HARDENED_OFFSET) in
     let* c := HDKey.deriveChild HDKey.retries b (0 + HDKey.HARDENED_OFFSET) in
     let* d := HDKey.deriveChild HDKey.retries c 0 in
     HDKey.deriveChild HDKey.retries d 0)%js.
Proof.
  change (HDKey.derive hd "m/44'/60'/0'/0/0")
    with (HDKey.derive_entries hd ["44'"; "60'"; "0'"; "0"; "0"]%string).
  cbn [HDKey.derive_entries].
  rewrite derive_entry_hardened_44. apply rbind_ext. intros a.
  rewrite derive_entry_hardened_60. apply rbind_ext. intros b.
  rewrite derive_entry_hardened_0. apply rbind_ext. intros c.
  rewrite derive_entry_normal_0. apply rbind_ext. intros d.
  rewrite derive_entry_normal_0. destruct (HDKey.deriveChild _ _ _); reflexivity.
Qed.

(** C7, as the code has it: [generatePrivKey] takes the mnemonic only and
    always walks the path [m/44'/60'/0'/0/0]: from the master key of the
    seed, the hardened children 44, 60 and 0, then the normal children 0
    and 0; the key it returns is the private key of the last. The path is
    not an argument. *)
Theorem generatePrivKey_fixed_path (mnemonic : string) (w : World) :
  generatePrivKey mnemonic w
  = (derive_private_key (BIP39.mnemonicToSeed mnemonic None) "m/44'/60'/0'/0/0", w)
  /\ derive_private_key (BIP39.mnemonicToSeed mnemonic None) "m/44'/60'/0'/0/0"
     = (let* master := HDKey.fromMasterSeed (BIP39.mnemonicToSeed mnemonic None) in
        let* purpose := HDKey.deriveChild HDKey.retries master (44 + HDKey.HARDENED_OFFSET) in
        let* coin := HDKey.deriveChild HDKey.retries purpose (60 + HDKey.HARDENED_OFFSET) in
        let* account := HDKey.deriveChild HDKey.retries coin (0 + HDKey.HARDENED_OFFSET) in
        let* change := HDKey.deriveChild HDKey.retries account 0 in
        let* leaf := HDKey.deriveChild HDKey.retries change 0 in
        let* wallet := Wallet.fromPrivateKey (HDKey.privateKey leaf) in
        Ok (Wallet.getPrivateKey wallet))%js.
Proof.
  split; [apply generatePrivKey_eq|].
  unfold derive_private_key, Wallet.hd_fromMasterSeed, Wallet.hd_derivePath,
    Wallet.hd_getWallet.
  apply rbind_ext. intros master. rewrite derive_default_path.
  destruct (HDKey.deriveChild HDKey.retries master _) as [purpose|]; [|reflexivity].
  cbn [rbind].
  destruct (HDKey.deriveChild HDKey.retries purpose _) as [coin|]; [|reflexivity].
  cbn [rbind].
  destruct (HDKey.deriveChild HDKey.retries coin _) as [account|]; [|reflexivity].
  cbn [rbind].
  destruct (HDKey.deriveChild HDKey.retries account 0) as [change|]; [|reflexivity].
  cbn [rbind]. reflexivity.
Qed.

(** The path [m/44'/60'/0'/0/1] is valid and has a child key of its own,
    but no call of [generatePrivKey] on the development mnemonic returns
    it: the function returns the key of [m/44'/60'/0'/0/0]. *)
Lemma generatePrivKey_other_path_unreachable :
  derive_private_key (BIP39.mnemonicToSeed example_mnemonic None) "m/44'/60'/0'/0/1"
  = Ok (Util.Buffer_from_hex
          "59c6995e998f97a5a0044966f0945389dc9e86dae88c7a8412f4603b6b78690d")
  /\ forall w,
       generatePrivKey example_mnemonic w
       = (Ok (Util.Buffer_from_hex
                "ac0974bec39a17e36ba4a6b4d238ff944bacb478cbed5efcae784d7bf4f2ff80"), w)
       /\ fst (generatePrivKey example_mnemonic w)
          <> derive_private_key (BIP39.mnemonicToSeed example_mnemonic None)
               "m/44'/60'/0'/0/1".
Proof.
  pose proof keys_of_example_seed as [H0 H1].
  rewrite <- seed_of_example_mnemonic in H0, H1.
  split; [exact H1|]. intros w. rewrite generatePrivKey_eq, H0, H1.
  split; [reflexivity|]. cbn [fst]. vm_compute. discriminate.
Qed.

(** ** Mnemonic validation *)

Lemma indexOf_None word l i :
  BIP39.indexOf word l i = None -> ~ In word l.
Proof.
  revert i. induction l as [|w l IH]; intros i H; [intros []|].
  cbn [BIP39.indexOf] in H. destruct (String.eqb w word) eqn:E; [discriminate|].
  apply String.eqb_neq in E. intros [Hw | Hin]; [contradiction|]. eapply IH; eauto.
Qed.

Lemma indexOf_Some_lt word l i k :
  BIP39.indexOf word l i = Some k -> (i <= k < i + List.length l)%nat.
Proof.
  revert i. induction l as [|w l IH]; intros i H; [discriminate|].
  cbn [BIP39.indexOf] in H. destruct (String.eqb w word).
  - injection H as <-. simpl. lia.
  - apply IH in H. simpl. lia.
Qed.

Lemma indexOf_not_In word l i :
  ~ In word l -> BIP39.indexOf word l i = None.
Proof.
  revert i. induction l as [|w l IH]; intros i H; [reflexivity|].
  cbn [BIP39.indexOf]. destruct (String.eqb w word) eqn:E.
  - apply String.eqb_eq in E. exfalso. apply H. now left.
  - apply IH. intros Hin. apply H. now right.
Qed.

Lemma words_bits_unknown wl words w :
  In w words -> ~ In w wl -> BIP39.words_bits wl words = None.
Proof.
  induction words as [|x words IH]; intros Hin Hw; [destruct Hin|].
  cbn [BIP39.words_bits]. destruct Hin as [-> | Hin].
  - now rewrite (indexOf_not_In w wl 0 Hw).
  - rewrite (IH Hin Hw). now destruct (BIP39.indexOf x wl 0).
Qed.

Lemma bits_of_length width n : List.length (BIP39.bits_of width n) = width.
Proof. unfold BIP39.bits_of. now rewrite length_map, length_rev, length_seq. Qed.

Lemma index_bits_length i : (i < 2048)%nat -> List.length (BIP39.index_bits i) = 11%nat.
Proof.
  intros H. unfold BIP39.index_bits. rewrite bits_of_length.
  apply Nat.max_l.
  destruct (Nat.eq_dec i 0%nat) as [->|Hz]; [simpl; lia|].
  assert (Z.log2 (Z.of_nat i) < 11).
  { apply Z.log2_lt_pow2; [lia|]. change (2 ^ 11) with 2048. lia. }
  lia.
Qed.

Lemma words_bits_length wl words bits :
  (List.length wl <= 2048)%nat ->
  BIP39.words_bits wl words = Some bits ->
  List.length bits = (11 * List.length words)%nat.
Proof.
  intros Hwl. revert bits. induction words as [|x words IH]; intros bits H.
  - injection H as <-. reflexivity.
  - cbn [BIP39.words_bits] in H.
    destruct (BIP39.indexOf x wl 0) as [i|] eqn:Ei; [|discriminate].
    destruct (BIP39.words_bits wl words) as [rest|]; [|discriminate].
    injection H as <-. apply indexOf_Some_lt in Ei.
    rewrite length_app, index_bits_length by lia.
    rewrite (IH rest eq_refl). simpl. lia.
Qed.

Lemma chunk8_length fuel bits k :
  List.length bits = (8 * k)%nat -> (k <= fuel)%nat ->
  List.length (BIP39.chunk8 fuel bits) = k.
Proof.
  revert bits k. induction fuel as [|fuel IH]; intros bits k Hl Hf.
  - assert (k = 0%nat) by lia. subst. reflexivity.
  - cbn [BIP39.chunk8]. destruct bits as [|b bits].
    + cbn [List.length] in *. lia.
    + destruct k as [|k]; [cbn [List.length] in Hl; lia|].
      cbn [List.length]. f_equal. apply IH; [|lia].
      rewrite length_skipn. cbn [List.length] in *. lia.
Qed.

Lemma bits_eqb_true a b : BIP39.bits_eqb a b = true -> a = b.
Proof.
  unfold BIP39.bits_eqb. intros H. apply andb_true_iff in H as [Hl Hf].
  apply Nat.eqb_eq in Hl. revert b Hl Hf.
  induction a as [|x a IH]; intros [|y b] Hl Hf; try discriminate; [reflexivity|].
  cbn in Hf. apply andb_true_iff in Hf as [Hxy Hf].
  apply Bool.eqb_prop in Hxy. subst. f_equal. apply IH; [simpl in Hl; lia | exact Hf].
Qed.

(** C6: [validateMnemonic] answers [false], and cannot throw, for a
    malformed candidate: one with a word outside the word list, with a number
    of words other than 12, 15, 18, 21 or 24, or with a wrong checksum. In
    particular it answers [false] for the seven words
    [not a real mnemonic phrase at all]. The word list is any list of at
    most 2048 words, as the standard ones are. *)
Theorem validateMnemonic_rejects_malformed (wordlist : list string) (candidate : string) :
  (List.length wordlist <= 2048)%nat ->
  malformed wordlist candidate ->
  BIP39.validateMnemonic wordlist candidate = false
  /\ BIP39.validateMnemonic wordlist "not a real mnemonic phrase at all" = false.
Proof.
  intros Hwl Hm. split; [|reflexivity].
  unfold BIP39.validateMnemonic, BIP39.mnemonicToEntropy.
  unfold malformed in Hm. cbv zeta in Hm.
  set (words := BIP39.split_space (BIP39.nfkd candidate) EmptyString) in *.
  destruct (negb (List.length words mod 3 =? 0)%nat) eqn:E3; [reflexivity|].
  destruct (BIP39.words_bits wordlist words) as [bits|] eqn:Eb; [|reflexivity].
  pose proof (words_bits_length _ _ _ Hwl Eb) as Hlen.
  apply negb_false_iff, Nat.eqb_eq in E3.
  apply Nat.Div0.mod_divides in E3 as [k Hk].
  assert (Hdiv : (List.length bits / 33 * 32 = 32 * k)%nat).
  { rewrite Hlen, Hk. replace (11 * (3 * k))%nat with (k * 33)%nat by lia.
    rewrite Nat.div_mul by lia. lia. }
  rewrite Hdiv.
  assert (Hfl : List.length (firstn (32 * k) bits) = (8 * (4 * k))%nat).
  { rewrite length_firstn, Hlen, Hk. lia. }
  rewrite length_map, (chunk8_length _ _ (4 * k)%nat) by (rewrite ?Hfl; lia).
  destruct (4 * k <? 16)%nat eqn:E16; [reflexivity|].
  destruct (32 <? 4 * k)%nat eqn:E32; [reflexivity|].
  destruct (negb ((4 * k) mod 4 =? 0)%nat); [reflexivity|].
  destruct (BIP39.bits_eqb _ _) eqn:Ec; [|reflexivity].
  exfalso. apply bits_eqb_true in Ec.
  destruct Hm as [(w & Hin & Hw) | [Hn | (bits' & Hb' & Hc)]].
  - now rewrite (words_bits_unknown _ _ _ Hin Hw) in Eb.
  - apply Hn. apply Nat.ltb_ge in E16, E32. rewrite Hk.
    assert (Hc : (k = 4 \/ k = 5 \/ k = 6 \/ k = 7 \/ k = 8)%nat) by lia.
    destruct Hc as [-> | [-> | [-> | [-> | ->]]]]; simpl; tauto.
  - injection Hb' as <-. apply Hc. rewrite Hdiv. exact Ec.
Qed.

Lemma validateMnemonic_rejects_malformed_witness :
  BIP39.validateMnemonic ["abandon"; "ability"; "able"]%string "able ability zoo" = false
  /\ BIP39.validateMnemonic ["abandon"; "ability"; "able"]%string
       "not a real mnemonic phrase at all" = false.
Proof.
  apply validateMnemonic_rejects_malformed.
  - vm_compute. lia.
  - left. exists "zoo"%string. split.
    + vm_compute. tauto.
    + intros [H | [H | [H | []]]]; discriminate H.
Defined.

(** The README's own call is rejected too, and a mnemonic with a correct
    checksum is accepted: over the two-word list, twelve times [zero] is
    not valid, while the words of sixteen zero octets are. *)
Example validateMnemonic_samples :
  BIP39.validateMnemonic ["zero"; "one"] "Enter your mnemonic here" = false
  /\ BIP39.validateMnemonic ["zero"; "one"]
       "zero zero zero zero zero zero zero zero zero zero zero zero" = false
  /\ (let* m := BIP39.entropyToMnemonic (repeat "w"%string 3 ++ ["three"]%string)
                  (repeat x00 16) in
      Ok (BIP39.validateMnemonic (repeat "w"%string 3 ++ ["three"]%string) m))%js
     = Ok true.
Proof. vm_compute. repeat split; reflexivity. Qed.

(** ** Signing and recovery *)

(** What [getSignerAddress] returns starts with the prefix twice. *)
Lemma getSignerAddress_double_prefix signedTx w address w' :
  getSignerAddress signedTx w = (Ok address, w') ->
  exists sender : Buffer,
    List.length sender = 20%nat
    /\ address = ("0x0x" ++ toString_hex sender)%string
    /\ String.length address = 44%nat.
Proof.
  unfold getSignerAddress. intros H. apply pure_call_inv in H as [H _]. symmetry in H.
  rinv H. injection H as <-.
  unfold Tx.getSenderAddress in E. rinv E. rinv E.
  unfold Util.Address_new in E. destruct (List.length x1 =? 20)%nat eqn:El; [|discriminate].
  injection E as <-. apply Nat.eqb_eq in El.
  exists x1. split; [exact El|]. unfold Util.Address_toString. cbn [Util.buf].
  split; [reflexivity|].
  rewrite !length_string_app, length_toString_hex, El. reflexivity.
Qed.

(** So it never equals an address made by [deriveEthAddress], whatever the
    key and the payload. *)
Lemma recovered_address_never_matches signedTx pubKey w1 w2 recovered derived w1' w2' :
  getSignerAddress signedTx w1 = (Ok recovered, w1') ->
  deriveEthAddress pubKey w2 = (Ok derived, w2') ->
  recovered <> derived.
Proof.
  intros H1 H2 Heq.
  apply getSignerAddress_double_prefix in H1 as (sender & _ & _ & Hlen).
  rewrite deriveEthAddress_eq in H2. injection H2 as <- _.
  rewrite Heq, length_string_app, address_hex_length in Hlen. discriminate Hlen.
Qed.

(** C1, at the sample payloads signed with the key [0x4646...46]: the
    address recovered from the signed transaction is the address derived
    from the key with [0x] in front of it a second time, so the two strings
    differ, for the legacy and for the fee-market payload alike. *)
Theorem recovered_address_of_samples :
  (do signed <- signLegacyTx example_key sampleLegacyTransaction;
   getSignerAddress signed)%js quiet
  = (Ok "0x0x9d8a62f656a8d1615c1294fd71e9cfb3e4855a4f"%string, quiet)
  /\ (do signed <- signEIP1559Tx example_key sampleEIP1559Transaction;
      getSignerAddress signed)%js quiet
     = (Ok "0x0x9d8a62f656a8d1615c1294fd71e9cfb3e4855a4f"%string, quiet)
  /\ (do pubKey <- derivePubKey example_key;
      deriveEthAddress pubKey)%js quiet
     = (Ok "0x9d8a62f656a8d1615c1294fd71e9cfb3e4855a4f"%string, quiet).
Proof. vm_compute. repeat split; reflexivity. Qed.

(** ** The page *)

Lemma derived_key_is_valid seed path key :
  derive_private_key seed path = Ok key -> HDKey.privateKeyVerify key = true.
Proof.
  unfold derive_private_key, Wallet.hd_getWallet, Wallet.fromPrivateKey. intros H.
  rinv H. rinv H.
  destruct (HDKey.privateKeyVerify (HDKey.privateKey x0)) eqn:Hv; [|discriminate H].
  cbn [rbind Wallet.getPrivateKey Wallet.privKey] in H. injection H as <-. exact Hv.
Qed.

Lemma derivePubKey_valid key w :
  HDKey.privateKeyVerify key = true ->
  derivePubKey key w = (Ok (HDKey.publicKeyCreate_raw key), w).
Proof.
  intros H. unfold derivePubKey, pure_call, Wallet.fromPrivateKey. rewrite H.
  reflexivity.
Qed.

Lemma watch_pubKey_eq val d w :
  Page.watch_pubKey val d w
  = (Ok (Page.set_recoveredAddress EmptyString
           (Page.set_ETHaddress
              ("0x" ++ toString_hex (skipn 12 (Keccak.digest val)))%string d)), w).
Proof. unfold Page.watch_pubKey, bind. rewrite deriveEthAddress_eq. reflexivity. Qed.

Lemma assign_pubKey_eq val d w :
  Page.assign_pubKey val d w
  = (Ok (Page.set_recoveredAddress EmptyString
           (Page.set_ETHaddress
              ("0x" ++ toString_hex (skipn 12 (Keccak.digest val)))%string
              (Page.set_pubKey (Page.Octets val) d))), w).
Proof. unfold Page.assign_pubKey, Page.reported. rewrite watch_pubKey_eq. reflexivity. Qed.

(** X1: assigning a new mnemonic runs the three watchers to the end or
    not at all. Either [generatePrivKey] throws, and only [mnemonic] has
    changed; or it returns a key, and then [derivePubKey] accepts that key
    and [privKey], [pubKey] and [ETHaddress] hold the key, its public key
    and the address of that public key. Assigning the value [mnemonic]
    already holds changes nothing. The world is left as it was. *)
Theorem mnemonic_cascade (val : string) (d : Page.Data) (w : World) :
  exists d',
    Page.assign_mnemonic val d w = (Ok d', w)
    /\ if String.eqb val (Page.mnemonic d) then d' = d
       else match fst (generatePrivKey val w) with
            | Throw _ => d' = Page.set_mnemonic val d
            | Ok key =>
                exists pub address,
                  derivePubKey key w = (Ok pub, w)
                  /\ deriveEthAddress pub w = (Ok address, w)
                  /\ d' = Page.set_recoveredAddress EmptyString
                            (Page.set_ETHaddress address
                               (Page.set_pubKey (Page.Octets pub)
                                  (Page.set_privKey (Page.Octets key)
                                     (Page.set_mnemonic val d))))
            end.
Proof.
  unfold Page.assign_mnemonic. destruct (String.eqb val (Page.mnemonic d)).
  - exists d. split; reflexivity.
  - unfold Page.reported, Page.watch_mnemonic, bind.
    rewrite generatePrivKey_eq. cbn [fst].
    destruct (derive_private_key _ _) as [key|msg] eqn:E.
    + pose proof (derivePubKey_valid key w (derived_key_is_valid _ _ _ E)) as Hpub.
      unfold Page.assign_privKey, Page.reported, Page.watch_privKey, bind.
      rewrite Hpub, assign_pubKey_eq.
      eexists. split; [reflexivity|].
      exists (HDKey.publicKeyCreate_raw key),
        ("0x" ++ toString_hex (skipn 12 (Keccak.digest (HDKey.publicKeyCreate_raw key))))%string.
      split; [reflexivity|]. split; [apply deriveEthAddress_eq | reflexivity].
    + eexists. split; reflexivity.
Qed.

Lemma assign_privKey_frame key d w :
  exists d',
    Page.assign_privKey key d w = (Ok d', w)
    /\ Page.mnemonic d' = Page.mnemonic d
    /\ Page.signing_fields d' = Page.signing_fields d
    /\ Page.sampleLegacyTransaction d' = Page.sampleLegacyTransaction d
    /\ Page.sampleEIP1559Transaction d' = Page.sampleEIP1559Transaction d.
Proof.
  unfold Page.assign_privKey, Page.reported, Page.watch_privKey, bind, derivePubKey, pure_call.
  destruct (rbind _ _) as [pub|msg].
  - rewrite assign_pubKey_eq. eexists. split; [reflexivity|]. repeat split.
  - eexists. split; [reflexivity|]. repeat split.
Qed.

Lemma assign_mnemonic_frame val d w :
  exists d',
    Page.assign_mnemonic val d w = (Ok d', w)
    /\ Page.mnemonic d' = val
    /\ Page.signing_fields d' = Page.signing_fields d
    /\ Page.sampleLegacyTransaction d' = Page.sampleLegacyTransaction d
    /\ Page.sampleEIP1559Transaction d' = Page.sampleEIP1559Transaction d.
Proof.
  unfold Page.assign_mnemonic. destruct (String.eqb val (Page.mnemonic d)) eqn:E.
  - apply String.eqb_eq in E. exists d. repeat split. now symmetry.
  - unfold Page.reported, Page.watch_mnemonic, bind.
    rewrite generatePrivKey_eq.
    destruct (derive_private_key _ _) as [key|msg].
    + destruct (assign_privKey_frame key (Page.set_mnemonic val d) w)
        as (d' & -> & H1 & H2 & H3 & H4).
      exists d'. repeat split; assumption.
    + eexists. split; [reflexivity|]. repeat split.
Qed.

(** A method called directly throws what the call on its right throws. *)
Lemma generateNew_throws wordlist d w msg w1 :
  generateMnemonic wordlist w = (Throw msg, w1) ->
  Page.generateNew wordlist d w = (Throw msg, w1).
Proof. intros H. unfold Page.generateNew, bind. rewrite H. reflexivity. Qed.

(** X2: a new mnemonic never clears what signing left on the page. After
    [generateNew], dispatched by Vue or called directly, and after any
    assignment to [mnemonic], the two signed samples and the two recovered
    addresses are the ones from before, also when the key and the address
    have changed: the [pubKey] watcher writes [recoveredAddress], which is
    none of them. The sample payloads stay as well. *)
Theorem recovered_addresses_outlive_the_key wordlist val (d : Page.Data) (w : World) :
  (exists d' w',
     Page.handle (Page.GenerateNew wordlist) d w = (Ok d', w')
     /\ Page.signing_fields d' = Page.signing_fields d
     /\ Page.sampleLegacyTransaction d' = Page.sampleLegacyTransaction d
     /\ Page.sampleEIP1559Transaction d' = Page.sampleEIP1559Transaction d)
  /\ (forall d' w',
        Page.generateNew wordlist d w = (Ok d', w') ->
        Page.signing_fields d' = Page.signing_fields d
        /\ Page.sampleLegacyTransaction d' = Page.sampleLegacyTransaction d
        /\ Page.sampleEIP1559Transaction d' = Page.sampleEIP1559Transaction d)
  /\ (exists d',
        Page.assign_mnemonic val d w = (Ok d', w)
        /\ Page.signing_fields d' = Page.signing_fields d
        /\ Page.sampleLegacyTransaction d' = Page.sampleLegacyTransaction d
        /\ Page.sampleEIP1559Transaction d' = Page.sampleEIP1559Transaction d).
Proof.
  split; [|split].
  - cbn [Page.handle]. unfold Page.generateNew, Page.reported, bind.
    destruct (generateMnemonic wordlist w) as [[m|msg] w1].
    + destruct (assign_mnemonic_frame m d w1) as (d' & -> & _ & H).
      exists d', w1. split; [reflexivity | exact H].
    + exists d, w1. repeat split.
  - intros d' w'. unfold Page.generateNew, bind.
    destruct (generateMnemonic wordlist w) as [[m|msg] w1].
    + destruct (assign_mnemonic_frame m d w1) as (d2 & -> & _ & H).
      intros [= <- _]. exact H.
    + intros [=].
  - destruct (assign_mnemonic_frame val d w) as (d' & H & _ & H').
    exists d'. split; assumption.
Qed.

(** X3: signing needs a key. While [privKey] does not hold 32 octets, as
    on the fresh page where it is the empty string, both signing methods
    throw to a direct caller before anything is assigned; dispatched by Vue,
    the error is reported and the data and the world are exactly as they
    were. *)
Theorem signing_without_key_changes_nothing (d : Page.Data) (w : World) :
  List.length (Page.octets (Page.privKey d)) <> 32%nat ->
  (exists msg, Page.signSampleLegacyTx d w = (Throw msg, w))
  /\ (exists msg, Page.signSampleEIP1559Tx d w = (Throw msg, w))
  /\ Page.handle Page.SignSampleLegacyTx d w = (Ok d, w)
  /\ Page.handle Page.SignSampleEIP1559Tx d w = (Ok d, w).
Proof.
  intros H. apply Nat.eqb_neq in H.
  assert (H1 : exists msg, Page.signSampleLegacyTx d w = (Throw msg, w)).
  { unfold Page.signSampleLegacyTx, bind, signLegacyTx, pure_call.
    destruct (Tx.Legacy.fromTxData _ _) as [tx|msg]; [|eexists; reflexivity].
    cbn [rbind]. unfold Tx.Legacy.sign. rewrite H. eexists. reflexivity. }
  assert (H2 : exists msg, Page.signSampleEIP1559Tx d w = (Throw msg, w)).
  { unfold Page.signSampleEIP1559Tx, bind, signEIP1559Tx, pure_call.
    destruct (Tx.FeeMarket.fromTxData _ _) as [tx|msg]; [|eexists; reflexivity].
    cbn [rbind]. unfold Tx.FeeMarket.sign. rewrite H. eexists. reflexivity. }
  split; [exact H1|]. split; [exact H2|].
  cbn [Page.handle]. unfold Page.reported.
  destruct H1 as [m1 ->]. destruct H2 as [m2 ->]. split; reflexivity.
Qed.

Lemma signing_without_key_changes_nothing_witness :
  List.length (Page.octets (Page.privKey Page.data)) <> 32%nat
  /\ (exists msg, Page.signSampleLegacyTx Page.data quiet = (Throw msg, quiet))
  /\ (exists msg, Page.signSampleEIP1559Tx Page.data quiet = (Throw msg, quiet))
  /\ Page.handle Page.SignSampleLegacyTx Page.data quiet = (Ok Page.data, quiet)
  /\ Page.handle Page.SignSampleEIP1559Tx Page.data quiet = (Ok Page.data, quiet).
Proof.
  assert (H : List.length (Page.octets (Page.privKey Page.data)) <> 32%nat)
    by (cbn; lia).
  split; [exact H|].
  exact (signing_without_key_changes_nothing Page.data quiet H).
Defined.

(** On entropy of a valid size, [entropyToMnemonic] returns the words of
    the entropy and its checksum. *)
Lemma entropyToMnemonic_eq wordlist (entropy : Buffer) :
  (16 <= List.length entropy <= 32)%nat -> (List.length entropy mod 4 = 0)%nat ->
  BIP39.entropyToMnemonic wordlist entropy
  = Ok (BIP39.join_space
          (map (fun ch => nth (BIP39.bits_value ch) wordlist EmptyString)
             (BIP39.chunk11
                (List.length (BIP39.bytesToBinary entropy
                              ++ BIP39.deriveChecksumBits entropy))
                (BIP39.bytesToBinary entropy ++ BIP39.deriveChecksumBits entropy)))).
Proof.
  intros Hl Hm. unfold BIP39.entropyToMnemonic.
  destruct (List.length entropy <? 16)%nat eqn:E1; [apply Nat.ltb_lt in E1; lia|].
  destruct (32 <? List.length entropy)%nat eqn:E2; [apply Nat.ltb_lt in E2; lia|].
  rewrite Hm. reflexivity.
Qed.

(** X4: [generateNew] draws exactly sixteen octets from the random source
    and stores the mnemonic made from them, called directly or dispatched
    by Vue; with fewer than sixteen octets left it throws to a direct
    caller, and neither the data nor the source has changed. *)
Theorem generateNew_draws_sixteen_octets wordlist (d : Page.Data) (w : World) :
  if (16 <=? List.length (entropy w))%nat
  then exists m d',
         BIP39.entropyToMnemonic wordlist (firstn 16 (entropy w)) = Ok m
         /\ Page.generateNew wordlist d w
            = (Ok d', {| entropy := skipn 16 (entropy w) |})
         /\ Page.handle (Page.GenerateNew wordlist) d w
            = (Ok d', {| entropy := skipn 16 (entropy w) |})
         /\ Page.mnemonic d' = m
  else (exists msg, Page.generateNew wordlist d w = (Throw msg, w))
       /\ Page.handle (Page.GenerateNew wordlist) d w = (Ok d, w).
Proof.
  cbn [Page.handle].
  unfold Page.reported, Page.generateNew, bind, generateMnemonic,
    BIP39.generateMnemonic, bind, randomBytes, ret, pure_call.
  destruct (16 <=? List.length (entropy w))%nat eqn:E.
  - apply Nat.leb_le in E.
    assert (Hl : List.length (firstn 16 (entropy w)) = 16%nat)
      by (rewrite length_firstn; lia).
    rewrite entropyToMnemonic_eq by (rewrite Hl; (lia || reflexivity)).
    match goal with
    | |- exists m d', Ok ?x = Ok m /\ _ =>
        destruct (assign_mnemonic_frame x d {| entropy := skipn 16 (entropy w) |})
          as (d' & Hd & H & _); exists x, d'
    end.
    rewrite Hd. repeat split. exact H.
  - split; [eexists|]; reflexivity.
Qed.

(** ** Mnemonics *)

Lemma sapp_nil_r (a : string) : (a ++ EmptyString)%string = a.
Proof. induction a as [|c a IH]; rewrite ?sapp_nil, ?sapp_cons; [reflexivity | now rewrite IH]. Qed.

Lemma split_space_word word rest cur :
  no_space word = true ->
  BIP39.split_space (word ++ rest) cur = BIP39.split_space rest (cur ++ word).
Proof.
  unfold no_space. revert cur. induction word as [|c word IH]; intros cur H.
  - now rewrite sapp_nil, sapp_nil_r.
  - cbn [all_chars] in H. apply andb_true_iff in H as [Hc Hw].
    rewrite sapp_cons. cbn [BIP39.split_space].
    destruct (Ascii.eqb c " "); [discriminate Hc|].
    rewrite IH by exact Hw. f_equal.
    now rewrite string_app_assoc, sapp_cons, sapp_nil.
Qed.

Lemma split_join_space words :
  Forall (fun word => no_space word = true) words -> words <> [] ->
  BIP39.split_space (BIP39.join_space words) EmptyString = words.
Proof.
  induction words as [|word words IH]; intros H Hne; [contradiction|].
  apply Forall_cons_iff in H as [Hw H].
  destruct words as [|word2 words].
  - cbn [BIP39.join_space]. rewrite <- (sapp_nil_r word) at 1.
    rewrite split_space_word by exact Hw. now rewrite sapp_nil.
  - change (BIP39.join_space (word :: word2 :: words))
      with (word ++ " " ++ BIP39.join_space (word2 :: words))%string.
    rewrite split_space_word by exact Hw. rewrite sapp_nil.
    change (" " ++ BIP39.join_space (word2 :: words))%string
      with (String " " (BIP39.join_space (word2 :: words))).
    cbn [BIP39.split_space]. change (Ascii.eqb " " " ") with true. cbv iota.
    f_equal. apply IH; [exact H | discriminate].
Qed.

Lemma chunk11_spec k fuel bits :
  List.length bits = (11 * k)%nat -> (k <= fuel)%nat ->
  concat (BIP39.chunk11 fuel bits) = bits
  /\ Forall (fun ch => List.length ch = 11%nat) (BIP39.chunk11 fuel bits)
  /\ List.length (BIP39.chunk11 fuel bits) = k.
Proof.
  revert fuel bits. induction k as [|k IH]; intros fuel bits Hl Hf.
  - destruct bits; [|discriminate Hl]. destruct fuel; repeat split; constructor.
  - destruct fuel as [|fuel]; [lia|]. cbn [BIP39.chunk11].
    destruct bits as [|b bits]; [discriminate Hl|].
    destruct (IH fuel (skipn 11 (b :: bits))) as (H1 & H2 & H3).
    + rewrite length_skipn, Hl. lia.
    + lia.
    + cbn [concat List.length]. rewrite H1, H3, firstn_skipn. repeat split.
      constructor; [|exact H2]. rewrite length_firstn, Hl. lia.
Qed.

Lemma bits_value_snoc bits b :
  BIP39.bits_value (bits ++ [b])
  = (2 * BIP39.bits_value bits + (if b then 1 else 0))%nat.
Proof. unfold BIP39.bits_value. now rewrite fold_left_app. Qed.

Lemma bits_value_bound bits : (BIP39.bits_value bits < 2 ^ List.length bits)%nat.
Proof.
  induction bits as [|b bits IH] using rev_ind; [cbn; lia|].
  rewrite bits_value_snoc, length_app, Nat.add_1_r, Nat.pow_succ_r'.
  destruct b; lia.
Qed.

Lemma bits_of_succ width n :
  BIP39.bits_of (S width) n = BIP39.bits_of width (n / 2) ++ [Z.odd n].
Proof.
  unfold BIP39.bits_of. rewrite <- cons_seq, <- seq_shift.
  cbn [rev]. rewrite map_app, <- map_rev, map_map. cbn [map].
  f_equal. apply map_ext. intros i. rewrite Nat2Z.inj_succ.
  symmetry. apply Z.div2_bits. lia.
Qed.

Lemma bits_of_value bits :
  BIP39.bits_of (List.length bits) (Z.of_nat (BIP39.bits_value bits)) = bits.
Proof.
  induction bits as [|b bits IH] using rev_ind; [reflexivity|].
  rewrite length_app, Nat.add_1_r, bits_of_succ, bits_value_snoc.
  set (v := BIP39.bits_value bits) in *.
  replace (Z.of_nat (2 * v + (if b then 1 else 0)))
    with (2 * Z.of_nat v + (if b then 1 else 0)) by (destruct b; lia).
  f_equal.
  - rewrite <- IH at 2. f_equal. symmetry.
    apply (Z.div_unique _ 2 _ (if b then 1 else 0)); [destruct b; lia | reflexivity].
  - f_equal. destruct b.
    + rewrite Z.add_comm, Z.odd_add_mul_2. reflexivity.
    + rewrite Z.add_0_r, Z.odd_mul. reflexivity.
Qed.

Lemma indexOf_nth word_default l i j :
  NoDup l -> (i < List.length l)%nat ->
  BIP39.indexOf (nth i l word_default) l j = Some (j + i)%nat.
Proof.
  intros Hnd. revert i j. induction Hnd as [|w l Hnin Hnd IH]; intros i j Hi.
  - cbn in Hi. lia.
  - destruct i as [|i]; cbn [nth BIP39.indexOf].
    + rewrite String.eqb_refl. f_equal. lia.
    + destruct (String.eqb w (nth i l word_default)) eqn:E.
      * apply String.eqb_eq in E. exfalso. apply Hnin. rewrite E.
        apply list_elem_of_In, nth_In. cbn in Hi. lia.
      * rewrite IH by (cbn in Hi; lia). f_equal. lia.
Qed.

Lemma words_bits_generated wordlist chunks :
  List.length wordlist = 2048%nat -> NoDup wordlist ->
  Forall (fun ch => List.length ch = 11%nat) chunks ->
  BIP39.words_bits wordlist
    (map (fun ch => nth (BIP39.bits_value ch) wordlist EmptyString) chunks)
  = Some (concat chunks).
Proof.
  intros Hl Hnd. induction 1 as [|ch chunks Hch _ IH]; [reflexivity|].
  cbn [map BIP39.words_bits concat].
  assert (Hv : (BIP39.bits_value ch < 2048)%nat).
  { pose proof (bits_value_bound ch) as Hb. rewrite Hch in Hb. exact Hb. }
  rewrite (indexOf_nth EmptyString wordlist _ 0%nat); [|exact Hnd|rewrite Hl; exact Hv].
  rewrite IH. cbn [Nat.add]. do 2 f_equal.
  unfold BIP39.index_bits.
  replace (Nat.max 11 _) with (List.length ch).
  - apply bits_of_value.
  - rewrite Hch. symmetry. apply Nat.max_l.
    generalize dependent (BIP39.bits_value ch). intros i Hi.
    destruct (Nat.eq_dec i 0%nat) as [->|Hz]; [simpl; lia|].
    assert (Z.log2 (Z.of_nat i) < 11).
    { apply Z.log2_lt_pow2; [lia|]. change (2 ^ 11) with 2048. lia. }
    lia.
Qed.

Lemma binaryToByte_bits b : BIP39.binaryToByte (BIP39.bits_of 8 (byte_to_Z b)) = b.
Proof. destruct b; reflexivity. Qed.

Lemma bytesToBinary_length bs :
  List.length (BIP39.bytesToBinary bs) = (8 * List.length bs)%nat.
Proof.
  unfold BIP39.bytesToBinary. apply flat_map_length_const.
  intros b. apply bits_of_length.
Qed.

Lemma chunk8_bytes bs fuel :
  (List.length bs <= fuel)%nat ->
  map BIP39.binaryToByte (BIP39.chunk8 fuel (BIP39.bytesToBinary bs)) = bs.
Proof.
  revert fuel. induction bs as [|b bs IH]; intros fuel Hf.
  - destruct fuel; reflexivity.
  - destruct fuel as [|fuel]; [cbn in Hf; lia|].
    change (BIP39.bytesToBinary (b :: bs))
      with (BIP39.bits_of 8 (byte_to_Z b) ++ BIP39.bytesToBinary bs).
    pose proof (bits_of_length 8 (byte_to_Z b)) as Hl.
    cbn [BIP39.chunk8].
    destruct (BIP39.bits_of 8 (byte_to_Z b) ++ BIP39.bytesToBinary bs) as [|x l] eqn:E.
    + apply (f_equal (@List.length bool)) in E. rewrite length_app, Hl in E. discriminate E.
    + rewrite <- E. cbn [map].
      rewrite firstn_app, Hl, Nat.sub_diag, firstn_O, app_nil_r.
      rewrite firstn_all2 by lia.
      rewrite skipn_app, Hl, Nat.sub_diag, skipn_O.
      rewrite skipn_all2 by lia. rewrite app_nil_l.
      rewrite binaryToByte_bits, IH by (cbn in Hf; lia). reflexivity.
Qed.

Lemma bits_eqb_refl bits : BIP39.bits_eqb bits bits = true.
Proof.
  unfold BIP39.bits_eqb. rewrite Nat.eqb_refl. cbn [andb].
  induction bits as [|b bits IH]; [reflexivity|].
  cbn [combine forallb fst snd]. now rewrite Bool.eqb_reflx, IH.
Qed.


Lemma checksum_length (entropy : Buffer) k :
  (k <= 8)%nat -> List.length entropy = (4 * k)%nat ->
  List.length (BIP39.deriveChecksumBits entropy) = k.
Proof.
  intros Hk Hl. unfold BIP39.deriveChecksumBits.
  rewrite length_firstn, bytesToBinary_length, sha256_length, Hl.
  replace (4 * k * 8)%nat with (k * 32)%nat by lia.
  rewrite Nat.div_mul by lia. lia.
Qed.

(** The words [entropyToMnemonic] joins: three for every four octets, all
    from the list. *)
Lemma entropyToMnemonic_words wordlist (entropy : Buffer) k :
  proper_wordlist wordlist ->
  (4 <= k <= 8)%nat -> List.length entropy = (4 * k)%nat ->
  exists words,
    BIP39.entropyToMnemonic wordlist entropy = Ok (BIP39.join_space words)
    /\ List.length words = (3 * k)%nat
    /\ Forall (fun word => In word wordlist) words
    /\ BIP39.words_bits wordlist words
       = Some (BIP39.bytesToBinary entropy ++ BIP39.deriveChecksumBits entropy).
Proof.
  intros (Hl & Hnd & _) Hk He.
  rewrite entropyToMnemonic_eq;
    [| rewrite He; lia | now rewrite He, Nat.mul_comm, Nat.Div0.mod_mul].
  set (bits := BIP39.bytesToBinary entropy ++ BIP39.deriveChecksumBits entropy).
  assert (Hb : List.length bits = (11 * (3 * k))%nat).
  { unfold bits. rewrite length_app, bytesToBinary_length, (checksum_length _ k) by (assumption || lia).
    lia. }
  destruct (chunk11_spec (3 * k) (List.length bits) bits Hb) as (H1 & H2 & H3); [lia|].
  eexists. split; [reflexivity|]. split; [now rewrite length_map|]. split.
  - apply Forall_map. eapply Forall_impl; [exact H2|]. intros ch Hch. cbn beta.
    apply nth_In. pose proof (bits_value_bound ch) as Hv. rewrite Hch in Hv.
    rewrite Hl. exact Hv.
  - rewrite words_bits_generated by assumption. now rewrite H1.
Qed.

Lemma words_of_list_no_space wordlist words :
  Forall (fun word => no_space word = true) wordlist ->
  Forall (fun word => In word wordlist) words ->
  Forall (fun word => no_space word = true) words.
Proof.
  intros Hsp Hin. eapply Forall_impl; [exact Hin|]. intros word Hw. cbn beta in *.
  rewrite Forall_forall in Hsp. apply Hsp, list_elem_of_In, Hw.
Qed.

Lemma mnemonicToEntropy_words wordlist words (entropy : Buffer) k :
  Forall (fun word => no_space word = true) words ->
  (4 <= k <= 8)%nat -> List.length entropy = (4 * k)%nat ->
  List.length words = (3 * k)%nat ->
  BIP39.words_bits wordlist words
  = Some (BIP39.bytesToBinary entropy ++ BIP39.deriveChecksumBits entropy) ->
  BIP39.mnemonicToEntropy wordlist (BIP39.join_space words) = Ok entropy.
Proof.
  intros Hsp Hk He Hw Hbits. unfold BIP39.mnemonicToEntropy, BIP39.nfkd.
  rewrite split_join_space; [|exact Hsp | intros ->; cbn in Hw; lia].
  rewrite Hw, Nat.mul_comm, Nat.Div0.mod_mul. cbn [Nat.eqb negb].
  rewrite Hbits.
  assert (Hc := checksum_length entropy k ltac:(lia) He).
  assert (Hd : (List.length (BIP39.bytesToBinary entropy ++ BIP39.deriveChecksumBits entropy)
                / 33 * 32 = List.length (BIP39.bytesToBinary entropy))%nat).
  { rewrite length_app, bytesToBinary_length, Hc, He.
    replace (8 * (4 * k) + k)%nat with (k * 33)%nat by lia.
    rewrite Nat.div_mul by lia. lia. }
  rewrite Hd.
  rewrite firstn_app, Nat.sub_diag, firstn_O, app_nil_r, firstn_all.
  rewrite skipn_app, Nat.sub_diag, skipn_O, skipn_all, app_nil_l.
  rewrite chunk8_bytes by (rewrite bytesToBinary_length; lia).
  destruct (List.length entropy <? 16)%nat eqn:E1; [apply Nat.ltb_lt in E1; lia|].
  destruct (32 <? List.length entropy)%nat eqn:E2; [apply Nat.ltb_lt in E2; lia|].
  rewrite He, Nat.mul_comm, Nat.Div0.mod_mul. cbn [Nat.eqb negb].
  now rewrite bits_eqb_refl.
Qed.


(** Entropy of another size is refused. *)
Example entropyToMnemonic_invalid_sizes :
  BIP39.entropyToMnemonic stand_in_wordlist (repeat x2a 12) = Throw "Invalid entropy"
  /\ BIP39.entropyToMnemonic stand_in_wordlist (repeat x2a 18) = Throw "Invalid entropy"
  /\ BIP39.entropyToMnemonic stand_in_wordlist (repeat x2a 36) = Throw "Invalid entropy".
Proof. repeat split; reflexivity. Qed.

Lemma letters_length i : String.length (letters i) = i.
Proof.
  unfold letters. induction i as [|i IH]; [reflexivity|].
  cbn [repeat string_of_list_ascii String.length]. now rewrite IH.
Qed.

Lemma letters_no_space i : no_space (letters i) = true.
Proof.
  unfold letters, no_space. induction i as [|i IH]; [reflexivity|].
  cbn [repeat string_of_list_ascii all_chars]. rewrite IH. reflexivity.
Qed.

Lemma stand_in_wordlist_proper : proper_wordlist stand_in_wordlist.
Proof.
  unfold proper_wordlist, stand_in_wordlist. split; [|split].
  - now rewrite length_map, length_seq.
  - apply (NoDup_fmap_2_strong letters (seq 0 2048)); [|apply NoDup_seq].
    intros i j _ _ H. apply (f_equal String.length) in H.
    now rewrite !letters_length in H.
  - apply Forall_map, Forall_forall. intros i _. apply letters_no_space.
Qed.


(** X6: [generateMnemonic] turns sixteen random octets into twelve words
    of the word list, joined by single spaces, and what it returns is a
    valid mnemonic. It takes exactly those sixteen octets from the random
    source. *)
Theorem generateMnemonic_valid_twelve_words (wordlist : list string) (w : World) :
  proper_wordlist wordlist ->
  (16 <= List.length (entropy w))%nat ->
  exists words,
    generateMnemonic wordlist w
    = (Ok (BIP39.join_space words), {| entropy := skipn 16 (entropy w) |})
    /\ List.length words = 12%nat
    /\ Forall (fun word => In word wordlist) words
    /\ BIP39.split_space (BIP39.join_space words) EmptyString = words
    /\ BIP39.validateMnemonic wordlist (BIP39.join_space words) = true.
Proof.
  intros Hwl Hw.
  assert (He : List.length (firstn 16 (entropy w)) = (4 * 4)%nat)
    by (rewrite length_firstn; lia).
  destruct (entropyToMnemonic_words wordlist _ 4 Hwl ltac:(lia) He)
    as (words & Hm & Hn & Hin & Hbits).
  assert (Hsp : Forall (fun word => no_space word = true) words).
  { destruct Hwl as (_ & _ & Hsp). exact (words_of_list_no_space _ _ Hsp Hin). }
  exists words. split; [|split; [exact Hn|split; [exact Hin|split]]].
  - unfold generateMnemonic, BIP39.generateMnemonic, bind, randomBytes, pure_call.
    apply Nat.leb_le in Hw. rewrite Hw, Hm. reflexivity.
  - apply split_join_space; [exact Hsp | intros ->; discriminate Hn].
  - unfold BIP39.validateMnemonic.
    now rewrite (mnemonicToEntropy_words wordlist words _ 4 Hsp ltac:(lia) He Hn Hbits).
Qed.

Lemma generateMnemonic_valid_twelve_words_witness :
  exists words,
    generateMnemonic stand_in_wordlist {| entropy := repeat x2a 20 |}
    = (Ok (BIP39.join_space words), {| entropy := repeat x2a 4 |})
    /\ List.length words = 12%nat
    /\ Forall (fun word => In word stand_in_wordlist) words
    /\ BIP39.split_space (BIP39.join_space words) EmptyString = words
    /\ BIP39.validateMnemonic stand_in_wordlist (BIP39.join_space words) = true.
Proof.
  apply (generateMnemonic_valid_twelve_words stand_in_wordlist
           {| entropy := repeat x2a 20 |}).
  - exact stand_in_wordlist_proper.
  - cbn. lia.
Defined.

(** ** The range of [r] and [s] *)

Lemma be_int_be_bytes n x : 0 <= x -> be_int (be_bytes n x) = x mod 256 ^ Z.of_nat n.
Proof.
  intros Hx. induction n as [|n IH].
  - cbn. now rewrite Z.mod_1_r.
  - cbn [be_bytes]. rewrite be_int_cons, be_bytes_length, IH, byte_to_of_Z.
    change 255 with (Z.ones 8). rewrite Z.land_ones, Z.shiftr_div_pow2 by lia.
    rewrite Nat2Z.inj_succ, Z.pow_succ_r by lia.
    replace (2 ^ (8 * Z.of_nat n)) with (256 ^ Z.of_nat n)
      by (change 256 with (2 ^ 8); rewrite <- Z.pow_mul_r by lia; reflexivity).
    change (2 ^ 8) with 256.
    assert (Hp : 0 < 256 ^ Z.of_nat n) by (apply Z.pow_pos_nonneg; lia).
    rewrite (Z.mul_comm 256), Z.rem_mul_r by lia. lia.
Qed.

Lemma kmd2sig_range kBytes m d sg :
  Noble.kmd2sig kBytes m d = Some sg ->
  0 < Noble.sig_r sg < Secp256k1.n /\ 0 < Noble.sig_s sg < Secp256k1.n.
Proof.
  assert (Hn : 0 < Secp256k1.n) by (vm_compute; reflexivity).
  unfold Noble.kmd2sig.
  destruct (negb _); [discriminate|].
  destruct (Secp256k1.point_mul _ _) as [[qx qy]|]; [|discriminate].
  destruct (_ =? 0) eqn:Er; [discriminate|].
  match goal with
  | |- (if ?c then _ else _) = _ -> _ => destruct c eqn:Es; [discriminate|]
  end.
  intros [= <-]. cbn [Noble.sig_r Noble.sig_s].
  apply Z.eqb_neq in Er, Es.
  set (r := qx mod Secp256k1.n) in *.
  assert (Hr : 0 <= r < Secp256k1.n) by (apply Z.mod_pos_bound; exact Hn).
  clearbody r.
  set (s := (_ * _) mod Secp256k1.n) in *.
  assert (Hs : 0 <= s < Secp256k1.n) by (apply Z.mod_pos_bound; exact Hn).
  clearbody s.
  generalize dependent Secp256k1.n. intros. lia.
Qed.

Lemma sign_loop_range fuel dr m x sg :
  Noble.sign_loop fuel dr m x = Ok sg ->
  0 < Noble.sig_r sg < Secp256k1.n /\ 0 < Noble.sig_s sg < Secp256k1.n.
Proof.
  revert dr. induction fuel as [|fuel IH]; intros dr; cbn [Noble.sign_loop]; [discriminate|].
  destruct (Noble.generate dr) as [kBytes d'].
  destruct (Noble.kmd2sig kBytes m x) as [sg'|] eqn:E.
  - intros [= <-]. eapply kmd2sig_range, E.
  - apply IH.
Qed.

Lemma finalizeSig_range sg :
  0 < Noble.sig_r sg < Secp256k1.n /\ 0 < Noble.sig_s sg < Secp256k1.n ->
  0 < Noble.sig_r (Noble.finalizeSig sg) < Secp256k1.n
  /\ 0 < Noble.sig_s (Noble.finalizeSig sg) <= Secp256k1.n / 2.
Proof.
  assert (Hh : Noble.half_n = Secp256k1.n / 2) by (vm_compute; reflexivity).
  assert (Hn : Secp256k1.n = 2 * (Secp256k1.n / 2) + 1) by (vm_compute; reflexivity).
  unfold Noble.finalizeSig. rewrite Hh.
  generalize dependent (Secp256k1.n / 2). intros h _ Hn.
  generalize dependent Secp256k1.n. intros n Hn H.
  destruct (h <? Noble.sig_s sg) eqn:E;
    [apply Z.ltb_lt in E | apply Z.ltb_ge in E]; cbn [Noble.sig_r Noble.sig_s]; lia.
Qed.

Lemma signSync_range msgHash privateKey signature rec :
  Noble.signSync msgHash privateKey = Ok (signature, rec) ->
  0 < be_int (firstn 32 signature) < Secp256k1.n
  /\ 0 < be_int (firstn 32 (skipn 32 signature)) <= Secp256k1.n / 2.
Proof.
  unfold Noble.signSync.
  destruct (negb (_ =? 32)%nat); [discriminate|].
  destruct (negb (Secp256k1.valid_private _)); [discriminate|].
  intros H. rinv H. cbv zeta in H.
  apply sign_loop_range, finalizeSig_range in E.
  remember (Noble.finalizeSig x) as sg eqn:Hsg. clear Hsg.
  assert (Hr : be_int (be_bytes 32 (Noble.sig_r sg)) = Noble.sig_r sg
               /\ be_int (be_bytes 32 (Noble.sig_s sg)) = Noble.sig_s sg).
  { rewrite !be_int_be_bytes by lia.
    assert (Hb : Secp256k1.n < 256 ^ Z.of_nat 32) by (vm_compute; reflexivity).
    assert (Hh : Secp256k1.n / 2 < Secp256k1.n) by (vm_compute; reflexivity).
    generalize dependent (256 ^ Z.of_nat 32). intros b Hb.
    generalize dependent (Secp256k1.n / 2). intros h E Hh.
    generalize dependent Secp256k1.n. intros n E Hb Hh.
    rewrite !Z.mod_small by lia. split; reflexivity. }
  destruct Hr as [Hr Hs].
  pose proof (be_bytes_length 32 (Noble.sig_r sg)) as Hlr.
  pose proof (be_bytes_length 32 (Noble.sig_s sg)) as Hls.
  remember (be_bytes 32 (Noble.sig_r sg)) as a eqn:Ha. clear Ha.
  remember (be_bytes 32 (Noble.sig_s sg)) as b eqn:Hb. clear Hb.
  injection H as <- _.
  rewrite firstn_app, Hlr, Nat.sub_diag, firstn_O, app_nil_r.
  rewrite skipn_app, Hlr, Nat.sub_diag, skipn_O.
  rewrite (firstn_all2 (n := 32) a) by lia.
  rewrite (skipn_all2 (n := 32) a) by lia.
  rewrite app_nil_l, (firstn_all2 (n := 32) b) by lia.
  rewrite Hr, Hs. exact E.
Qed.

(** X8: every signature the page's signing functions produce is in
    canonical form. Whenever [signLegacyTx] or [signEIP1559Tx] returns, the
    [r] of the signed transaction lies strictly between 0 and the group
    order, and its [s] strictly above 0 and at most half the group order
    (the low-[s] rule of EIP-2). *)
Theorem signatures_are_canonical privKey txData w signedTx w' :
  signLegacyTx privKey txData w = (Ok signedTx, w')
  \/ signEIP1559Tx privKey txData w = (Ok signedTx, w') ->
  exists r s,
    Tx.r (Tx.fields_of signedTx) = Some r
    /\ Tx.s (Tx.fields_of signedTx) = Some s
    /\ 0 < r < Secp256k1.n
    /\ 0 < s <= Tx.SECP256K1_ORDER_DIV_2.
Proof.
  unfold Tx.SECP256K1_ORDER_DIV_2. intros [H | H].
  - unfold signLegacyTx in H. apply pure_call_inv in H as [H _]. symmetry in H.
    rinv H. rinv H. injection H as <-.
    pose proof (legacy_fromTxData_inv _ _ _ E) as [_ Hv].
    assert (Hoc : Tx.opts_common
                    (<["txParams" := Tx.OCommon (Common.new Common.Mainnet Common.Istanbul)]> ∅)
                  = None) by reflexivity.
    rewrite Hoc in Hv. apply validateTxV_default in Hv as (Hhf & Hc & _).
    destruct (legacy_sign_v _ _ _ E0 Hhf Hc)
      as (signature & rec & Hs & _ & _ & _ & _ & Hr & Hs').
    apply signSync_range in Hs as [H1 H2].
    cbn [Tx.fields_of]. eauto 10.
  - unfold signEIP1559Tx in H. apply pure_call_inv in H as [H _]. symmetry in H.
    rinv H. rinv H. injection H as <-.
    destruct (feemarket_sign_v _ _ _ E0) as (signature & rec & Hs & _ & _ & Hr & Hs').
    apply signSync_range in Hs as [H1 H2].
    cbn [Tx.fields_of]. eauto 10.
Qed.

Lemma signatures_are_canonical_witness :
  exists signedTx r s,
    signEIP1559Tx example_key sampleEIP1559Transaction quiet = (Ok signedTx, quiet)
    /\ Tx.r (Tx.fields_of signedTx) = Some r
    /\ Tx.s (Tx.fields_of signedTx) = Some s
    /\ 0 < r < Secp256k1.n
    /\ 0 < s <= Tx.SECP256K1_ORDER_DIV_2.
Proof.
  assert (H : exists signedTx,
             signEIP1559Tx example_key sampleEIP1559Transaction quiet = (Ok signedTx, quiet)).
  { vm_compute. eexists. reflexivity. }
  destruct H as [signedTx H]. exists signedTx.
  destruct (signatures_are_canonical example_key sampleEIP1559Transaction
              quiet signedTx quiet (or_intror H)) as (r & s & Hr).
  exists r, s. split; [exact H | exact Hr].
Defined.

(** ** The nonce of a signature *)

(** The generator of the signer, seeded with key and hash, is in the state
    that RFC 6979 prescribes before the first candidate. *)
Lemma reseed_start seed :
  seed <> [] ->
  Noble.reseed Noble.drbg_init seed
  = {| Noble.dk := fst (RFC6979.start seed); Noble.dv := snd (RFC6979.start seed) |}.
Proof.
  intros H. destruct seed as [|b seed]; [contradiction|].
  unfold Noble.reseed, RFC6979.start, Noble.drbg_init.
  cbv beta zeta iota delta [fst snd Noble.dk Noble.dv]. reflexivity.
Qed.

Lemma candidate_eq seed i :
  RFC6979.candidate seed i
  = HMAC.hmac_sha256 (fst (RFC6979.KV seed i)) (snd (RFC6979.KV seed i)).
Proof. unfold RFC6979.candidate. destruct (RFC6979.KV seed i). reflexivity. Qed.

Lemma reseed_next seed i :
  Noble.reseed {| Noble.dk := fst (RFC6979.KV seed i);
                  Noble.dv := RFC6979.candidate seed i |} []
  = {| Noble.dk := fst (RFC6979.KV seed (S i)); Noble.dv := snd (RFC6979.KV seed (S i)) |}.
Proof.
  rewrite candidate_eq. cbn [RFC6979.KV]. destruct (RFC6979.KV seed i) as [K V].
  reflexivity.
Qed.

(** The loop of the signer takes the first candidate of RFC 6979 that
    gives a signature. *)
Lemma sign_loop_nonce seed m x fuel : forall i sg,
  Noble.sign_loop fuel {| Noble.dk := fst (RFC6979.KV seed i);
                          Noble.dv := snd (RFC6979.KV seed i) |} m x = Ok sg ->
  exists j,
    (i <= j < i + fuel)%nat
    /\ Noble.kmd2sig (RFC6979.candidate seed j) m x = Some sg
    /\ forall l, (i <= l < j)%nat -> Noble.kmd2sig (RFC6979.candidate seed l) m x = None.
Proof.
  induction fuel as [|fuel IH]; intros i sg; cbn [Noble.sign_loop]; [discriminate|].
  unfold Noble.generate. cbn [Noble.dk Noble.dv]. rewrite <- candidate_eq.
  destruct (Noble.kmd2sig (RFC6979.candidate seed i) m x) as [sg'|] eqn:E.
  - intros [= <-]. exists i. split; [lia|]. split; [exact E|]. intros l Hl. lia.
  - rewrite reseed_next. intros H. apply IH in H as (j & Hj & Hs & Hl).
    exists j. split; [lia|]. split; [exact Hs|]. intros l Hl'.
    destruct (Nat.eq_dec l i) as [->|Hne]; [exact E | apply Hl; lia].
Qed.

(** An accepted candidate [k] gives [r = x(k G) mod n] and
    [s = (m + d r) / k mod n]. *)
Lemma kmd2sig_nonce kBytes m d sg :
  Noble.kmd2sig kBytes m d = Some sg ->
  0 < be_int kBytes < Secp256k1.n
  /\ exists qx qy,
       Secp256k1.point_mul (be_int kBytes) Secp256k1.G = Some (qx, qy)
       /\ Noble.sig_r sg = qx mod Secp256k1.n
       /\ Noble.sig_s sg
          = (Secp256k1.inv_n (be_int kBytes)
             * ((m + d * (qx mod Secp256k1.n)) mod Secp256k1.n)) mod Secp256k1.n.
Proof.
  unfold Noble.kmd2sig.
  destruct (Secp256k1.valid_private (be_int kBytes)) eqn:Ev; [|discriminate].
  cbn [negb].
  destruct (Secp256k1.point_mul _ _) as [[qx qy]|]; [|discriminate].
  destruct (_ =? 0) eqn:Er; [discriminate|].
  match goal with
  | |- (if ?c then _ else _) = _ -> _ => destruct c eqn:Es; [discriminate|]
  end.
  intros [= <-]. cbn [Noble.sig_r Noble.sig_s]. clear Er Es.
  split.
  - unfold Secp256k1.valid_private in Ev. apply andb_true_iff in Ev as [H1 H2].
    apply Z.ltb_lt in H1, H2. split; assumption.
  - exists qx, qy. repeat split.
Qed.

(** What [signSync] returns was made with the first accepted candidate;
    [s] is brought to its low form. *)
Lemma signSync_nonce msgHash privateKey signature rec :
  Noble.signSync msgHash privateKey = Ok (signature, rec) ->
  exists i qx qy,
    let d := be_int privateKey in
    let h := be_int (firstn 32 msgHash) mod Secp256k1.n in
    let seed := be_bytes 32 d ++ be_bytes 32 h in
    let k := be_int (RFC6979.candidate seed i) in
    let s := (Secp256k1.inv_n k * ((h + d * (qx mod Secp256k1.n)) mod Secp256k1.n))
             mod Secp256k1.n in
    (i < 1000)%nat
    /\ (forall j, (j < i)%nat -> Noble.kmd2sig (RFC6979.candidate seed j) h d = None)
    /\ 0 < k < Secp256k1.n
    /\ Secp256k1.point_mul k Secp256k1.G = Some (qx, qy)
    /\ be_int (firstn 32 signature) = qx mod Secp256k1.n
    /\ be_int (firstn 32 (skipn 32 signature))
       = (if Noble.half_n <? s then Secp256k1.n - s else s).
Proof.
  unfold Noble.signSync.
  destruct (negb (_ =? 32)%nat); [discriminate|].
  destruct (negb (Secp256k1.valid_private _)); [discriminate|].
  intros H. rinv H. cbv zeta in H.
  pose proof (finalizeSig_range _ (sign_loop_range _ _ _ _ _ E)) as Hrange.
  rewrite reseed_start in E
    by (intros Hnil; apply (f_equal (@List.length byte)) in Hnil;
        rewrite length_app, !be_bytes_length in Hnil; discriminate Hnil).
  change (RFC6979.start ?s) with (RFC6979.KV s 0) in E.
  apply sign_loop_nonce in E as (i & Hi & Hk & Hl).
  apply kmd2sig_nonce in Hk as (Hv & qx & qy & Hq & Hr & Hs).
  assert (Hfr : Noble.sig_r (Noble.finalizeSig x) = Noble.sig_r x)
    by (unfold Noble.finalizeSig; destruct (_ <? _); reflexivity).
  assert (Hfs : Noble.sig_s (Noble.finalizeSig x)
                = if Noble.half_n <? Noble.sig_s x
                  then Secp256k1.n - Noble.sig_s x else Noble.sig_s x)
    by (unfold Noble.finalizeSig; destruct (_ <? _); reflexivity).
  rewrite Hr in Hfr. rewrite Hs in Hfs. clear Hr Hs.
  remember (Noble.finalizeSig x) as sg eqn:Hsg. clear Hsg.
  assert (Hb : be_int (be_bytes 32 (Noble.sig_r sg)) = Noble.sig_r sg
               /\ be_int (be_bytes 32 (Noble.sig_s sg)) = Noble.sig_s sg).
  { rewrite !be_int_be_bytes by lia.
    assert (Hb : Secp256k1.n < 256 ^ Z.of_nat 32) by (vm_compute; reflexivity).
    assert (Hh : Secp256k1.n / 2 < Secp256k1.n) by (vm_compute; reflexivity).
    clear Hfr Hfs Hv Hq Hl.
    generalize dependent (256 ^ Z.of_nat 32). intros b Hb.
    generalize dependent (Secp256k1.n / 2). intros h' Hrange Hh.
    generalize dependent Secp256k1.n. intros n Hrange Hb Hh.
    rewrite !Z.mod_small by lia. split; reflexivity. }
  destruct Hb as [Hbr Hbs].
  pose proof (be_bytes_length 32 (Noble.sig_r sg)) as Hlr.
  pose proof (be_bytes_length 32 (Noble.sig_s sg)) as Hls.
  remember (be_bytes 32 (Noble.sig_r sg)) as a eqn:Ha. clear Ha.
  remember (be_bytes 32 (Noble.sig_s sg)) as b eqn:Hb. clear Hb.
  injection H as <- _.
  exists i, qx, qy. cbv zeta.
  split; [lia|]. split; [intros j Hj; apply Hl; lia|].
  split; [exact Hv|]. split; [exact Hq|].
  rewrite firstn_app, Hlr, Nat.sub_diag, firstn_O, app_nil_r.
  rewrite skipn_app, Hlr, Nat.sub_diag, skipn_O.
  rewrite (firstn_all2 (n := 32) a) by lia.
  rewrite (skipn_all2 (n := 32) a) by lia.
  rewrite app_nil_l, (firstn_all2 (n := 32) b) by lia.
  rewrite Hbr, Hbs. split; assumption.
Qed.

(** C8: signing is deterministic, with the nonce of RFC 6979. Whenever
    [signLegacyTx] or [signEIP1559Tx] returns a signed transaction, it has
    left the world as it was, and the same call in any other world returns
    the same transaction, hence the same [(v, r, s)]. The nonce [k] is a
    function of the key and the hash alone: the first candidate of the HMAC
    generator of RFC 6979, seeded with the key and the hash, that gives a
    signature; every earlier candidate is refused. With it, [r] is the
    abscissa of [k G] and [s] is [(h + d r) / k], both modulo the group
    order, [s] in its low form. *)
Theorem signing_deterministic (privKey : Buffer) (txData : Tx.TxData) w signedTx w' :
  signLegacyTx privKey txData w = (Ok signedTx, w')
  \/ signEIP1559Tx privKey txData w = (Ok signedTx, w') ->
  w' = w
  /\ (forall w2,
        (signLegacyTx privKey txData w = (Ok signedTx, w') ->
         signLegacyTx privKey txData w2 = (Ok signedTx, w2))
        /\ (signEIP1559Tx privKey txData w = (Ok signedTx, w') ->
            signEIP1559Tx privKey txData w2 = (Ok signedTx, w2)))
  /\ exists msgHash i qx qy,
       let d := be_int privKey in
       let h := be_int (firstn 32 msgHash) mod Secp256k1.n in
       let seed := be_bytes 32 d ++ be_bytes 32 h in
       let k := be_int (RFC6979.candidate seed i) in
       let s := (Secp256k1.inv_n k * ((h + d * (qx mod Secp256k1.n)) mod Secp256k1.n))
                mod Secp256k1.n in
       signed_hash txData msgHash
       /\ (forall j, (j < i)%nat -> Noble.kmd2sig (RFC6979.candidate seed j) h d = None)
       /\ 0 < k < Secp256k1.n
       /\ Secp256k1.point_mul k Secp256k1.G = Some (qx, qy)
       /\ Tx.r (Tx.fields_of signedTx) = Some (qx mod Secp256k1.n)
       /\ Tx.s (Tx.fields_of signedTx)
          = Some (if Noble.half_n <? s then Secp256k1.n - s else s).
Proof.
  intros H.
  assert (Hw : w' = w).
  { destruct H as [H | H]; [unfold signLegacyTx in H | unfold signEIP1559Tx in H];
      apply pure_call_inv in H as [_ H]; exact H. }
  split; [exact Hw|]. split.
  { intros w2. unfold signLegacyTx, signEIP1559Tx, pure_call.
    split; intros [= Hr _]; rewrite Hr; reflexivity. }
  destruct H as [H | H].
  - unfold signLegacyTx in H. apply pure_call_inv in H as [H _]. symmetry in H.
    rinv H. rinv H. injection H as <-.
    pose proof (legacy_fromTxData_inv _ _ _ E) as [_ Hv].
    assert (Hoc : Tx.opts_common
                    (<["txParams" := Tx.OCommon (Common.new Common.Mainnet Common.Istanbul)]> ∅)
                  = None) by reflexivity.
    rewrite Hoc in Hv. apply validateTxV_default in Hv as (Hhf & Hc & _).
    destruct (legacy_sign_v _ _ _ E0 Hhf Hc)
      as (signature & rec & Hs & _ & _ & _ & _ & Hr & Hs').
    apply signSync_nonce in Hs as (i & qx & qy & Hs). cbv zeta in Hs.
    destruct Hs as (_ & Hl & Hk & Hq & Hfr & Hfs).
    exists (Tx.Legacy.getMessageToSign x true), i, qx, qy. cbv zeta.
    cbn [Tx.fields_of]. rewrite Hr, Hs', Hfr, Hfs.
    split; [left; exists x; split; [exact E | reflexivity]|].
    split; [exact Hl|]. split; [exact Hk|]. split; [exact Hq|]. split; reflexivity.
  - unfold signEIP1559Tx in H. apply pure_call_inv in H as [H _]. symmetry in H.
    rinv H. rinv H. injection H as <-.
    destruct (feemarket_sign_v _ _ _ E0) as (signature & rec & Hs & _ & _ & Hr & Hs').
    apply signSync_nonce in Hs as (i & qx & qy & Hs). cbv zeta in Hs.
    destruct Hs as (_ & Hl & Hk & Hq & Hfr & Hfs).
    exists (Tx.FeeMarket.getMessageToSign x), i, qx, qy. cbv zeta.
    cbn [Tx.fields_of]. rewrite Hr, Hs', Hfr, Hfs.
    split; [right; exists x; split; [exact E | reflexivity]|].
    split; [exact Hl|]. split; [exact Hk|]. split; [exact Hq|]. split; reflexivity.
Qed.

Lemma signing_deterministic_witness :
  exists signedTx,
    signLegacyTx example_key eip155_example quiet = (Ok signedTx, quiet)
    /\ (forall w2,
          (signLegacyTx example_key eip155_example quiet = (Ok signedTx, quiet) ->
           signLegacyTx example_key eip155_example w2 = (Ok signedTx, w2))
          /\ (signEIP1559Tx example_key eip155_example quiet = (Ok signedTx, quiet) ->
              signEIP1559Tx example_key eip155_example w2 = (Ok signedTx, w2)))
    /\ exists msgHash i qx qy,
         let d := be_int example_key in
         let h := be_int (firstn 32 msgHash) mod Secp256k1.n in
         let seed := be_bytes 32 d ++ be_bytes 32 h in
         let k := be_int (RFC6979.candidate seed i) in
         let s := (Secp256k1.inv_n k * ((h + d * (qx mod Secp256k1.n)) mod Secp256k1.n))
                  mod Secp256k1.n in
         signed_hash eip155_example msgHash
         /\ (forall j, (j < i)%nat -> Noble.kmd2sig (RFC6979.candidate seed j) h d = None)
         /\ 0 < k < Secp256k1.n
         /\ Secp256k1.point_mul k Secp256k1.G = Some (qx, qy)
         /\ Tx.r (Tx.fields_of signedTx) = Some (qx mod Secp256k1.n)
         /\ Tx.s (Tx.fields_of signedTx)
            = Some (if Noble.half_n <? s then Secp256k1.n - s else s).
Proof.
  assert (H : exists signedTx,
             signLegacyTx example_key eip155_example quiet = (Ok signedTx, quiet)).
  { vm_compute. eexists. reflexivity. }
  destruct H as [signedTx H]. exists signedTx. split; [exact H|].
  apply (signing_deterministic example_key eip155_example quiet signedTx quiet).
  left. exact H.
Defined.

(** ** The key material on the page *)

Lemma assign_privKey_valid key d w :
  HDKey.privateKeyVerify key = true ->
  Page.assign_privKey key d w
  = (Ok (Page.set_recoveredAddress EmptyString
           (Page.set_ETHaddress
              ("0x" ++ toString_hex
                         (skipn 12 (Keccak.digest (HDKey.publicKeyCreate_raw key))))%string
              (Page.set_pubKey (Page.Octets (HDKey.publicKeyCreate_raw key))
                 (Page.set_privKey (Page.Octets key) d)))), w).
Proof.
  intros H. unfold Page.assign_privKey, Page.reported, Page.watch_privKey, bind.
  rewrite (derivePubKey_valid key w H), assign_pubKey_eq. reflexivity.
Qed.

Lemma assign_mnemonic_coherent val d w :
  Page.coherent d ->
  exists d', Page.assign_mnemonic val d w = (Ok d', w) /\ Page.coherent d'.
Proof.
  intros Hc. unfold Page.assign_mnemonic.
  destruct (String.eqb val (Page.mnemonic d)); [exists d; split; [reflexivity | exact Hc]|].
  unfold Page.reported, Page.watch_mnemonic, bind. rewrite generatePrivKey_eq.
  destruct (derive_private_key _ _) as [key|msg] eqn:E.
  - pose proof (derived_key_is_valid _ _ _ E) as Hv. clear E.
    rewrite (assign_privKey_valid key _ w Hv).
    eexists. split; [reflexivity|]. unfold Page.coherent. cbn [Page.privKey
      Page.set_recoveredAddress Page.set_ETHaddress Page.set_pubKey Page.set_privKey
      Page.pubKey Page.ETHaddress].
    exists (HDKey.publicKeyCreate_raw key). split; [reflexivity|].
    rewrite (derivePubKey_valid key quiet Hv), deriveEthAddress_eq.
    split; reflexivity.
  - eexists. split; [reflexivity | exact Hc].
Qed.

Lemma reported_signing_coherent d (call : M Tx.Object) (assign : Tx.Object -> Page.Data -> M Page.Data) w :
  (forall signed w1, exists d' w2,
      assign signed d w1 = (Ok d', w2) /\ Page.coherent d') ->
  Page.coherent d ->
  exists d' w',
    Page.reported d (do signed <- call; assign signed d)%js w = (Ok d', w')
    /\ Page.coherent d'.
Proof.
  intros Ha Hc. unfold Page.reported, bind.
  destruct (call w) as [[signed|msg] w1].
  - destruct (Ha signed w1) as (d' & w2 & -> & Hd'). eauto.
  - eauto.
Qed.

Lemma assign_signed_coherent d signed w1 :
  Page.coherent d ->
  (exists d' w2,
     Page.assign_signedLegacySample signed d w1 = (Ok d', w2) /\ Page.coherent d')
  /\ (exists d' w2,
        Page.assign_signedEIP1559Sample signed d w1 = (Ok d', w2) /\ Page.coherent d').
Proof.
  intros Hc.
  unfold Page.assign_signedLegacySample, Page.assign_signedEIP1559Sample, Page.reported,
    Page.watch_signedLegacySample, Page.watch_signedEIP1559Sample, bind, ret,
    getSignerAddress, pure_call.
  split; destruct (rbind _ _); eauto.
Qed.

Lemma handle_coherent e d w :
  Page.coherent d ->
  exists d' w', Page.handle e d w = (Ok d', w') /\ Page.coherent d'.
Proof.
  intros Hc. destruct e as [wordlist|val| |]; cbn [Page.handle].
  - unfold Page.generateNew, Page.reported, bind.
    destruct (generateMnemonic wordlist w) as [[m|msg] w1].
    + destruct (assign_mnemonic_coherent m d w1 Hc) as (d' & -> & Hd'). eauto.
    + eauto.
  - destruct (assign_mnemonic_coherent val d w Hc) as (d' & H & Hd'). eauto.
  - apply reported_signing_coherent; [|exact Hc].
    intros signed w1. apply assign_signed_coherent, Hc.
  - apply reported_signing_coherent; [|exact Hc].
    intros signed w1. apply assign_signed_coherent, Hc.
Qed.

(** A method that returns to a direct caller has done what Vue's dispatch
    of it does. *)
Lemma reported_returns d (method : M Page.Data) w d' w' :
  method w = (Ok d', w') -> Page.reported d method w = (Ok d', w').
Proof. intros H. unfold Page.reported. rewrite H. reflexivity. Qed.

Lemma method_coherent wordlist d w d' w' :
  Page.coherent d ->
  Page.generateNew wordlist d w = (Ok d', w')
  \/ Page.signSampleLegacyTx d w = (Ok d', w')
  \/ Page.signSampleEIP1559Tx d w = (Ok d', w') ->
  Page.coherent d'.
Proof.
  intros Hc H.
  assert (He : exists e, Page.handle e d w = (Ok d', w')).
  { destruct H as [H | [H | H]];
      [exists (Page.GenerateNew wordlist) | exists Page.SignSampleLegacyTx
       | exists Page.SignSampleEIP1559Tx];
      cbn [Page.handle]; apply reported_returns, H. }
  destruct He as [e He].
  destruct (handle_coherent e d w Hc) as (d1 & w1 & H1 & Hc1).
  rewrite He in H1. injection H1 as <- _. exact Hc1.
Qed.

(** X9: the key material on the page always belongs together. Whatever
    sequence of events the page goes through from its initial data, each a
    method dispatched by Vue or an assignment to [mnemonic], afterwards
    either no key is shown, or [pubKey] is the public key that
    [derivePubKey] returns for [privKey] and [ETHaddress] is the address that
    [deriveEthAddress] returns for [pubKey]. A method called directly on
    such data either throws or leaves data of that kind again. *)
Theorem key_material_stays_coherent (events : list Page.Event) (w : World) :
  exists d' w',
    Page.run events Page.data w = (Ok d', w')
    /\ Page.coherent d'
    /\ forall wordlist w1 d'' w2,
         Page.generateNew wordlist d' w1 = (Ok d'', w2)
         \/ Page.signSampleLegacyTx d' w1 = (Ok d'', w2)
         \/ Page.signSampleEIP1559Tx d' w1 = (Ok d'', w2) ->
         Page.coherent d''.
Proof.
  assert (H : forall d w0, Page.coherent d ->
            exists d' w', Page.run events d w0 = (Ok d', w') /\ Page.coherent d').
  { induction events as [|e events IH]; intros d w0 Hc; cbn [Page.run].
    - exists d, w0. split; [reflexivity | exact Hc].
    - unfold bind. destruct (handle_coherent e d w0 Hc) as (d1 & w1 & -> & Hc1).
      apply IH, Hc1. }
  destruct (H Page.data w) as (d' & w' & Hr & Hc).
  { unfold Page.coherent. cbn. split; reflexivity. }
  exists d', w'. split; [exact Hr|]. split; [exact Hc|].
  intros wordlist w1 d'' w2. apply method_coherent, Hc.
Qed.

(** ** Hexadecimal text *)

Lemma hex_digit_value n : Util.hex_value (hex_digit n) = n mod 16.
Proof.
  unfold hex_digit.
  assert (H : (Z.to_nat (n mod 16) < 16)%nat) by (pose proof (Z.mod_pos_bound n 16); lia).
  rewrite <- (Z2Nat.id (n mod 16)) at 2 by (pose proof (Z.mod_pos_bound n 16); lia).
  generalize dependent (Z.to_nat (n mod 16)). intros k Hk.
  do 16 (destruct k as [|k]; [reflexivity|]); lia.
Qed.

Lemma hex_digit_is_hex n : Util.is_hex_char (hex_digit n) = true.
Proof.
  unfold hex_digit.
  assert (H : (Z.to_nat (n mod 16) < 16)%nat) by (pose proof (Z.mod_pos_bound n 16); lia).
  generalize dependent (Z.to_nat (n mod 16)). intros k Hk.
  do 16 (destruct k as [|k]; [reflexivity|]); lia.
Qed.

Lemma hex_value_bound c : Util.is_hex_char c = true -> 0 <= Util.hex_value c < 16.
Proof.
  unfold Util.is_hex_char, Util.hex_value. cbv zeta.
  generalize (nat_of_ascii c). intros k H.
  destruct (Z.of_nat k <=? 57) eqn:E1; [|destruct (Z.of_nat k <=? 70) eqn:E2];
    rewrite ?Z.leb_le, ?Z.leb_gt in *;
    rewrite !orb_true_iff, !andb_true_iff, !Nat.leb_le in H; lia.
Qed.

Lemma value_app a b acc : Hex.value (a ++ b) acc = Hex.value b (Hex.value a acc).
Proof.
  revert acc. induction a as [|c a IH]; intros acc; rewrite ?sapp_nil, ?sapp_cons;
    cbn [Hex.value]; [reflexivity | apply IH].
Qed.

Lemma digits_spec fuel n acc :
  0 <= n < 16 ^ Z.of_nat fuel ->
  exists ds,
    Hex.digits fuel n acc = (ds ++ acc)%string
    /\ (forall z, Hex.value ds z = z * 16 ^ Z.of_nat (String.length ds) + n)
    /\ all_chars Util.is_hex_char ds = true.
Proof.
  revert n acc. induction fuel as [|fuel IH]; intros n acc Hn.
  - change (16 ^ Z.of_nat 0) with 1 in Hn. assert (n = 0) by lia. subst n.
    exists EmptyString. split; [reflexivity|]. split; [intros z; cbn; lia | reflexivity].
  - cbn [Hex.digits]. destruct (n <? 16) eqn:E.
    + apply Z.ltb_lt in E. exists (String (hex_digit n) EmptyString).
      split; [reflexivity|]. split.
      * intros z. cbn [Hex.value String.length]. rewrite hex_digit_value.
        rewrite Z.mod_small by lia. change (16 ^ Z.of_nat 1) with 16. lia.
      * cbn [all_chars]. now rewrite hex_digit_is_hex.
    + apply Z.ltb_ge in E.
      destruct (IH (n / 16) (String (hex_digit n) acc)) as (ds & H1 & H2 & H3).
      { split; [apply Z.div_pos; lia|]. apply Z.div_lt_upper_bound; [lia|].
        rewrite Nat2Z.inj_succ, Z.pow_succ_r in Hn by lia. lia. }
      exists (ds ++ String (hex_digit n) EmptyString)%string. split; [|split].
      * rewrite H1, string_app_assoc, sapp_cons, sapp_nil. reflexivity.
      * intros z. rewrite value_app. cbn [Hex.value]. rewrite H2, hex_digit_value.
        rewrite length_string_app. cbn [String.length].
        rewrite Nat2Z.inj_add, Z.pow_add_r by lia. change (16 ^ Z.of_nat 1) with 16.
        pose proof (Z.div_mod n 16 ltac:(lia)). lia.
      * rewrite all_chars_app, H3. cbn [all_chars]. now rewrite hex_digit_is_hex.
Qed.

Lemma toString16_spec n :
  0 <= n ->
  Hex.value (Hex.toString16 n) 0 = n
  /\ all_chars Util.is_hex_char (Hex.toString16 n) = true.
Proof.
  intros Hn. unfold Hex.toString16.
  destruct (n <? 0) eqn:E; [apply Z.ltb_lt in E; lia|].
  destruct (digits_spec (S (Z.to_nat (Z.log2 n))) n EmptyString) as (ds & H1 & H2 & H3).
  - split; [exact Hn|]. rewrite Nat2Z.inj_succ, Z2Nat.id by apply Z.log2_nonneg.
    destruct (Z.eq_dec n 0) as [->|Hz]; [cbn; lia|].
    assert (n < 2 ^ Z.succ (Z.log2 n)) by (apply Z.log2_spec; lia).
    assert (2 ^ Z.succ (Z.log2 n) <= 16 ^ Z.succ (Z.log2 n)).
    { apply Z.pow_le_mono_l. lia. }
    lia.
  - rewrite H1, sapp_nil_r. split; [|exact H3]. rewrite H2. lia.
Qed.

Lemma from_hex_value k : forall s z,
  String.length s = (2 * k)%nat ->
  all_chars Util.is_hex_char s = true ->
  fold_left (fun a b => 256 * a + byte_to_Z b) (Util.Buffer_from_hex s) z = Hex.value s z.
Proof.
  induction k as [|k IH]; intros s z Hl Hh.
  - destruct s; [reflexivity | discriminate Hl].
  - destruct s as [|a [|b rest]]; try discriminate Hl; [cbn in Hl; lia|].
    cbn [all_chars] in Hh. apply andb_true_iff in Hh as [Ha Hh].
    apply andb_true_iff in Hh as [Hb Hh].
    apply hex_value_bound in Ha, Hb.
    cbn [Util.Buffer_from_hex fold_left Hex.value].
    rewrite byte_to_of_Z_small by lia.
    rewrite IH; [f_equal; lia | cbn [String.length] in Hl; lia | exact Hh].
Qed.

Lemma padToEven_value s z :
  z = 0 ->
  exists k, String.length (Util.padToEven s) = (2 * k)%nat
            /\ Hex.value (Util.padToEven s) z = Hex.value s z
            /\ (all_chars Util.is_hex_char s = true ->
                all_chars Util.is_hex_char (Util.padToEven s) = true).
Proof.
  intros ->. unfold Util.padToEven.
  destruct (Nat.even (String.length s)) eqn:E.
  - apply Nat.even_spec in E as [k Hk]. exists k. auto.
  - assert (Ho : Nat.odd (String.length s) = true)
      by (rewrite <- Nat.negb_even, E; reflexivity).
    apply Nat.odd_spec in Ho as [k Hk]. exists (S k).
    cbn [String.length Hex.value all_chars]. split; [lia|]. split; [reflexivity|].
    intros ->. reflexivity.
Qed.

(** X10: what [getHex] shows for a non-negative number reads back as that
    number. The text is [0x] followed by hexadecimal digits, and as a field
    of a transaction payload it is accepted with the value [val]. *)
Theorem getHex_reads_back (val : Z) :
  0 <= val ->
  Util.isHexString (Page.getHex val) = true
  /\ Util.field_bigint (Some (Util.VString (Page.getHex val))) = Ok val.
Proof.
  intros Hv. destruct (toString16_spec val Hv) as [H1 H2].
  unfold Page.getHex, Hex.bigIntToHex.
  change ("0x" ++ Hex.toString16 val)%string
    with (String "0" (String "x" (Hex.toString16 val))).
  split; [exact H2|].
  unfold Util.field_bigint, Util.field_buffer, Util.toBuffer.
  change (Util.isHexString (String "0" (String "x" (Hex.toString16 val))))
    with (all_chars Util.is_hex_char (Hex.toString16 val)).
  rewrite H2. cbn [rbind Util.stripHexPrefix].
  destruct (padToEven_value (Hex.toString16 val) 0 eq_refl) as (k & Hk & Hval & Hhex).
  unfold Util.bufferToBigInt, be_int.
  rewrite (from_hex_value k) by auto. now rewrite Hval, H1.
Qed.

Lemma getHex_reads_back_witness :
  0 <= 10000000000000
  /\ Util.isHexString (Page.getHex 10000000000000) = true
  /\ Util.field_bigint (Some (Util.VString (Page.getHex 10000000000000)))
     = Ok 10000000000000.
Proof.
  assert (H : 0 <= 10000000000000) by lia.
  split; [exact H|]. exact (getHex_reads_back 10000000000000 H).
Defined.

(** The gas price of the samples, zero, and a negative number, which has
    no hexadecimal form that a payload accepts. *)
Example getHex_samples :
  Page.getHex 10000000000000 = "0x9184e72a000"%string
  /\ Page.getHex 0 = "0x0"%string
  /\ Page.getHex (-255) = "0x-ff"%string
  /\ Util.isHexString (Page.getHex (-255)) = false.
Proof. vm_compute. repeat split; reflexivity. Qed.

Lemma from_hex_of_byte b rest :
  Util.Buffer_from_hex (hex_of_byte b ++ rest) = b :: Util.Buffer_from_hex rest.
Proof.
  unfold hex_of_byte. rewrite !sapp_cons, sapp_nil. cbn [Util.Buffer_from_hex].
  f_equal. destruct b; reflexivity.
Qed.

Lemma from_hex_toString_hex (b : Buffer) : Util.Buffer_from_hex (toString_hex b) = b.
Proof.
  induction b as [|x b IH]; [reflexivity|].
  cbn [toString_hex]. now rewrite from_hex_of_byte, IH.
Qed.

Lemma lower_hex_is_hex s :
  all_chars is_lower_hex s = true -> all_chars Util.is_hex_char s = true.
Proof.
  induction s as [|c s IH]; [reflexivity|]. cbn [all_chars].
  rewrite !andb_true_iff. intros [Hc Hs]. split; [|apply IH, Hs].
  unfold is_lower_hex, Util.is_hex_char in *. cbv zeta in *.
  generalize dependent (nat_of_ascii c). intros k Hk.
  rewrite !orb_true_iff, !andb_true_iff, !Z.leb_le in Hk.
  rewrite !orb_true_iff, !andb_true_iff, !Nat.leb_le. lia.
Qed.

Lemma toBuffer_toString_hex (b : Buffer) :
  Util.toBuffer (Some (Util.VString ("0x" ++ toString_hex b))) = Ok b.
Proof.
  change ("0x" ++ toString_hex b)%string with (String "0" (String "x" (toString_hex b))).
  unfold Util.toBuffer.
  change (Util.isHexString (String "0" (String "x" (toString_hex b))))
    with (all_chars Util.is_hex_char (toString_hex b)).
  rewrite (lower_hex_is_hex _ (toString_hex_lower b)). cbn [Util.stripHexPrefix].
  unfold Util.padToEven. rewrite length_toString_hex.
  replace (Nat.even (2 * List.length b)) with true
    by (symmetry; apply Nat.even_spec; exists (List.length b); reflexivity).
  now rewrite from_hex_toString_hex.
Qed.

(** X11: which of the texts of the page read back as octets. For every
    Buffer [b], [toBuffer] accepts [0x] followed by [b.toString('hex')] and
    returns [b]. The address [deriveEthAddress] returns is such a text: it
    reads back as the last twenty octets of the digest and can be the [to]
    of a payload. What [getSignerAddress] returns is not: [toBuffer] refuses
    it, for it begins with the prefix twice. *)
Theorem toBuffer_reads_back_toString_hex :
  (forall b : Buffer,
      Util.toBuffer (Some (Util.VString ("0x" ++ toString_hex b))) = Ok b)
  /\ (forall pubKey w address w',
        deriveEthAddress pubKey w = (Ok address, w') ->
        Util.toBuffer (Some (Util.VString address))
        = Ok (skipn 12 (Keccak.digest pubKey)))
  /\ (forall signedTx w address w',
        getSignerAddress signedTx w = (Ok address, w') ->
        Util.isHexString address = false
        /\ exists msg, Util.toBuffer (Some (Util.VString address)) = Throw msg).
Proof.
  split; [exact toBuffer_toString_hex|]. split.
  - intros pubKey w address w' H. rewrite deriveEthAddress_eq in H.
    injection H as <- _. apply toBuffer_toString_hex.
  - intros signedTx w address w' H.
    apply getSignerAddress_double_prefix in H as (sender & _ & -> & _).
    assert (Hh : Util.isHexString ("0x0x" ++ toString_hex sender) = false) by reflexivity.
    split; [exact Hh|]. unfold Util.toBuffer. rewrite Hh. eexists. reflexivity.
Qed.

(** On the addresses of the key [0x4646...46]: the derived one reads back,
    the recovered one is refused. *)
Example addresses_as_payload_fields :
  Util.toBuffer (Some (Util.VString "0x9d8a62f656a8d1615c1294fd71e9cfb3e4855a4f"))
  = Ok (Util.Buffer_from_hex "9d8a62f656a8d1615c1294fd71e9cfb3e4855a4f")
  /\ Util.toBuffer (Some (Util.VString "0x0x9d8a62f656a8d1615c1294fd71e9cfb3e4855a4f"))
     = Throw "Cannot convert string to buffer. toBuffer only supports 0x-prefixed hex strings".
Proof. split; reflexivity. Qed.
